(** * Buddy: command distribution between a controller and its agents

    A shallow embedding of the protocol core of [buddy_server.py] and
    [buddy_client.py]: the controller's client dictionary, its broadcast
    ([send_command]) and heartbeat ([handle_client]) loops, and the agent's
    discovery ([discover_server]), reconnection ([run], [stop]) and stream
    decoding ([listen_for_commands], [process_command]) code.

    Python values are modelled as follows.
    - [str] is a list of Unicode code points ([N]); [bytes] is a list of
      [byte].
    - A [dict] is an association list in insertion order with unique keys.
    - Exceptions are values of [exn]; a statement that can raise returns in
      the [Py] monad, which threads the machine state and carries either a
      value or the raised exception.
    - Everything outside the process (sockets, subprocesses, the clock) is an
      abstract world with a transition function; every call is also recorded
      in a trace of events. *)

From Stdlib Require Import List NArith ZArith Bool Ascii String Lia QArith.
From Stdlib Require Import Strings.Byte.
Import ListNotations.

Set Implicit Arguments.
Set Warnings "-register-all".

(* ===================================================================== *)
(** * Python strings and bytes *)
(* ===================================================================== *)

Module Py.

Definition char := N.
Definition str := list char.
Definition bytes := list byte.

(** A literal, written as a Rocq string, as a Python [str]. *)
Definition lit (s : string) : str := map N_of_ascii (list_ascii_of_string s).

Definition NL : char := 10%N.

Definition str_eqb (a b : str) : bool :=
  if list_eq_dec N.eq_dec a b then true else false.

(** [c in s] *)
Fixpoint contains (c : char) (s : str) : bool :=
  match s with
  | [] => false
  | x :: r => if N.eqb x c then true else contains c r
  end.

(** [s.split(c, 1)] when [c] occurs in [s]: the text before the first [c]
    and the text after it.  Python returns the one-element list [[s]] when
    [c] is absent, and unpacking that into two names raises; that case is
    [None] here. *)
Fixpoint split_once (c : char) (s : str) : option (str * str) :=
  match s with
  | [] => None
  | x :: r =>
      if N.eqb x c then Some ([], r)
      else match split_once c r with
           | Some (a, b) => Some (x :: a, b)
           | None => None
           end
  end.

(** [str.isspace] for a single code point (the Unicode White_Space set used by
    CPython, plus the four separators 0x1C-0x1F). *)
Definition isspace (c : char) : bool :=
  ((9 <=? c) && (c <=? 13) || (28 <=? c) && (c <=? 32)
   || (c =? 133) || (c =? 160) || (c =? 5760)
   || (8192 <=? c) && (c <=? 8202)
   || (c =? 8232) || (c =? 8233) || (c =? 8239) || (c =? 8287)
   || (c =? 12288))%N.

Fixpoint lstrip (s : str) : str :=
  match s with
  | [] => []
  | x :: r => if isspace x then lstrip r else s
  end.

Definition rstrip (s : str) : str := rev (lstrip (rev s)).

(** [s.strip()] *)
Definition strip (s : str) : str := rstrip (lstrip s).

(** [s.split()]: the maximal runs of non-space characters. *)
Fixpoint split_ws_aux (cur : str) (s : str) : list str :=
  match s with
  | [] => match cur with [] => [] | _ => [rev cur] end
  | x :: r =>
      if isspace x
      then match cur with [] => split_ws_aux [] r | _ => rev cur :: split_ws_aux [] r end
      else split_ws_aux (x :: cur) r
  end.

Definition split_ws (s : str) : list str := split_ws_aux [] s.

(** [s.split(c)] *)
Fixpoint split_on_aux (c : char) (cur : str) (s : str) : list str :=
  match s with
  | [] => [rev cur]
  | x :: r =>
      if N.eqb x c then rev cur :: split_on_aux c [] r
      else split_on_aux c (x :: cur) r
  end.

Definition split_on (c : char) (s : str) : list str := split_on_aux c [] s.

(** [sep.join(parts)] *)
Fixpoint join (sep : str) (parts : list str) : str :=
  match parts with
  | [] => []
  | [p] => p
  | p :: r => p ++ sep ++ join sep r
  end.

(** [l[:-1]] *)
Definition drop_last {A} (l : list A) : list A := removelast l.

(** Decimal digits of a number, as [str(i)] prints a non-negative [int]. *)
Fixpoint digits_aux (fuel : nat) (n : N) (acc : str) : str :=
  match fuel with
  | O => acc
  | S f =>
      let acc' := (48 + n mod 10)%N :: acc in
      if (n <? 10)%N then acc' else digits_aux f (n / 10)%N acc'
  end.

Definition str_of_N (n : N) : str := digits_aux (S (N.to_nat (N.log2 n))) n [].

(** ** UTF-8

    [bytes.decode()] and [str.encode()] with the default codec and the
    default [strict] error handler.  The decoder is written as the usual
    automaton: [Pending k acc lo hi] waits for [k] more continuation bytes,
    the next of which must lie in [lo..hi]. *)

Inductive utf8_state :=
| Idle
| Pending (k : nat) (acc : N) (lo hi : N).

Definition utf8_lead (b : N) : option (utf8_state + char) :=
  (if b <? 128 then Some (inr b)
   else if b <? 194 then None
   else if b <? 224 then Some (inl (Pending 1 (b - 192) 128 191))
   else if b =? 224 then Some (inl (Pending 2 0 160 191))
   else if b =? 237 then Some (inl (Pending 2 13 128 159))
   else if b <? 240 then Some (inl (Pending 2 (b - 224) 128 191))
   else if b =? 240 then Some (inl (Pending 3 0 144 191))
   else if b <? 244 then Some (inl (Pending 3 (b - 240) 128 191))
   else if b =? 244 then Some (inl (Pending 3 4 128 143))
   else None)%N.

Definition utf8_step (st : utf8_state) (b : N) : option (utf8_state + char) :=
  match st with
  | Idle => utf8_lead b
  | Pending k acc lo hi =>
      if ((lo <=? b) && (b <=? hi))%N then
        let acc' := (acc * 64 + (b - 128))%N in
        match k with
        | O => None
        | S O => Some (inr acc')
        | S k' => Some (inl (Pending k' acc' 128 191))
        end
      else None
  end.

Fixpoint utf8_run (st : utf8_state) (bs : bytes) : option (utf8_state * str) :=
  match bs with
  | [] => Some (st, [])
  | b :: r =>
      match utf8_step st (Byte.to_N b) with
      | None => None
      | Some (inl st') => utf8_run st' r
      | Some (inr c) =>
          match utf8_run Idle r with
          | Some (st'', out) => Some (st'', c :: out)
          | None => None
          end
      end
  end.

(** [bs.decode()]; [None] stands for [UnicodeDecodeError]. *)
Definition decode (bs : bytes) : option str :=
  match utf8_run Idle bs with
  | Some (Idle, out) => Some out
  | _ => None
  end.

Definition byte_of (n : N) : byte :=
  match Byte.of_N n with Some b => b | None => x00 end.

Definition utf8_char (c : char) : option bytes :=
  (if c <? 128 then Some [byte_of c]
   else if c <? 2048 then Some [byte_of (192 + c / 64); byte_of (128 + c mod 64)]
   else if (55296 <=? c) && (c <=? 57343) then None
   else if c <? 65536 then
     Some [byte_of (224 + c / 4096); byte_of (128 + (c / 64) mod 64);
           byte_of (128 + c mod 64)]
   else if c <? 1114112 then
     Some [byte_of (240 + c / 262144); byte_of (128 + (c / 4096) mod 64);
           byte_of (128 + (c / 64) mod 64); byte_of (128 + c mod 64)]
   else None)%N.

(** [s.encode()]; [None] stands for [UnicodeEncodeError]. *)
Fixpoint encode (s : str) : option bytes :=
  match s with
  | [] => Some []
  | c :: r =>
      match utf8_char c, encode r with
      | Some a, Some b => Some (a ++ b)
      | _, _ => None
      end
  end.

Definition is_ascii (s : str) : Prop := Forall (fun c => (c < 128)%N) s.

(** The printable ASCII characters, space to tilde. *)
Definition printable (c : char) : Prop := (32 <= c <= 126)%N.

(** A code point that is a Unicode scalar value: in range and not a
    surrogate.  Text that can be written in UTF-8 consists of these. *)
Definition scalar (c : char) : Prop :=
  (c < 55296 \/ 57343 < c /\ c < 1114112)%N.

Definition is_text (s : str) : Prop := Forall scalar s.

End Py.

(* ===================================================================== *)
(** * The [json] module *)
(* ===================================================================== *)

(** [json.dumps] with its defaults ([ensure_ascii=True], separators [", "]
    and [": "]) and [json.loads] on a [str], as the accelerated CPython
    decoder behaves.  A float is kept as the literal text that was read. *)

Module Json.
Import Py.

Inductive value :=
| JNull
| JBool (b : bool)
| JInt (z : Z)
| JFloat (text : str)
| JStr (s : str)
| JList (l : list value)
| JDict (d : list (str * value)).

Definition dict := list (str * value).

(** [d.get(k)] *)
Fixpoint dict_get (k : str) (d : dict) : option value :=
  match d with
  | [] => None
  | (k', v) :: r => if str_eqb k' k then Some v else dict_get k r
  end.

(** [d[k] = v]: an existing key keeps its position. *)
Fixpoint dict_set (k : str) (v : value) (d : dict) : dict :=
  match d with
  | [] => [(k, v)]
  | (k', v') :: r =>
      if str_eqb k' k then (k', v) :: r else (k', v') :: dict_set k v r
  end.

(** ** Encoding *)

Definition hexdigit (n : N) : char :=
  (if n <? 10 then 48 + n else 87 + n)%N.

Definition hex4 (n : N) : str :=
  [hexdigit ((n / 4096) mod 16); hexdigit ((n / 256) mod 16);
   hexdigit ((n / 16) mod 16); hexdigit (n mod 16)]%N.

Definition uescape (n : N) : str := 92%N :: 117%N :: hex4 n.

(** One character of a string under [ensure_ascii]. *)
Definition escape_char (c : char) : str :=
  (if c =? 34 then [92; 34]
   else if c =? 92 then [92; 92]
   else if c =? 10 then [92; 110]
   else if c =? 13 then [92; 114]
   else if c =? 9 then [92; 116]
   else if c =? 8 then [92; 98]
   else if c =? 12 then [92; 102]
   else if (32 <=? c) && (c <=? 126) then [c]
   else if c <? 65536 then uescape c
   else uescape (55296 + ((c - 65536) / 1024) mod 1024)
        ++ uescape (56320 + (c - 65536) mod 1024))%N.

Definition dumps_str (s : str) : str :=
  34%N :: flat_map escape_char s ++ [34%N].

Definition dumps_int (z : Z) : str :=
  match z with
  | Z0 => lit "0"
  | Zpos p => str_of_N (Npos p)
  | Zneg p => 45%N :: str_of_N (Npos p)
  end.

Fixpoint dumps (v : value) : str :=
  match v with
  | JNull => lit "null"
  | JBool true => lit "true"
  | JBool false => lit "false"
  | JInt z => dumps_int z
  | JFloat t => t
  | JStr s => dumps_str s
  | JList l =>
      lit "[" ++
      (fix items (l : list value) : str :=
         match l with
         | [] => []
         | [x] => dumps x
         | x :: r => dumps x ++ lit ", " ++ items r
         end) l ++ lit "]"
  | JDict d =>
      lit "{" ++
      (fix items (d : list (str * value)) : str :=
         match d with
         | [] => []
         | [(k, x)] => dumps_str k ++ lit ": " ++ dumps x
         | (k, x) :: r => dumps_str k ++ lit ": " ++ dumps x ++ lit ", " ++ items r
         end) d ++ lit "}"
  end.

(** ** Decoding *)

Inductive pres (A : Type) :=
| POk (a : A)
| PErr          (* JSONDecodeError *)
| PFuel.        (* the recursion budget of the model ran out *)
Arguments PErr {A}.
Arguments PFuel {A}.

Definition pbind {A B} (x : pres A) (f : A -> pres B) : pres B :=
  match x with
  | POk a => f a
  | PErr => PErr
  | PFuel => PFuel
  end.

Definition is_ws (c : char) : bool :=
  ((c =? 32) || (c =? 9) || (c =? 10) || (c =? 13))%N.

Fixpoint skip_ws (s : str) : str :=
  match s with
  | [] => []
  | c :: r => if is_ws c then skip_ws r else s
  end.

Definition is_digit (c : char) : bool := ((48 <=? c) && (c <=? 57))%N.

Definition hexval (c : char) : option N :=
  (if (48 <=? c) && (c <=? 57) then Some (c - 48)
   else if (97 <=? c) && (c <=? 102) then Some (c - 87)
   else if (65 <=? c) && (c <=? 70) then Some (c - 55)
   else None)%N.

Definition unhex4 (a b c d : char) : option N :=
  match hexval a, hexval b, hexval c, hexval d with
  | Some x, Some y, Some z, Some w => Some (((x * 16 + y) * 16 + z) * 16 + w)%N
  | _, _, _, _ => None
  end.

Definition backslash (e : char) : option char :=
  (if e =? 34 then Some 34
   else if e =? 92 then Some 92
   else if e =? 47 then Some 47
   else if e =? 98 then Some 8
   else if e =? 102 then Some 12
   else if e =? 110 then Some 10
   else if e =? 114 then Some 13
   else if e =? 116 then Some 9
   else None)%N.

Definition is_high (u : N) : bool := ((55296 <=? u) && (u <=? 56319))%N.
Definition is_low (u : N) : bool := ((56320 <=? u) && (u <=? 57343))%N.

Definition cons_ok (c : char) (x : pres (str * str)) : pres (str * str) :=
  pbind x (fun p => POk (c :: fst p, snd p)).

(** [scanstring] in strict mode, started just after the opening quote:
    the decoded string and the text after the closing quote. *)
Fixpoint scanstring (s : str) : pres (str * str) :=
  match s with
  | [] => PErr
  | c :: r =>
      if (c =? 34)%N then POk ([], r)
      else if (c <? 32)%N then PErr
      else if negb (c =? 92)%N then cons_ok c (scanstring r)
      else
        match r with
        | [] => PErr
        | e :: r1 =>
            if negb (e =? 117)%N then
              match backslash e with
              | Some x => cons_ok x (scanstring r1)
              | None => PErr
              end
            else
              match r1 with
              | h1 :: h2 :: h3 :: h4 :: r2 =>
                  match unhex4 h1 h2 h3 h4 with
                  | None => PErr
                  | Some u =>
                      match r2 with
                      | b :: u' :: r3 =>
                          if is_high u && (b =? 92)%N && (u' =? 117)%N then
                            match r3 with
                            | g1 :: g2 :: g3 :: g4 :: r4 =>
                                match unhex4 g1 g2 g3 g4 with
                                | None => PErr
                                | Some u2 =>
                                    if is_low u2 then
                                      cons_ok (65536 + ((u - 55296) * 1024 + (u2 - 56320)))%N
                                              (scanstring r4)
                                    else cons_ok u (scanstring r2)
                                end
                            | _ => PErr
                            end
                          else cons_ok u (scanstring r2)
                      | _ => cons_ok u (scanstring r2)
                      end
                  end
              | _ => PErr
              end
        end
  end.

Fixpoint take_digits (s : str) : str * str :=
  match s with
  | [] => ([], [])
  | c :: r =>
      if is_digit c then let p := take_digits r in (c :: fst p, snd p)
      else ([], s)
  end.

Definition N_of_digits (ds : str) : N :=
  fold_left (fun acc c => (acc * 10 + (c - 48))%N) ds 0%N.

(** The integer part of a number: [0] or a non-zero digit and more digits. *)
Definition match_int (s : str) : option (str * str) :=
  match s with
  | [] => None
  | c :: r =>
      if ((49 <=? c) && (c <=? 57))%N then
        let p := take_digits r in Some (c :: fst p, snd p)
      else if (c =? 48)%N then Some ([c], r)
      else None
  end.

(** An optional fraction: a dot and at least one digit. *)
Definition match_frac (s : str) : str * str :=
  match s with
  | c :: d :: r =>
      if (c =? 46)%N && is_digit d then
        let p := take_digits (d :: r) in (c :: fst p, snd p)
      else ([], s)
  | _ => ([], s)
  end.

(** An optional exponent: [e] or [E], an optional sign, at least one digit. *)
Definition match_exp (s : str) : str * str :=
  match s with
  | e :: r =>
      if ((e =? 101) || (e =? 69))%N then
        match r with
        | g :: d :: r' =>
            if ((g =? 43) || (g =? 45))%N && is_digit d then
              let p := take_digits (d :: r') in (e :: g :: fst p, snd p)
            else if is_digit g then
              let p := take_digits r in (e :: fst p, snd p)
            else ([], s)
        | [g] => if is_digit g then ([e; g], []) else ([], s)
        | [] => ([], s)
        end
      else ([], s)
  | [] => ([], s)
  end.

Definition match_number (s : str) : option (value * str) :=
  let neg := match s with c :: _ => (c =? 45)%N | [] => false end in
  let s1 := if neg then tl s else s in
  match match_int s1 with
  | None => None
  | Some (ip, r1) =>
      let (fp, r2) := match_frac r1 in
      let (ep, r3) := match_exp r2 in
      match fp, ep with
      | [], [] =>
          let n := Z.of_N (N_of_digits ip) in
          Some (JInt (if neg then Z.opp n else n), r3)
      | _, _ =>
          Some (JFloat ((if neg then [45%N] else []) ++ ip ++ fp ++ ep), r3)
      end
  end.

(** [s.startswith(p)] and the text after the prefix. *)
Fixpoint strip_prefix (p s : str) : option str :=
  match p, s with
  | [], _ => Some s
  | a :: p', b :: s' => if (a =? b)%N then strip_prefix p' s' else None
  | _ :: _, [] => None
  end.

Definition constant (name : string) (v : value) (s : str)
    (otherwise : pres (value * str)) : pres (value * str) :=
  match strip_prefix (lit name) s with
  | Some r => POk (v, r)
  | None => otherwise
  end.

Definition number_or_fail (s : str) : pres (value * str) :=
  match match_number s with
  | Some p => POk p
  | None => PErr
  end.

(** [scan_once], with the loops of [JSONObject] and [JSONArray]. *)
Fixpoint scan_once (n : nat) (s : str) {struct n} : pres (value * str) :=
  match n with
  | O => PFuel
  | S n' =>
      match s with
      | [] => PErr
      | c :: r =>
          if (c =? 34)%N then
            pbind (scanstring r) (fun p => POk (JStr (fst p), snd p))
          else if (c =? 123)%N then
            match skip_ws r with
            | c1 :: r2 =>
                if (c1 =? 125)%N then POk (JDict [], r2)
                else if (c1 =? 34)%N then parse_object n' [] r2
                else PErr
            | [] => PErr
            end
          else if (c =? 91)%N then
            match skip_ws r with
            | c1 :: r2 =>
                if (c1 =? 93)%N then POk (JList [], r2)
                else parse_array n' [] (c1 :: r2)
            | [] => PErr
            end
          else if (c =? 110)%N then constant "null" JNull s PErr
          else if (c =? 116)%N then constant "true" (JBool true) s PErr
          else if (c =? 102)%N then constant "false" (JBool false) s PErr
          else if (c =? 78)%N then constant "NaN" (JFloat (lit "NaN")) s PErr
          else if (c =? 73)%N then
            constant "Infinity" (JFloat (lit "Infinity")) s PErr
          else if (c =? 45)%N then
            constant "-Infinity" (JFloat (lit "-Infinity")) s (number_or_fail s)
          else number_or_fail s
      end
  end

(** The pairs of an object; [s] starts just after the opening quote of a
    key. *)
with parse_object (n : nat) (acc : dict) (s : str) {struct n}
    : pres (value * str) :=
  match n with
  | O => PFuel
  | S n' =>
      pbind (scanstring s) (fun kr =>
        match skip_ws (snd kr) with
        | c :: r2 =>
            if negb (c =? 58)%N then PErr
            else
              pbind (scan_once n' (skip_ws r2)) (fun vr =>
                let acc' := dict_set (fst kr) (fst vr) acc in
                match skip_ws (snd vr) with
                | d :: r6 =>
                    if (d =? 125)%N then POk (JDict acc', r6)
                    else if (d =? 44)%N then
                      match skip_ws r6 with
                      | q :: r8 =>
                          if (q =? 34)%N then parse_object n' acc' r8 else PErr
                      | [] => PErr
                      end
                    else PErr
                | [] => PErr
                end)
        | [] => PErr
        end)
  end

(** The items of an array; [s] starts at the first character of an item. *)
with parse_array (n : nat) (acc : list value) (s : str) {struct n}
    : pres (value * str) :=
  match n with
  | O => PFuel
  | S n' =>
      pbind (scan_once n' s) (fun vr =>
        let acc' := acc ++ [fst vr] in
        match skip_ws (snd vr) with
        | d :: r6 =>
            if (d =? 93)%N then POk (JList acc', r6)
            else if (d =? 44)%N then parse_array n' acc' (skip_ws r6)
            else PErr
        | [] => PErr
        end)
  end.

(** A part of the decoder stays within its budget on [s] when it does not
    run out of it and, when it succeeds, has consumed some of [s]. *)
Definition within_budget (f : str -> pres (value * str)) (s : str) : Prop :=
  f s <> PFuel /\
  forall v r, f s = POk (v, r) -> (List.length r < List.length s)%nat.

Inductive loads_result :=
| Parsed (v : value)
| JSONDecodeError.

(** [json.loads(s)] for a [str].  The recursion of the scanner is bounded
    by twice the length of the text, a bound it never reaches.  Two limits of
    CPython are left out: [RecursionError] for a text nested deeper than the
    interpreter's stack allows, and [ValueError] for an integer of more than
    4300 digits. *)
Definition loads (s : str) : loads_result :=
  match s with
  | 65279%N :: _ => JSONDecodeError
  | _ =>
      match scan_once (S (2 * List.length s)) (skip_ws s) with
      | POk (v, r) =>
          match skip_ws r with
          | [] => Parsed v
          | _ :: _ => JSONDecodeError
          end
      | _ => JSONDecodeError
      end
  end.

End Json.

(* ===================================================================== *)
(** * Exceptions and the effect monad *)
(* ===================================================================== *)

Module Eff.

(** The subclasses of [OSError] that the socket and subprocess calls of the
    two programs can raise. *)
Inductive os_error :=
| ConnectionResetError
| ConnectionAbortedError
| BrokenPipeError
| FileNotFoundError
| PlainOSError.

(** Every class below derives from [Exception]. *)
Inductive exn :=
| OSError (k : os_error)
| UnicodeDecodeError
| UnicodeEncodeError
| JSONDecodeErr
| AttributeError
| IndexError
| ValueError
| CalledProcessError
| TimeoutExpired
| RuntimeError
| OtherException (tag : nat).

Definition is_OSError (e : exn) : bool :=
  match e with OSError _ => true | _ => false end.

Definition is_JSONDecodeError (e : exn) : bool :=
  match e with JSONDecodeErr => true | _ => false end.

(** What a statement does: it finishes with a value, raises, or (in the model
    only) exhausts the iteration budget of a [while] loop. *)
Inductive outcome (A : Type) :=
| Ret (a : A)
| Raise (e : exn)
| OutOfFuel.
Arguments Raise {A} e.
Arguments OutOfFuel {A}.

Definition M (S A : Type) := S -> outcome A * S.

Definition ret {S A} (a : A) : M S A := fun s => (Ret a, s).

Definition raise {S A} (e : exn) : M S A := fun s => (Raise e, s).

Definition bind {S A B} (m : M S A) (k : A -> M S B) : M S B :=
  fun s =>
    match m s with
    | (Ret a, s') => k a s'
    | (Raise e, s') => (Raise e, s')
    | (OutOfFuel, s') => (OutOfFuel, s')
    end.

(** [try: body  except <classes selected by handles> as e: handler e] *)
Definition try_except {S A} (body : M S A) (handles : exn -> bool)
    (handler : exn -> M S A) : M S A :=
  fun s =>
    match body s with
    | (Raise e, s') => if handles e then handler e s' else (Raise e, s')
    | r => r
    end.

Definition any_exception (_ : exn) : bool := true.

Definition get {S} : M S S := fun s => (Ret s, s).
Definition modify {S} (f : S -> S) : M S unit := fun s => (Ret tt, f s).

End Eff.

Declare Scope py_scope.
Delimit Scope py_scope with py.
Notation "x <- c ;; k" := (Eff.bind c (fun x => k))
  (at level 61, c at next level, right associativity) : py_scope.
Notation "c ;; k" := (Eff.bind c (fun _ => k))
  (at level 61, right associativity) : py_scope.

(* ===================================================================== *)
(** * The agent: [buddy_client.py] *)
(* ===================================================================== *)

Module Client.
Import Py Json Eff.
Local Open Scope py_scope.

Definition sock := nat.

(** The arguments of the calls that leave the process. *)
Inductive exec_call :=
| Run (argv : list value) (check : bool) (timeout : option N)
      (* subprocess.run(argv, check=..., timeout=...) *)
| RunShell (cmd : value)
      (* subprocess.run(cmd, shell=True, check=False) *)
| Popen (argv : list value)
      (* subprocess.Popen(argv, stdout=DEVNULL, stderr=DEVNULL) *)
| StartGui (message : value).
      (* threading.Thread(target=self._show_message_gui, ...).start() *)

(** The texts given to [log_message], by format string. *)
Inductive log_msg :=
| MsgDiscovering
| MsgScanning (network_base : str)
| MsgFound (ip : str)
| MsgDiscoveryError (e : exn)
| MsgNoServer
| MsgConnected (ip : str) (port : N)
| MsgConnectError (e : exn)
| MsgInvalidJSON
| MsgConnectionLost
| MsgReceiveError (e : exn)
| MsgReceived (action : value)
| MsgShuttingDown
| MsgRestarting
| MsgLocking
| MsgOpening (app : value)
| MsgClosingApps
| MsgShowingDesktop
| MsgScreenshot
| MsgDisplaying (message : value)
| MsgExecuting (cmd : value)
| MsgUnknown (action : value)
| MsgExecError (action : value) (e : exn)
| MsgStartingListener
| MsgReconnecting (delay : N).

Inductive event :=
| Log (m : log_msg)
| Deliver (command : value)               (* process_command(command) entered *)
| Exec (c : exec_call) (r : option exn)
| Hostname (r : exn + str)
| Probe (ip : str) (port : N) (timeout : Q) (r : exn + Z)
| CloseProbe (ip : str)
| Socket (r : exn + sock)
| Connect (s : sock) (ip : str) (port : N) (r : option exn)
| Close (s : sock)
| Sleep (seconds : N).

(** The messages handed to [process_command], in order. *)
Fixpoint delivered (tr : list event) : list value :=
  match tr with
  | [] => []
  | Deliver v :: r => v :: delivered r
  | _ :: r => delivered r
  end.

Section Agent.

(** The world outside the agent and what each call does to it. *)
Variable W : Type.
Variable sys_exec : exec_call -> W -> W * option exn.
Variable sys_timestamp : W -> str.
Variable sys_hostname : W -> W * (exn + str).
Variable sys_probe : str -> N -> Q -> W -> W * (exn + Z).
Variable sys_socket : W -> W * (exn + sock).
Variable sys_connect : sock -> str -> N -> W -> W * option exn.

(** The fields of a [BuddyClient], the world, and the events so far (most
    recent last). *)
Record client := mkClient {
  server_ip : option str;
  server_port : N;
  client_socket : option sock;
  running : bool;
  reconnect_delay : N;
  world : W;
  trace : list event
}.

(** [BuddyClient(server_ip)] *)
Definition init (ip : option str) (w : W) : client :=
  mkClient ip 9999 None false 5 w [].

Definition set_world (w : W) (c : client) : client :=
  mkClient (server_ip c) (server_port c) (client_socket c) (running c)
           (reconnect_delay c) w (trace c).
Definition emit (e : event) (c : client) : client :=
  mkClient (server_ip c) (server_port c) (client_socket c) (running c)
           (reconnect_delay c) (world c) (trace c ++ [e]).
Definition set_server_ip (ip : option str) (c : client) : client :=
  mkClient ip (server_port c) (client_socket c) (running c)
           (reconnect_delay c) (world c) (trace c).
Definition set_client_socket (s : option sock) (c : client) : client :=
  mkClient (server_ip c) (server_port c) s (running c)
           (reconnect_delay c) (world c) (trace c).
Definition set_running (b : bool) (c : client) : client :=
  mkClient (server_ip c) (server_port c) (client_socket c) b
           (reconnect_delay c) (world c) (trace c).

Definition Act := M client.

(** [log_message] as an entry of the trace.  The [print] in it is taken to
    go through; what happens when it does not is followed in [Printing]. *)
Definition log_message (m : log_msg) : Act unit := modify (emit (Log m)).

Definition note (e : event) : Act unit := modify (emit e).

(** One call of the executor: the world moves, the call is recorded, and the
    exception it raised, if any, is raised here. *)
Definition exec (c : exec_call) : Act unit :=
  fun st =>
    let (w', r) := sys_exec c (world st) in
    let st' := emit (Exec c r) (set_world w' st) in
    match r with
    | None => (Ret tt, st')
    | Some e => (Raise e, st')
    end.

Definition argv (words : list string) : list value :=
  map (fun w => JStr (lit w)) words.

(** [command.get(key, default)]; a value that is not a [dict] has no [get]. *)
Definition get_field (command : value) (key : string) (default : value)
    : Act value :=
  match command with
  | JDict d =>
      ret (match dict_get (lit key) d with Some v => v | None => default end)
  | _ => raise AttributeError
  end.

(** [action == 'name'] *)
Definition is_action (action : value) (name : string) : bool :=
  match action with
  | JStr s => str_eqb s (lit name)
  | _ => false
  end.

(** A digit string that has only zeros.  A float literal is false when its
    mantissa is zero; underflow of a non-zero literal is left out. *)
Definition float_is_zero (t : str) : bool :=
  forallb (fun c => negb (is_digit c) || (c =? 48)%N)
          (match split_once 101%N t with
           | Some (m, _) => m
           | None => match split_once 69%N t with Some (m, _) => m | None => t end
           end)
  && negb (str_eqb t (lit "NaN")) && negb (str_eqb t (lit "Infinity"))
  && negb (str_eqb t (lit "-Infinity")).

(** [bool(v)] *)
Definition truthy (v : value) : bool :=
  match v with
  | JNull => false
  | JBool b => b
  | JInt z => negb (Z.eqb z 0)
  | JFloat t => negb (float_is_zero t)
  | JStr s => match s with [] => false | _ => true end
  | JList l => match l with [] => false | _ => true end
  | JDict d => match d with [] => false | _ => true end
  end.

Definition lock_commands : list (list value) :=
  [argv ["gnome-screensaver-command"; "--lock"];
   argv ["xdg-screensaver"; "lock"];
   argv ["loginctl"; "lock-session"];
   argv ["dm-tool"; "lock"]]%string.

Definition lock_failure (e : exn) : bool :=
  match e with
  | CalledProcessError | TimeoutExpired | OSError FileNotFoundError => true
  | _ => false
  end.

(** [for cmd in lock_commands: try: run(cmd); break  except (...): continue] *)
Fixpoint lock_loop (cmds : list (list value)) : Act unit :=
  match cmds with
  | [] => ret tt
  | cmd :: rest =>
      locked <- try_except (exec (Run cmd true (Some 5%N)) ;; ret true)
                           lock_failure (fun _ => ret false) ;;
      if locked then ret tt else lock_loop rest
  end.

Definition apps_to_close : list string :=
  ["firefox"; "chromium"; "libreoffice"; "gedit"; "nautilus"]%string.

Fixpoint close_loop (apps : list string) : Act unit :=
  match apps with
  | [] => ret tt
  | app :: rest =>
      exec (Run (argv ["pkill"; "-f"; app]%string) false None) ;;
      close_loop rest
  end.

(** [show_message] *)
Definition show_message (message : value) : Act unit :=
  log_message (MsgDisplaying message) ;;
  exec (StartGui message) ;;
  try_except
    (exec (Run [JStr (lit "notify-send"); JStr (lit "Buddy System"); message]
               false None))
    any_exception (fun _ => ret tt).

(** The [if]/[elif] chain inside the [try] of [process_command]. *)
Definition dispatch (command action : value) : Act unit :=
  if is_action action "ping" then ret tt
  else if is_action action "shutdown" then
    log_message MsgShuttingDown ;;
    exec (Run (argv ["sudo"; "shutdown"; "-h"; "now"]%string) false None)
  else if is_action action "restart" then
    log_message MsgRestarting ;;
    exec (Run (argv ["sudo"; "reboot"]%string) false None)
  else if is_action action "lock" then
    log_message MsgLocking ;;
    lock_loop lock_commands
  else if is_action action "open_app" then
    app <- get_field command "app" (JStr []) ;;
    log_message (MsgOpening app) ;;
    exec (Popen [app])
  else if is_action action "close_apps" then
    log_message MsgClosingApps ;;
    try_except (close_loop apps_to_close) any_exception (fun _ => ret tt)
  else if is_action action "show_desktop" then
    log_message MsgShowingDesktop ;;
    try_except
      (exec (Run (argv ["wmctrl"; "-k"; "on"]%string) false None))
      any_exception
      (fun _ => exec (Run (argv ["xdotool"; "key"; "Super+d"]%string) false None))
  else if is_action action "screenshot" then
    log_message MsgScreenshot ;;
    st <- get ;;
    exec (Run [JStr (lit "gnome-screenshot"); JStr (lit "-f");
               JStr (lit "/tmp/buddy_screenshot_" ++ sys_timestamp (world st)
                     ++ lit ".png")] false None)
  else if is_action action "message" then
    content <- get_field command "content"
                 (JStr (lit "Message from administrator")) ;;
    show_message content
  else if is_action action "execute_command" then
    cmd <- get_field command "command" (JStr []) ;;
    if truthy cmd then
      log_message (MsgExecuting cmd) ;;
      exec (RunShell cmd)
    else ret tt
  else
    log_message (MsgUnknown action).

(** The actions that have a branch in [dispatch]. *)
Definition recognized_actions : list string :=
  ["ping"; "shutdown"; "restart"; "lock"; "open_app"; "close_apps";
   "show_desktop"; "screenshot"; "message"; "execute_command"]%string.

Definition recognized (action : value) : bool :=
  existsb (is_action action) recognized_actions.

(** [command.get('action', '')] for a dictionary. *)
Definition action_of (d : dict) : value :=
  match dict_get (lit "action") d with Some v => v | None => JStr [] end.

(** [process_command] *)
Definition process_command (command : value) : Act unit :=
  note (Deliver command) ;;
  action <- get_field command "action" (JStr []) ;;
  log_message (MsgReceived action) ;;
  try_except (dispatch command action) any_exception
             (fun e => log_message (MsgExecError action e)).

(** [json.loads(text)] as a statement. *)
Definition json_loads (text : str) : Act value :=
  match loads text with
  | Parsed v => ret v
  | JSONDecodeError => raise JSONDecodeErr
  end.

(** One line taken off the buffer. *)
Definition handle_line (line : str) : Act unit :=
  match strip line with
  | [] => ret tt
  | _ :: _ =>
      try_except
        (command <- json_loads (strip line) ;; process_command command)
        is_JSONDecodeError
        (fun _ => log_message MsgInvalidJSON)
  end.

(** [while '\n' in buffer: line, buffer = buffer.split('\n', 1); ...]
    The result is the buffer left when the loop ends. *)
Fixpoint drain (fuel : nat) (buffer : str) : Act str :=
  if contains NL buffer then
    match fuel with
    | O => fun st => (OutOfFuel, st)
    | S fuel' =>
        match split_once NL buffer with
        | Some (line, rest) => handle_line line ;; drain fuel' rest
        | None => raise ValueError
        end
    end
  else ret buffer.

(** What one [recv(1024)] returns: at most 1024 bytes, none at the end of
    the stream, or an [OSError]. *)
Definition recv_result := (os_error + bytes)%type.

Inductive loop_ctl :=
| Continue (buffer : str)
| Break.

(** [data = self.client_socket.recv(1024).decode()] *)
Definition recv_decode (r : recv_result) : Act str :=
  match r with
  | inl k => raise (OSError k)
  | inr bs =>
      match decode bs with
      | Some data => ret data
      | None => raise UnicodeDecodeError
      end
  end.

(** The body of the [while self.running] loop of [listen_for_commands], with
    its two [except] clauses. *)
Definition listen_body (r : recv_result) (buffer : str) : Act loop_ctl :=
  try_except
    (data <- recv_decode r ;;
     match data with
     | [] => ret Break
     | _ :: _ =>
         let buffer := buffer ++ data in
         rest <- drain (List.length buffer) buffer ;;
         ret (Continue rest)
     end)
    any_exception
    (fun e =>
       if is_OSError e then log_message MsgConnectionLost ;; ret Break
       else log_message (MsgReceiveError e) ;; ret Break).

(** The loop itself.  [recvs] are the results of the successive [recv]
    calls on the connection; once they are used up the stream is at its
    end and [recv] returns no bytes. *)
Fixpoint listen_loop (recvs : list recv_result) (buffer : str) : Act unit :=
  st <- get ;;
  if running st then
    match recvs with
    | [] => ctl <- listen_body (inr []) buffer ;; ret tt
    | r :: recvs' =>
        ctl <- listen_body r buffer ;;
        match ctl with
        | Continue buffer' => listen_loop recvs' buffer'
        | Break => ret tt
        end
    end
  else ret tt.

(** [listen_for_commands] *)
Definition listen_for_commands (recvs : list recv_result) : Act unit :=
  listen_loop recvs [].

(** ** The decoder in the specification's words

    Every complete segment of the buffer, in the order found, and the
    remainder that stays buffered. *)
Fixpoint spec_segments (s : str) : list str * str :=
  match s with
  | [] => ([], [])
  | c :: r =>
      let (ls, rem) := spec_segments r in
      if N.eqb c NL then ([] :: ls, rem)
      else match ls with
           | [] => ([], c :: rem)
           | l :: ls' => ((c :: l) :: ls', rem)
           end
  end.

(** The segments handed to the interpreter one after the other. *)
Fixpoint handle_all (lines : list str) : Act unit :=
  match lines with
  | [] => ret tt
  | l :: rest => handle_line l ;; handle_all rest
  end.

Definition spec_drain (buffer : str) : Act str :=
  handle_all (fst (spec_segments buffer)) ;; ret (snd (spec_segments buffer)).

(** What a session does with the text [t] that arrives while [b] is
    buffered, however it arrives: the segments are handled in order, and an
    exception from the interpreter ends the session with a log entry. *)
Definition spec_session (b t : str) (st : client) : outcome unit * client :=
  match handle_all (fst (spec_segments (b ++ t))) st with
  | (Ret _, s) => (Ret tt, s)
  | (Raise e, s) =>
      (Ret tt,
       emit (Log (if is_OSError e then MsgConnectionLost
                  else MsgReceiveError e)) s)
  | (OutOfFuel, s) => (OutOfFuel, s)
  end.

(** ** Statements that leave the object alone

    A statement is tame when it stays within the iteration budget and
    leaves the fields of the client object alone: it only moves the world
    and adds events. *)
Definition same_fields (a b : client) : Prop :=
  server_ip b = server_ip a /\
  server_port b = server_port a /\
  client_socket b = client_socket a /\
  running b = running a /\
  reconnect_delay b = reconnect_delay a.

Definition tame {A} (m : Act A) : Prop :=
  forall st, fst (m st) <> OutOfFuel /\ same_fields st (snd (m st)).

(** A statement keeps the delay when it leaves [reconnect_delay] as it
    was; every statement of the agent does. *)
Definition keeps_delay {A} (m : Act A) : Prop :=
  forall st, reconnect_delay (snd (m st)) = reconnect_delay st.

(** ** Discovery *)

(** [subprocess.run(['hostname', '-I'], capture_output=True, text=True)]
    and its [stdout]. *)
Definition hostname : Act str :=
  fun st =>
    let (w', r) := sys_hostname (world st) in
    let st' := emit (Hostname r) (set_world w' st) in
    match r with
    | inl e => (Raise e, st')
    | inr out => (Ret out, st')
    end.

Definition probe_timeout : Q := 1 # 10.

(** A fresh socket, [settimeout(0.1)] and [connect_ex((ip, port))]. *)
Definition probe (ip : str) (port : N) : Act Z :=
  fun st =>
    let (w', r) := sys_probe ip port probe_timeout (world st) in
    let st' := emit (Probe ip port probe_timeout r) (set_world w' st) in
    match r with
    | inl e => (Raise e, st')
    | inr code => (Ret code, st')
    end.

(** The body of [for i in range(1, 255)]: [Some ip] when the function
    returns [ip] from inside the loop, [None] when the loop goes on. *)
Definition probe_host (network_base : str) (port : N) (i : N)
    : Act (option str) :=
  try_except
    (let test_ip := network_base ++ str_of_N i in
     result <- probe test_ip port ;;
     if Z.eqb result 0 then
       log_message (MsgFound test_ip) ;;
       note (CloseProbe test_ip) ;;
       ret (Some test_ip)
     else
       note (CloseProbe test_ip) ;;
       ret None)
    any_exception
    (fun _ => ret None).

Fixpoint scan (network_base : str) (port : N) (hosts : list N)
    : Act (option str) :=
  match hosts with
  | [] => ret None
  | i :: rest =>
      found <- probe_host network_base port i ;;
      match found with
      | Some ip => ret (Some ip)
      | None => scan network_base port rest
      end
  end.

(** [range(1, 255)] *)
Definition host_range : list N := map N.of_nat (seq 1 254).

(** ['.'.join(local_ip.split('.')[:-1]) + '.'] *)
Definition network_base_of (local_ip : str) : str :=
  join (lit ".") (drop_last (split_on 46%N local_ip)) ++ lit ".".

(** [discover_server] *)
Definition discover_server : Act (option str) :=
  log_message MsgDiscovering ;;
  try_except
    (out <- hostname ;;
     match split_ws (strip out) with
     | [] => raise IndexError
     | local_ip :: _ =>
         let network_base := network_base_of local_ip in
         log_message (MsgScanning network_base) ;;
         st <- get ;;
         scan network_base (server_port st) host_range
     end)
    any_exception
    (fun e => log_message (MsgDiscoveryError e) ;; ret None).

(** The scan in the specification's words: the hosts are probed in order;
    the first that accepts is the result. *)
Definition accepted (r : exn + Z) : bool :=
  match r with
  | inr code => Z.eqb code 0
  | inl _ => false
  end.

Fixpoint found (network_base : str) (visits : list (N * (exn + Z)))
    : option str :=
  match visits with
  | [] => None
  | (i, r) :: rest =>
      if accepted r then Some (network_base ++ str_of_N i)
      else found network_base rest
  end.

Definition visit_events (network_base : str) (port : N)
    (visit : N * (exn + Z)) : list event :=
  let ip := network_base ++ str_of_N (fst visit) in
  Probe ip port probe_timeout (snd visit) ::
  match snd visit with
  | inl _ => []
  | inr code =>
      if Z.eqb code 0 then [Log (MsgFound ip); CloseProbe ip]
      else [CloseProbe ip]
  end.

Definition scan_events (network_base : str) (port : N)
    (visits : list (N * (exn + Z))) : list event :=
  flat_map (visit_events network_base port) visits.

(** The state with a new world and more events. *)
Definition advance (w : W) (events : list event) (c : client) : client :=
  mkClient (server_ip c) (server_port c) (client_socket c) (running c)
           (reconnect_delay c) w (trace c ++ events).

(** ** Connecting *)

(** [not self.server_ip] *)
Definition no_server_ip (ip : option str) : bool :=
  match ip with
  | None => true
  | Some [] => true
  | Some (_ :: _) => false
  end.

Definition new_socket : Act sock :=
  fun st =>
    let (w', r) := sys_socket (world st) in
    let st' := emit (Socket r) (set_world w' st) in
    match r with
    | inl e => (Raise e, st')
    | inr s => (Ret s, st')
    end.

Definition connect (s : sock) (ip : str) (port : N) : Act unit :=
  fun st =>
    let (w', r) := sys_connect s ip port (world st) in
    let st' := emit (Connect s ip port r) (set_world w' st) in
    match r with
    | Some e => (Raise e, st')
    | None => (Ret tt, st')
    end.

(** [connect_to_server] *)
Definition connect_to_server : Act bool :=
  st <- get ;;
  (if no_server_ip (server_ip st) then
     ip <- discover_server ;; modify (set_server_ip ip)
   else ret tt) ;;
  st <- get ;;
  match server_ip st with
  | Some (c :: ip') =>
      let ip := c :: ip' in
      try_except
        (s <- new_socket ;;
         modify (set_client_socket (Some s)) ;;
         connect s ip (server_port st) ;;
         log_message (MsgConnected ip (server_port st)) ;;
         ret true)
        any_exception
        (fun e => log_message (MsgConnectError e) ;; ret false)
  | _ =>
      log_message MsgNoServer ;;
      ret false
  end.

(** ** The main loop

    [run] is followed statement by statement, because [stop] is called from
    another thread and can take effect between any two of them. *)

Inductive pc :=
| AtStart          (* before [self.running = True] *)
| AtLoopTest       (* [while self.running:] *)
| AtConnect        (* [if self.connect_to_server():] *)
| AtListen         (* log, then [self.listen_for_commands()] *)
| AtClose          (* [if self.client_socket: close; client_socket = None] *)
| AtBackoff        (* [if self.running: log; time.sleep(self.reconnect_delay)] *)
| Returned         (* [run] has returned *)
| Failed (e : exn) (* [run] was left by an exception *)
| Diverged.        (* the model ran out of budget *)

Record agent := mkAgent { self : client; at_pc : pc }.

(** Where control goes after a call: on, or out with the exception. *)
Definition after {A} (r : outcome A * client) (next : A -> pc) : agent :=
  match r with
  | (Ret a, st) => mkAgent st (next a)
  | (Raise e, st) => mkAgent st (Failed e)
  | (OutOfFuel, st) => mkAgent st Diverged
  end.

(** One statement of [run].  [recvs] is what the connection delivers if the
    statement is the call of [listen_for_commands]. *)
Definition run_step (recvs : list recv_result) (a : agent) : option agent :=
  let st := self a in
  match at_pc a with
  | AtStart => Some (mkAgent (set_running true st) AtLoopTest)
  | AtLoopTest =>
      Some (mkAgent st (if running st then AtConnect else Returned))
  | AtConnect =>
      Some (after (connect_to_server st)
                  (fun ok : bool => if ok then AtListen else AtClose))
  | AtListen =>
      Some (after ((log_message MsgStartingListener ;;
                    listen_for_commands recvs) st)
                  (fun _ => AtClose))
  | AtClose =>
      Some (mkAgent
              (match client_socket st with
               | Some s => set_client_socket None (emit (Close s) st)
               | None => st
               end)
              AtBackoff)
  | AtBackoff =>
      Some (if running st then
              after ((log_message (MsgReconnecting (reconnect_delay st)) ;;
                      note (Sleep (reconnect_delay st))) st)
                    (fun _ => AtLoopTest)
            else mkAgent st AtLoopTest)
  | Returned => None
  | Failed _ => None
  | Diverged => None
  end.

(** [stop], called from another thread. *)
Definition stop (st : client) : client :=
  let st := set_running false st in
  match client_socket st with
  | Some s => emit (Close s) st
  | None => st
  end.

(** The moves of the agent process: a statement of [run], or a call of
    [stop] that leaves [run] where it is. *)
Inductive move : agent -> agent -> Prop :=
| move_run recvs a a' : run_step recvs a = Some a' -> move a a'
| move_stop a : move a (mkAgent (stop (self a)) (at_pc a)).

Inductive moves : agent -> agent -> Prop :=
| moves_refl a : moves a a
| moves_step a b c : move a b -> moves b c -> moves a c.

(** The agent has been told to stop and is past its session: [run] is at
    one of the statements between the end of a session and its return. *)
Definition halting (a : agent) : Prop :=
  running (self a) = false /\
  match at_pc a with
  | AtClose | AtBackoff | AtLoopTest | Returned => True
  | _ => False
  end.

End Agent.

(** The events of a trace that belong to an attempt to reach a controller:
    looking up the own address, a probe, a new socket, a connect. *)
Fixpoint attempts (tr : list event) : list event :=
  match tr with
  | [] => []
  | Hostname r :: rest => Hostname r :: attempts rest
  | Probe ip port t r :: rest => Probe ip port t r :: attempts rest
  | Socket r :: rest => Socket r :: attempts rest
  | Connect s ip port r :: rest => Connect s ip port r :: attempts rest
  | _ :: rest => attempts rest
  end.

End Client.

(* ===================================================================== *)
(** * The agent's log on its standard output *)
(* ===================================================================== *)

(** [log_message] writes its text with [print].  The standard output
    encodes what it is given, in UTF-8 on the agents' systems, and a text
    with a code point that UTF-8 does not have makes [print] raise
    [UnicodeEncodeError]: a lone surrogate is such a code point, and
    [json.loads] lets it through.  Here the interpreter and the read loop are
    followed again with that in view, for the log entries whose text comes
    out of the message. *)

Module Printing.
Import Py Json Eff.
Local Open Scope py_scope.

(** [f"{v}"] can be written to the standard output.  The text of a string
    is the string itself; the text of any other value is its [repr], in
    which a code point that cannot be printed is written as an escape. *)
Definition shows (v : value) : bool :=
  match v with
  | JStr s => match encode s with Some _ => true | None => false end
  | _ => true
  end.

Section Interpreter.

Variable W : Type.
Variable sys_exec : Client.exec_call -> W -> W * option exn.
Variable sys_timestamp : W -> str.

(** [self.log_message(text)] for a text with [f"{shown}"] in it. *)
Definition log_message (m : Client.log_msg) (shown : value)
    : Client.Act W unit :=
  if shows shown then Client.log_message m else raise UnicodeEncodeError.

(** [show_message] *)
Definition show_message (message : value) : Client.Act W unit :=
  log_message (Client.MsgDisplaying message) message ;;
  Client.exec sys_exec (Client.StartGui message) ;;
  try_except
    (Client.exec sys_exec
       (Client.Run [JStr (lit "notify-send"); JStr (lit "Buddy System"); message]
                   false None))
    any_exception (fun _ => ret tt).

(** The [if]/[elif] chain inside the [try] of [process_command]. *)
Definition dispatch (command action : value) : Client.Act W unit :=
  if Client.is_action action "ping" then ret tt
  else if Client.is_action action "shutdown" then
    Client.log_message Client.MsgShuttingDown ;;
    Client.exec sys_exec
      (Client.Run (Client.argv ["sudo"; "shutdown"; "-h"; "now"]%string) false None)
  else if Client.is_action action "restart" then
    Client.log_message Client.MsgRestarting ;;
    Client.exec sys_exec
      (Client.Run (Client.argv ["sudo"; "reboot"]%string) false None)
  else if Client.is_action action "lock" then
    Client.log_message Client.MsgLocking ;;
    Client.lock_loop sys_exec Client.lock_commands
  else if Client.is_action action "open_app" then
    app <- Client.get_field command "app" (JStr []) ;;
    log_message (Client.MsgOpening app) app ;;
    Client.exec sys_exec (Client.Popen [app])
  else if Client.is_action action "close_apps" then
    Client.log_message Client.MsgClosingApps ;;
    try_except (Client.close_loop sys_exec Client.apps_to_close)
               any_exception (fun _ => ret tt)
  else if Client.is_action action "show_desktop" then
    Client.log_message Client.MsgShowingDesktop ;;
    try_except
      (Client.exec sys_exec
         (Client.Run (Client.argv ["wmctrl"; "-k"; "on"]%string) false None))
      any_exception
      (fun _ =>
         Client.exec sys_exec
           (Client.Run (Client.argv ["xdotool"; "key"; "Super+d"]%string)
                       false None))
  else if Client.is_action action "screenshot" then
    Client.log_message Client.MsgScreenshot ;;
    st <- get ;;
    Client.exec sys_exec
      (Client.Run [JStr (lit "gnome-screenshot"); JStr (lit "-f");
                   JStr (lit "/tmp/buddy_screenshot_"
                         ++ sys_timestamp (Client.world st) ++ lit ".png")]
                  false None)
  else if Client.is_action action "message" then
    content <- Client.get_field command "content"
                 (JStr (lit "Message from administrator")) ;;
    show_message content
  else if Client.is_action action "execute_command" then
    cmd <- Client.get_field command "command" (JStr []) ;;
    if Client.truthy cmd then
      log_message (Client.MsgExecuting cmd) cmd ;;
      Client.exec sys_exec (Client.RunShell cmd)
    else ret tt
  else
    log_message (Client.MsgUnknown action) action.

(** [process_command]: the action is logged before the [try]. *)
Definition process_command (command : value) : Client.Act W unit :=
  Client.note (Client.Deliver command) ;;
  action <- Client.get_field command "action" (JStr []) ;;
  log_message (Client.MsgReceived action) action ;;
  try_except (dispatch command action) any_exception
             (fun e => log_message (Client.MsgExecError action e) action).

End Interpreter.

(** The read loop of [listen_for_commands] around an interpreter. *)
Section Loop.

Variable W : Type.
Variable interpret : value -> Client.Act W unit.

Definition json_loads (text : str) : Client.Act W value :=
  match loads text with
  | Parsed v => ret v
  | JSONDecodeError => raise JSONDecodeErr
  end.

Definition handle_line (line : str) : Client.Act W unit :=
  match strip line with
  | [] => ret tt
  | _ :: _ =>
      try_except
        (command <- json_loads (strip line) ;; interpret command)
        is_JSONDecodeError
        (fun _ => Client.log_message Client.MsgInvalidJSON)
  end.

Fixpoint drain (fuel : nat) (buffer : str) : Client.Act W str :=
  if contains NL buffer then
    match fuel with
    | O => fun st => (OutOfFuel, st)
    | S fuel' =>
        match split_once NL buffer with
        | Some (line, rest) => handle_line line ;; drain fuel' rest
        | None => raise ValueError
        end
    end
  else ret buffer.

Definition recv_decode (r : Client.recv_result) : Client.Act W str :=
  match r with
  | inl k => raise (OSError k)
  | inr bs =>
      match decode bs with
      | Some data => ret data
      | None => raise UnicodeDecodeError
      end
  end.

Definition listen_body (r : Client.recv_result) (buffer : str)
    : Client.Act W Client.loop_ctl :=
  try_except
    (data <- recv_decode r ;;
     match data with
     | [] => ret Client.Break
     | _ :: _ =>
         let buffer := buffer ++ data in
         rest <- drain (List.length buffer) buffer ;;
         ret (Client.Continue rest)
     end)
    any_exception
    (fun e =>
       if is_OSError e
       then Client.log_message Client.MsgConnectionLost ;; ret Client.Break
       else Client.log_message (Client.MsgReceiveError e) ;; ret Client.Break).

Fixpoint listen_loop (recvs : list Client.recv_result) (buffer : str)
    : Client.Act W unit :=
  st <- get ;;
  if Client.running st then
    match recvs with
    | [] => ctl <- listen_body (inr []) buffer ;; ret tt
    | r :: recvs' =>
        ctl <- listen_body r buffer ;;
        match ctl with
        | Client.Continue buffer' => listen_loop recvs' buffer'
        | Client.Break => ret tt
        end
    end
  else ret tt.

Definition listen_for_commands (recvs : list Client.recv_result)
    : Client.Act W unit :=
  listen_loop recvs [].

End Loop.

(** The messages whose log entries can all be printed: the fields that the
    interpreter puts into a log entry are absent or hold a text that the
    standard output can encode. *)
Definition plain (d : dict) : Prop :=
  forall key v,
    In key ["action"; "app"; "content"; "command"]%string ->
    dict_get (lit key) d = Some v -> shows v = true.

End Printing.

(* ===================================================================== *)
(** * The controller: [buddy_server.py] *)
(* ===================================================================== *)

Module Server.
Import Py Json Eff.
Local Open Scope py_scope.

Definition sock := nat.

(** The peer address that [accept] returns: host and port. *)
Definition address := (str * N)%type.

Definition address_eqb (a b : address) : bool :=
  str_eqb (fst a) (fst b) && N.eqb (snd a) (snd b).

(** [self.clients], a [dict] from address to socket. *)
Definition registry := list (address * sock).

(** [address in clients] *)
Fixpoint reg_mem (a : address) (r : registry) : bool :=
  match r with
  | [] => false
  | (a', _) :: rest => if address_eqb a' a then true else reg_mem a rest
  end.

(** [clients[address] = s] *)
Fixpoint reg_set (a : address) (s : sock) (r : registry) : registry :=
  match r with
  | [] => [(a, s)]
  | (a', s') :: rest =>
      if address_eqb a' a then (a', s) :: rest else (a', s') :: reg_set a s rest
  end.

(** [del clients[address]], used only after a membership test. *)
Fixpoint reg_del (a : address) (r : registry) : registry :=
  match r with
  | [] => []
  | (a', s') :: rest =>
      if address_eqb a' a then rest else (a', s') :: reg_del a rest
  end.

(** The dictionary after the addresses of [dis] are deleted one by one. *)
Definition delete_all (dis : list address) (r : registry) : registry :=
  fold_left (fun r a => reg_del a r) dis r.

(** The commands the controller builds are dictionaries from strings to
    strings: the entries of [command_mappings], the quick buttons, and
    [{'action': 'message', 'content': message}]. *)
Definition command := list (str * str).

Definition to_value (c : command) : value :=
  JDict (map (fun kv => (fst kv, JStr (snd kv))) c).

(** The dictionary after the pairs of [c] are stored into [acc] one by
    one, as the decoder fills the dictionary it returns. *)
Definition store (acc : dict) (c : command) : dict :=
  fold_left (fun a kv => dict_set (fst kv) (JStr (snd kv)) a) c acc.

Definition ping : command := [(lit "action", lit "ping")].

(** The text [json.dumps] gives for a command, written out. *)
Definition item_text (kv : str * str) : str :=
  dumps_str (fst kv) ++ lit ": " ++ dumps_str (snd kv).

Fixpoint items_text (c : command) : str :=
  match c with
  | [] => []
  | [kv] => item_text kv
  | kv :: r => item_text kv ++ lit ", " ++ items_text r
  end.

Definition command_text (c : command) : str :=
  lit "{" ++ items_text c ++ lit "}".

(** A command whose keys are distinct, as in any [dict], and whose keys and
    values are text. *)
Definition well_formed (c : command) : Prop :=
  NoDup (map fst c) /\
  Forall (fun kv => is_text (fst kv) /\ is_text (snd kv)) c.

Inductive log_msg :=
| MsgNoClients
| MsgSent (host : str) (c : command)
| MsgRemoved (host : str)
| MsgConnected (a : address)
| MsgDisconnected (a : address)
| MsgStopped.

Inductive event :=
| Log (m : log_msg)
| Serialize (c : command)                       (* json.dumps(c) *)
| Send (s : sock) (data : bytes) (r : option os_error)
| Sleep (seconds : N)
| CloseSock (s : sock)
| ListboxInsert (a : address)
| ListboxRefresh                                 (* root.after(0, update_clients_listbox) *)
| SpawnHandler (s : sock) (a : address).

(** The writes recorded in a trace, in order. *)
Fixpoint sends (tr : list event) : list (sock * bytes * option os_error) :=
  match tr with
  | [] => []
  | Send s data r :: rest => (s, data, r) :: sends rest
  | _ :: rest => sends rest
  end.

(** The calls of [json.dumps] recorded in a trace, in order. *)
Fixpoint serializations (tr : list event) : list command :=
  match tr with
  | [] => []
  | Serialize c :: rest => c :: serializations rest
  | _ :: rest => serializations rest
  end.

(** Given the result of the write to each entry: the addresses whose write
    failed, the entries whose write went through, and the events of the
    fan-out loop. *)
Fixpoint failed (entries : registry) (results : list (option os_error))
    : list address :=
  match entries, results with
  | (a, _) :: es, Some _ :: rs => a :: failed es rs
  | _ :: es, None :: rs => failed es rs
  | _, _ => []
  end.

Fixpoint survivors (entries : registry) (results : list (option os_error))
    : registry :=
  match entries, results with
  | _ :: es, Some _ :: rs => survivors es rs
  | e :: es, None :: rs => e :: survivors es rs
  | _, _ => []
  end.

Fixpoint fan_events (c : command) (data : bytes) (entries : registry)
    (results : list (option os_error)) : list event :=
  match entries, results with
  | (a, s) :: es, Some k :: rs =>
      Send s data (Some k) :: fan_events c data es rs
  | (a, s) :: es, None :: rs =>
      Send s data None :: Log (MsgSent (fst a) c) :: fan_events c data es rs
  | _, _ => []
  end.

(** The writes of a fan-out: one for each entry, in the order of the
    dictionary. *)
Fixpoint fan_sends (data : bytes) (entries : registry)
    (results : list (option os_error))
    : list (sock * bytes * option os_error) :=
  match entries, results with
  | (_, s) :: es, r :: rs => (s, data, r) :: fan_sends data es rs
  | _, _ => []
  end.

(** The bytes of [text.encode() + b'\n'], when [text] can be encoded. *)
Definition line_bytes (text : str) : option bytes :=
  match encode text with
  | Some bs => Some (bs ++ [byte_of NL])
  | None => None
  end.

Section Controller.

Variable W : Type.
(** [s.send(data)]: it goes through or raises an [OSError]. *)
Variable sys_send : sock -> bytes -> W -> W * option os_error.

Record server := mkServer {
  clients : registry;
  running : bool;
  world : W;
  trace : list event
}.

Definition set_world (w : W) (sv : server) : server :=
  mkServer (clients sv) (running sv) w (trace sv).
Definition emit (e : event) (sv : server) : server :=
  mkServer (clients sv) (running sv) (world sv) (trace sv ++ [e]).
Definition set_clients (r : registry) (sv : server) : server :=
  mkServer r (running sv) (world sv) (trace sv).
Definition set_running (b : bool) (sv : server) : server :=
  mkServer (clients sv) b (world sv) (trace sv).

Definition Act := M server.

Definition log_message (m : log_msg) : Act unit := modify (emit (Log m)).
Definition note (e : event) : Act unit := modify (emit e).

(** [json.dumps(c)] *)
Definition json_dumps (c : command) : Act str :=
  note (Serialize c) ;; ret (dumps (to_value c)).

(** [text.encode() + b'\n'] *)
Definition encode_line (text : str) : Act bytes :=
  match line_bytes text with
  | Some data => ret data
  | None => raise UnicodeEncodeError
  end.

Definition send (s : sock) (data : bytes) : Act unit :=
  fun sv =>
    let (w', r) := sys_send s data (world sv) in
    let sv' := emit (Send s data r) (set_world w' sv) in
    match r with
    | None => (Ret tt, sv')
    | Some k => (Raise (OSError k), sv')
    end.

(** [if address in self.clients: del self.clients[address]] *)
Definition forget (a : address) : Act bool :=
  sv <- get ;;
  if reg_mem a (clients sv) then
    modify (set_clients (reg_del a (clients sv))) ;; ret true
  else ret false.

(** The body of the [for address, client_socket in self.clients.items()]
    loop of [send_command]: the [try] statement for one entry.  The result
    is the list of disconnected clients after it. *)
Definition fan_body (c : command) (command_str : str) (a : address) (s : sock)
    (disconnected : list address) : Act (list address) :=
  try_except
    (data <- encode_line command_str ;;
     send s data ;;
     log_message (MsgSent (fst a) c) ;;
     ret disconnected)
    is_OSError
    (fun _ => ret (disconnected ++ [a])).

(** The loop, over the entries of the dictionary.  Nothing in the loop
    changes the dictionary, so run on its own it visits the entries the
    dictionary had when the loop began. *)
Fixpoint fan_out (c : command) (command_str : str) (entries : registry)
    (disconnected : list address) : Act (list address) :=
  match entries with
  | [] => ret disconnected
  | (a, s) :: rest =>
      disconnected' <- fan_body c command_str a s disconnected ;;
      fan_out c command_str rest disconnected'
  end.

(** [for addr in disconnected_clients: if addr in self.clients: ...] *)
Fixpoint remove_all (disconnected : list address) : Act unit :=
  match disconnected with
  | [] => ret tt
  | a :: rest =>
      removed <- forget a ;;
      (if removed then log_message (MsgRemoved (fst a)) else ret tt) ;;
      remove_all rest
  end.

(** The end of [send_command]: the second loop and the refresh of the
    list box. *)
Definition prune (disconnected : list address) : Act unit :=
  remove_all disconnected ;;
  match disconnected with
  | [] => ret tt
  | _ :: _ => note ListboxRefresh
  end.

(** [send_command] *)
Definition send_command (c : command) : Act unit :=
  sv <- get ;;
  match clients sv with
  | [] => log_message MsgNoClients
  | _ :: _ =>
      command_str <- json_dumps c ;;
      disconnected <- fan_out c command_str (clients sv) [] ;;
      prune disconnected
  end.

(** The body of the [while self.running] loop of [handle_client]: [true]
    when the loop goes on, [false] when it breaks. *)
Definition heartbeat (s : sock) (a : address) : Act bool :=
  try_except
    (ping_data <- json_dumps ping ;;
     data <- encode_line ping_data ;;
     send s data ;;
     note (Sleep 10) ;;
     ret true)
    is_OSError
    (fun _ =>
       log_message (MsgDisconnected a) ;;
       forget a ;;
       note ListboxRefresh ;;
       ret false).

(** [handle_client], for at most [fuel] rounds. *)
Fixpoint handle_client (fuel : nat) (s : sock) (a : address) : Act unit :=
  sv <- get ;;
  if running sv then
    match fuel with
    | O => fun sv => (OutOfFuel, sv)
    | S fuel' =>
        again <- heartbeat s a ;;
        if again then handle_client fuel' s a else ret tt
    end
  else ret tt.

(** The pings on [s] go through [n] times from the world [w], and the one
    after them fails with [k] and leaves the world [w']. *)
Inductive pings_until_failure (s : sock) (data : bytes)
    : nat -> W -> os_error -> W -> Prop :=
| ping_fails w k w' :
    sys_send s data w = (w', Some k) ->
    pings_until_failure s data O w k w'
| ping_passes n w w1 k w' :
    sys_send s data w = (w1, None) ->
    pings_until_failure s data n w1 k w' ->
    pings_until_failure s data (S n) w k w'.

(** The events of a round of the heartbeat that goes through, and of the
    round that fails. *)
Definition round_events (s : sock) (data : bytes) : list event :=
  [Serialize ping; Send s data None; Sleep 10].

Definition last_round_events (s : sock) (a : address) (data : bytes)
    (k : os_error) : list event :=
  [Serialize ping; Send s data (Some k); Log (MsgDisconnected a);
   ListboxRefresh].

(** One round of [accept_connections] for a connection that [accept]
    returned. *)
Definition accept_connection (s : sock) (a : address) : Act unit :=
  modify (fun sv => set_clients (reg_set a s (clients sv)) sv) ;;
  log_message (MsgConnected a) ;;
  note (ListboxInsert a) ;;
  note (SpawnHandler s a).

(** [for addr, client_socket in list(self.clients.items()): close] of
    [stop_server], over the copy. *)
Fixpoint close_all (snapshot : registry) : Act unit :=
  match snapshot with
  | [] => ret tt
  | (_, s) :: rest => note (CloseSock s) ;; close_all rest
  end.

(** [stop_server], without the widgets. *)
Definition stop_server : Act unit :=
  modify (set_running false) ;;
  sv <- get ;;
  close_all (clients sv) ;;
  modify (set_clients []) ;;
  log_message MsgStopped.

End Controller.
End Server.

(* ===================================================================== *)
(** * The threads of the controller *)
(* ===================================================================== *)

(** The controller runs [accept_connections] in one thread, a
    [handle_client] in one thread for each connection, and [send_command]
    and [stop_server] where the console or the voice loop calls them.  All
    of them work on the one dictionary [self.clients], and nothing orders
    them but the interpreter, which runs one thread at a time and may switch
    between any two dictionary operations.

    A thread is followed in blocks of its source.  A block holds at most
    one step of a loop over the dictionary, so every switch between two
    such steps is a switch between two blocks.  The blocks are coarser than
    the interpreter's switches in other places: the [except] clause of a
    handler, the second loop of [send_command], and the first statements of
    [stop_server] up to its copy are one block each. *)

Module Threads.
Import Py Json Eff Server.

(** The iterator of a [for] loop over [self.clients.items()]: its position
    in the dictionary and the size the dictionary had when the loop began.
    Asked for the next entry, it raises [RuntimeError] when the dictionary
    no longer has that size. *)
Record dict_iter := mkIter { it_pos : nat; it_size : nat }.

Inductive next_result :=
| Yield (e : address * sock) (it : dict_iter)
| StopIteration
| SizeChanged.

Definition iter_next (it : dict_iter) (r : registry) : next_result :=
  if Nat.eqb (List.length r) (it_size it) then
    match nth_error r (it_pos it) with
    | Some e => Yield e (mkIter (S (it_pos it)) (it_size it))
    | None => StopIteration
    end
  else SizeChanged.

(** Where a thread inside [send_command] is. *)
Inductive broadcast_pc :=
| BEnter (c : command)
    (* at [if not self.clients:] *)
| BNext (c : command) (command_str : str) (it : dict_iter)
        (disconnected : list address)
    (* the [for] statement asks the iterator for an entry *)
| BWrite (c : command) (command_str : str) (it : dict_iter)
         (disconnected : list address) (a : address) (s : sock)
    (* at the [try] statement for the entry *)
| BPrune (disconnected : list address)
    (* at the second loop *)
| BDone
| BRaised (e : exn).

(** Where the thread of a connection is in [handle_client]. *)
Inductive handler_pc :=
| HTest       (* at [while self.running:] *)
| HRound      (* at the [try] statement *)
| HDone
| HRaised (e : exn).

Record handler := mkHandler {
  h_sock : sock;
  h_addr : address;
  h_pc : handler_pc
}.

(** Where a thread inside [stop_server] is. *)
Inductive stopper_pc :=
| SEnter
    (* at [self.running = False], before the copy of the dictionary *)
| SClosing (snapshot : registry)
    (* in the loop over the copy *)
| SClear
    (* at [self.clients.clear()] *)
| SDone.

Section Scheduler.

Variable W : Type.
Variable sys_send : sock -> bytes -> W -> W * option os_error.

Record system := mkSystem {
  shared : server W;
  broadcast : option broadcast_pc;
  handlers : list handler;
  stopper : option stopper_pc
}.

(** The thread that is given the next block, or what arrives from
    outside. *)
Inductive label :=
| RunBroadcast
| RunHandler (i : nat)
| RunStopper
| Accept (s : sock) (a : address)   (* [accept] returns a connection *)
| Command (c : command)             (* [send_command(c)] is called *)
| PressStop.                        (* [stop_server()] is called, once *)

Definition broadcast_step (pc : broadcast_pc) (sv : server W)
    : broadcast_pc * server W :=
  match pc with
  | BEnter c =>
      match clients sv with
      | [] => (BDone, emit (Log MsgNoClients) sv)
      | _ :: _ =>
          (BNext c (dumps (to_value c))
                 (mkIter O (List.length (clients sv))) [],
           emit (Serialize c) sv)
      end
  | BNext c command_str it disconnected =>
      match iter_next it (clients sv) with
      | Yield (a, s) it' => (BWrite c command_str it' disconnected a s, sv)
      | StopIteration => (BPrune disconnected, sv)
      | SizeChanged => (BRaised RuntimeError, sv)
      end
  | BWrite c command_str it disconnected a s =>
      match fan_body sys_send c command_str a s disconnected sv with
      | (Ret disconnected', sv') => (BNext c command_str it disconnected', sv')
      | (Raise e, sv') => (BRaised e, sv')
      | (OutOfFuel, sv') => (BRaised RuntimeError, sv')
      end
  | BPrune disconnected =>
      match prune disconnected sv with
      | (Ret _, sv') => (BDone, sv')
      | (Raise e, sv') => (BRaised e, sv')
      | (OutOfFuel, sv') => (BRaised RuntimeError, sv')
      end
  | BDone => (BDone, sv)
  | BRaised e => (BRaised e, sv)
  end.

Definition handler_step (h : handler) (sv : server W) : handler * server W :=
  match h_pc h with
  | HTest =>
      (mkHandler (h_sock h) (h_addr h) (if running sv then HRound else HDone),
       sv)
  | HRound =>
      match heartbeat sys_send (h_sock h) (h_addr h) sv with
      | (Ret again, sv') =>
          (mkHandler (h_sock h) (h_addr h) (if again then HTest else HDone),
           sv')
      | (Raise e, sv') => (mkHandler (h_sock h) (h_addr h) (HRaised e), sv')
      | (OutOfFuel, sv') =>
          (mkHandler (h_sock h) (h_addr h) (HRaised RuntimeError), sv')
      end
  | HDone => (h, sv)
  | HRaised _ => (h, sv)
  end.

Definition stopper_step (pc : stopper_pc) (sv : server W)
    : stopper_pc * server W :=
  match pc with
  | SEnter => (SClosing (clients sv), set_running false sv)
  | SClosing [] => (SClear, sv)
  | SClosing ((_, s) :: rest) => (SClosing rest, emit (CloseSock s) sv)
  | SClear => (SDone, emit (Log MsgStopped) (set_clients [] sv))
  | SDone => (SDone, sv)
  end.

Fixpoint replace_nth {A} (i : nat) (x : A) (l : list A) : list A :=
  match l, i with
  | [], _ => []
  | _ :: r, O => x :: r
  | y :: r, S i' => y :: replace_nth i' x r
  end.

(** One block of one thread; [None] when the label names a thread that does
    not exist or a call that cannot be made now. *)
Definition step (l : label) (sys : system) : option system :=
  match l with
  | RunBroadcast =>
      match broadcast sys with
      | Some pc =>
          let (pc', sv') := broadcast_step pc (shared sys) in
          Some (mkSystem sv' (Some pc') (handlers sys) (stopper sys))
      | None => None
      end
  | RunHandler i =>
      match nth_error (handlers sys) i with
      | Some h =>
          let (h', sv') := handler_step h (shared sys) in
          Some (mkSystem sv' (broadcast sys)
                         (replace_nth i h' (handlers sys)) (stopper sys))
      | None => None
      end
  | RunStopper =>
      match stopper sys with
      | Some pc =>
          let (pc', sv') := stopper_step pc (shared sys) in
          Some (mkSystem sv' (broadcast sys) (handlers sys) (Some pc'))
      | None => None
      end
  | Accept s a =>
      if running (shared sys) then
        Some (mkSystem (snd (accept_connection s a (shared sys)))
                       (broadcast sys)
                       (handlers sys ++ [mkHandler s a HTest])
                       (stopper sys))
      else None
  | Command c =>
      match broadcast sys with
      | None | Some BDone | Some (BRaised _) =>
          Some (mkSystem (shared sys) (Some (BEnter c)) (handlers sys)
                         (stopper sys))
      | _ => None
      end
  | PressStop =>
      match stopper sys with
      | None =>
          Some (mkSystem (shared sys) (broadcast sys) (handlers sys)
                         (Some SEnter))
      | Some _ => None
      end
  end.

(** A schedule, block after block. *)
Fixpoint run (schedule : list label) (sys : system) : option system :=
  match schedule with
  | [] => Some sys
  | l :: rest =>
      match step l sys with
      | Some sys' => run rest sys'
      | None => None
      end
  end.

(** The sockets that a trace closes, in order. *)
Fixpoint closed (tr : list event) : list sock :=
  match tr with
  | [] => []
  | CloseSock s :: rest => s :: closed rest
  | _ :: rest => closed rest
  end.

(** A statement is quiet when it closes no socket. *)
Definition quiet {A} (m : Act W A) : Prop :=
  forall sv, closed (trace (snd (m sv))) = closed (trace sv).

(** What is left of the copy that [stop_server] took. *)
Definition remaining (st : option stopper_pc) : list sock :=
  match st with
  | Some (SClosing snapshot) => map snd snapshot
  | _ => []
  end.

(** [stop_server] has taken its copy of the dictionary. *)
Definition copied (st : option stopper_pc) : Prop :=
  match st with
  | Some (SClosing _) | Some SClear | Some SDone => True
  | _ => False
  end.

(** A thread is inside the loop of [send_command] over the dictionary. *)
Definition iterating (sys : system) : option dict_iter :=
  match broadcast sys with
  | Some (BNext _ _ it _) => Some it
  | Some (BWrite _ _ it _ _ _) => Some it
  | _ => None
  end.

End Scheduler.
End Threads.

(* ===================================================================== *)
(** * A small concrete world *)
(* ===================================================================== *)

(** A world that counts the calls made to it, used to run the programs on
    concrete inputs. *)
Module Demo.
Import Py Json Eff.

Definition world := nat.

(** Every executor call goes through. *)
Definition exec_ok (c : Client.exec_call) (w : world) : world * option exn :=
  (S w, None).

(** Every executor call fails: the program is not installed. *)
Definition exec_missing (c : Client.exec_call) (w : world)
    : world * option exn :=
  (S w, Some (OSError FileNotFoundError)).

Definition timestamp (w : world) : str := lit "20250801_120000".

(** A client object inside its [run] loop. *)
Definition listening : Client.client world :=
  Client.set_running true (Client.init None O).

(** Bytes written as a Rocq string, with an apostrophe standing for the
    double quote of JSON. *)
Definition text (s : string) : bytes :=
  map (fun b => match b with x27 => x22 | _ => b end) (list_byte_of_string s).

(** A line of text with its terminator. *)
Definition line (s : string) : bytes := text s ++ [byte_of NL].

Definition session (recvs : list Client.recv_result)
    : outcome unit * Client.client world :=
  Client.listen_for_commands exec_ok timestamp recvs listening.

(** A network on which the writes to odd-numbered sockets fail. *)
Definition send_even (s : Server.sock) (data : bytes) (w : world)
    : world * option os_error :=
  (S w, if Nat.odd s then Some BrokenPipeError else None).

(** A network on which the third write fails, whatever the socket. *)
Definition send_twice (s : Server.sock) (data : bytes) (w : world)
    : world * option os_error :=
  (S w, if Nat.leb 2 w then Some ConnectionResetError else None).

Definition host (s : string) (port : N) : Server.address := (lit s, port).

(** A controller with three agents connected. *)
Definition three_clients : Server.server world :=
  Server.mkServer
    [(host "10.0.0.2" 50000, 2%nat);
     (host "10.0.0.3" 50001, 3%nat);
     (host "10.0.0.4" 50002, 4%nat)]
    true O [].

Definition no_clients : Server.server world :=
  Server.mkServer [] true O [].

Definition lab_closing : Server.command :=
  [(lit "action", lit "message");
   (lit "content", lit "Lab closing in 5 minutes")].

(** The address that [hostname -I] prints, and a network on which the
    host 10.0.0.3 listens on the port of the controller, the host 10.0.0.2
    is unreachable, and the others refuse the connection. *)
Definition hostname_out (w : world) : world * (exn + str) :=
  (S w, inr (lit "10.0.0.57 172.17.0.1 ")).

Definition probe_net (ip : str) (port : N) (timeout : Q) (w : world)
    : world * (exn + Z) :=
  (S w,
   if str_eqb ip (lit "10.0.0.3") then inr 0%Z
   else if str_eqb ip (lit "10.0.0.2") then inl (OSError PlainOSError)
   else inr 111%Z).

(** Sockets are numbered as they are made; every connect goes through. *)
Definition new_sock (w : world) : world * (exn + Client.sock) := (S w, inr w).

Definition connect_ok (s : Client.sock) (ip : str) (port : N) (w : world)
    : world * option exn :=
  (S w, None).

(** An agent given the address of its controller, followed through
    [run]: up to the end of a first session on a connection that delivers
    nothing, and then with [stop] called. *)
Definition run_step (recvs : list Client.recv_result)
    (a : Client.agent world) : option (Client.agent world) :=
  Client.run_step exec_ok timestamp hostname_out probe_net new_sock connect_ok
    recvs a.

Definition step (a : Client.agent world) : Client.agent world :=
  match run_step [] a with
  | Some a' => a'
  | None => a
  end.

Definition agent_start : Client.agent world :=
  Client.mkAgent (Client.init (Some (lit "10.0.0.3")) O) Client.AtStart.

Definition agent_after_session : Client.agent world :=
  step (step (step (step agent_start))).

Definition agent_after_stop : Client.agent world :=
  Client.mkAgent (Client.stop (Client.self agent_after_session))
                 (Client.at_pc agent_after_session).

(** The controller with its three clients, a handler thread for each, and
    [send_command] just called. *)
Definition controller : Threads.system world :=
  Threads.mkSystem three_clients (Some (Threads.BEnter lab_closing))
    [Threads.mkHandler 2%nat (host "10.0.0.2" 50000) Threads.HRound;
     Threads.mkHandler 3%nat (host "10.0.0.3" 50001) Threads.HRound;
     Threads.mkHandler 4%nat (host "10.0.0.4" 50002) Threads.HRound]
    None.

(** The same controller inside [stop_server], its copy just taken. *)
Definition stopping : Threads.system world :=
  Threads.mkSystem (Server.set_running false three_clients)
    (Some (Threads.BEnter lab_closing))
    [Threads.mkHandler 2%nat (host "10.0.0.2" 50000) Threads.HRound;
     Threads.mkHandler 3%nat (host "10.0.0.3" 50001) Threads.HRound;
     Threads.mkHandler 4%nat (host "10.0.0.4" 50002) Threads.HRound]
    (Some (Threads.SClosing (Server.clients three_clients))).

Definition session_missing (recvs : list Client.recv_result)
    : outcome unit * Client.client world :=
  Client.listen_for_commands exec_missing timestamp recvs listening.

(** A session with [print] as it is. *)
Definition session_printing (recvs : list Client.recv_result)
    : outcome unit * Client.client world :=
  Printing.listen_for_commands (Printing.process_command exec_ok timestamp)
    recvs listening.

End Demo.

(* ===================================================================== *)
(** * More of Python's [str] *)
(* ===================================================================== *)

Module Text.
Import Py Json.

(** [s.startswith(p)] *)
Definition startswith (p s : str) : bool :=
  match strip_prefix p s with
  | Some _ => true
  | None => false
  end.

(** The leftmost occurrence of [sub] in [s]: the text before it and the
    text after it.  [s.split(sub, 1)] cuts [s] there. *)
Fixpoint find (sub s : str) {struct s} : option (str * str) :=
  match strip_prefix sub s with
  | Some r => Some ([], r)
  | None =>
      match s with
      | [] => None
      | c :: r =>
          match find sub r with
          | Some (a, b) => Some (c :: a, b)
          | None => None
          end
      end
  end.

(** [sub in s] *)
Definition occurs (sub s : str) : bool :=
  match find sub s with
  | Some _ => true
  | None => false
  end.

(** A text of white space only; [s.strip()] of such a text is empty. *)
Definition blank (s : str) : Prop := Forall (fun c => isspace c = true) s.

End Text.

(* ===================================================================== *)
(** * What the agent's statements leave in the trace *)
(* ===================================================================== *)

Module Frame.
Import Py Json Eff.

(** A statement emits [P] when all it adds to the trace are events that
    satisfy [P]. *)
Definition emits {W A} (P : Client.event -> Prop) (m : Client.Act W A) : Prop :=
  forall st, exists evs,
    Client.trace (snd (m st)) = Client.trace st ++ evs /\ Forall P evs.

(** The events of a session: log entries, messages handed over, executor
    calls. *)
Definition of_session (e : Client.event) : Prop :=
  match e with
  | Client.Log _ | Client.Deliver _ | Client.Exec _ _ => True
  | _ => False
  end.

(** The events of a search for the controller. *)
Definition of_search (e : Client.event) : Prop :=
  match e with
  | Client.Log _ | Client.Hostname _ | Client.Probe _ _ _ _
  | Client.CloseProbe _ => True
  | _ => False
  end.

(** The events of a trace that belong to a search: looking up the own
    address and probing a host. *)
Fixpoint searches (tr : list Client.event) : list Client.event :=
  match tr with
  | [] => []
  | Client.Hostname r :: rest => Client.Hostname r :: searches rest
  | Client.Probe ip port t r :: rest => Client.Probe ip port t r :: searches rest
  | _ :: rest => searches rest
  end.

(** The calls of a shell recorded in a trace, in order. *)
Fixpoint shells (tr : list Client.event) : list value :=
  match tr with
  | [] => []
  | Client.Exec (Client.RunShell cmd) _ :: rest => cmd :: shells rest
  | _ :: rest => shells rest
  end.

(** The sockets that [connect_to_server] made and nothing has closed yet:
    [socket.socket()] adds one, [close()] takes it away. *)
Fixpoint unclosed_from (open : list Client.sock) (tr : list Client.event)
    : list Client.sock :=
  match tr with
  | [] => open
  | Client.Socket (inr s) :: rest => unclosed_from (open ++ [s]) rest
  | Client.Close s :: rest =>
      unclosed_from (filter (fun x => negb (Nat.eqb x s)) open) rest
  | _ :: rest => unclosed_from open rest
  end.

Definition unclosed (tr : list Client.event) : list Client.sock :=
  unclosed_from [] tr.

(** [run] has not been left by an exception. *)
Definition going (pc : Client.pc) : Prop :=
  match pc with
  | Client.Failed _ | Client.Diverged => False
  | _ => True
  end.

(** [run] is at a statement outside the part of the loop body that holds
    a connection. *)
Definition idle (pc : Client.pc) : Prop :=
  match pc with
  | Client.AtStart | Client.AtLoopTest | Client.AtConnect | Client.AtBackoff
  | Client.Returned => True
  | _ => False
  end.

(** The agent is tidy when every socket it has made and not closed is the
    one in [self.client_socket], and it holds none outside the part of the
    loop that runs from the connection attempt to the close. *)
Definition tidy {W} (a : Client.agent W) : Prop :=
  (forall s, In s (unclosed (Client.trace (Client.self a))) ->
             Client.client_socket (Client.self a) = Some s) /\
  (idle (Client.at_pc a) -> Client.client_socket (Client.self a) = None).

Section Alone.

Variable W : Type.
Variable sys_exec : Client.exec_call -> W -> W * option exn.
Variable sys_timestamp : W -> str.
Variable sys_hostname : W -> W * (exn + str).
Variable sys_probe : str -> N -> Q -> W -> W * (exn + Z).
Variable sys_socket : W -> W * (exn + Client.sock).
Variable sys_connect : Client.sock -> str -> N -> W -> W * option exn.

(** [run] followed while no other thread calls [stop]. *)
Inductive runs : Client.agent W -> Client.agent W -> Prop :=
| runs_refl a : runs a a
| runs_step recvs a b c :
    Client.run_step sys_exec sys_timestamp sys_hostname sys_probe sys_socket
      sys_connect recvs a = Some b ->
    runs b c -> runs a c.

End Alone.

(** An attempt of the [lock] loop that the loop passes over: it ended in
    one of the three exceptions that its [except] clause names. *)
Definition passed_over (r : option exn) : bool :=
  match r with
  | Some e => Client.lock_failure e
  | None => false
  end.

(** The calls that the [lock] loop makes, given the lock commands and the
    result of each attempt. *)
Definition attempt_events (cmds : list (list value))
    (results : list (option exn)) : list Client.event :=
  map (fun cr => Client.Exec (Client.Run (fst cr) true (Some 5%N)) (snd cr))
      (combine cmds results).

(** Any event but the call of a shell. *)
Definition not_shell (e : Client.event) : Prop :=
  match e with
  | Client.Exec (Client.RunShell _) _ => False
  | _ => True
  end.

End Frame.

(* ===================================================================== *)
(** * The accept loop of the controller *)
(* ===================================================================== *)

Module Acceptor.
Import Py Json Eff Server.
Local Open Scope py_scope.

(** [clients.get(address)] *)
Fixpoint reg_get (a : address) (r : registry) : option sock :=
  match r with
  | [] => None
  | (a', s) :: rest => if address_eqb a' a then Some s else reg_get a rest
  end.

(** What one call of [accept] gives: a connection, or the [OSError] of a
    server socket that was closed. *)
Definition accepted := (os_error + sock * address)%type.

(** The socket of the latest of the connections that came from [a]. *)
Fixpoint latest (a : address) (conns : list (sock * address)) : option sock :=
  match conns with
  | [] => None
  | (s, a') :: rest =>
      match latest a rest with
      | Some s' => Some s'
      | None => if address_eqb a' a then Some s else None
      end
  end.

(** The handler threads that a trace starts, in order. *)
Fixpoint spawned (tr : list event) : list (sock * address) :=
  match tr with
  | [] => []
  | SpawnHandler s a :: rest => (s, a) :: spawned rest
  | _ :: rest => spawned rest
  end.

(** The keys of the dictionary are distinct, as in any [dict]. *)
Definition distinct {W} (sv : server W) : Prop :=
  NoDup (map fst (clients sv)).

(** A statement that leaves the keys distinct. *)
Definition keeps_distinct {W A} (m : Act W A) : Prop :=
  forall sv, distinct sv -> distinct (snd (m sv)).

Section Loop.
Variable W : Type.

(** [accept_connections].  [accepts] are the results of the successive
    calls of [accept]; when they are used up the thread is waiting in
    [accept] and the model has nothing more to follow. *)
Fixpoint accept_connections (accepts : list accepted) : Act W unit :=
  sv <- get ;;
  if running sv then
    match accepts with
    | [] => fun sv => (OutOfFuel, sv)
    | inl _ :: _ => ret tt
    | inr (s, a) :: rest =>
        accept_connection s a ;; accept_connections rest
    end
  else ret tt.

End Loop.
End Acceptor.

(* ===================================================================== *)
(** * The front ends of the controller *)
(* ===================================================================== *)

(** [process_voice_command], which both server programs have word for word,
    with the code that calls it: the voice loop of [buddy_server.py], the
    text field of [buddy_server_windows.py], and [send_message]. *)

Module Console.
Import Py Json Eff Text.
Local Open Scope py_scope.

(** The texts that the front ends give to [log_message]. *)
Inductive msg :=
| MsgProcessing (command_text : str)
| MsgUnknownCommand (command_text : str)
| MsgHeard (text : str)
| MsgProcessingText (command_text : str)
| MsgListening
| MsgVoiceError (e : exn).

Inductive entry :=
| Said (m : msg)
| Called (c : Server.command)     (* self.send_command(c) is entered *)
| StreamOpened
| StreamClosed
| ButtonReset.                    (* root.after(0, ...voice_button.config...) *)

Definition action (name : string) : Server.command :=
  [(lit "action", lit name)].

Definition open_app (app : string) : Server.command :=
  [(lit "action", lit "open_app"); (lit "app", lit app)].

(** [self.command_mappings], in the order in which the dictionary is
    written and therefore iterated. *)
Definition command_mappings : list (str * Server.command) :=
  [(lit "shutdown all computers", action "shutdown");
   (lit "restart all computers", action "restart");
   (lit "reboot all computers", action "restart");
   (lit "lock all screens", action "lock");
   (lit "lock all computers", action "lock");
   (lit "open firefox", open_app "firefox");
   (lit "open browser", open_app "firefox");
   (lit "open calculator", open_app "gnome-calculator");
   (lit "open file manager", open_app "nautilus");
   (lit "close all applications", action "close_apps");
   (lit "show desktop", action "show_desktop");
   (lit "take screenshot", action "screenshot")]%string.

(** The commands of the four quick buttons. *)
Definition quick_commands : list Server.command :=
  [action "shutdown"; action "restart"; action "lock"; open_app "firefox"]%string.

(** [{'action': 'message', 'content': content}] *)
Definition message_command (content : str) : Server.command :=
  [(lit "action", lit "message"); (lit "content", content)].

(** [text.startswith('send message') or text.startswith('message')] *)
Definition message_prefixed (command_text : str) : bool :=
  startswith (lit "send message") command_text
  || startswith (lit "message") command_text.

(** The agent's interpreter has a branch for the action of the command. *)
Definition known (c : Server.command) : Prop :=
  match Server.to_value c with
  | JDict d => Client.recognized (Client.action_of d) = true
  | _ => False
  end.

(** A command that the agents can make sense of: it survives the way to
    the agent and the agent's interpreter has a branch for it. *)
Definition sound (e : entry) : Prop :=
  match e with
  | Called c => Server.well_formed c /\ known c
  | _ => True
  end.

(** A text that [print] can write: the standard output encodes it, in
    UTF-8, and raises [UnicodeEncodeError] where it cannot. *)
Definition sayable (t : str) : bool :=
  match encode t with
  | Some _ => true
  | None => false
  end.

(** The recognizer results at which the voice loop gives up: the text is
    not JSON, or not an object, or its [text] is not a string. *)
Definition rejects (raw : str) : option exn :=
  match loads raw with
  | JSONDecodeError => Some JSONDecodeErr
  | Parsed (JDict d) =>
      match dict_get (lit "text") d with
      | Some (JStr _) | None => None
      | Some _ => Some AttributeError
      end
  | Parsed _ => Some AttributeError
  end.

Section Console.

Variable W : Type.
(** The [send_command] of the class, which differs between the two server
    programs in what it logs. *)
Variable send_command_impl : Server.command -> Server.Act W unit.
(** [str.lower] *)
Variable py_lower : str -> str.

(** The controller object as the front ends see it: the part that
    [send_command] works on, the flag of the voice loop, the two text
    fields of the window, and what the front ends have printed and called. *)
Record console := mkConsole {
  core : Server.server W;
  listening : bool;
  message_entry : str;
  voice_entry : str;
  journal : list entry
}.

Definition set_core (sv : Server.server W) (c : console) : console :=
  mkConsole sv (listening c) (message_entry c) (voice_entry c) (journal c).
Definition set_listening (b : bool) (c : console) : console :=
  mkConsole (core c) b (message_entry c) (voice_entry c) (journal c).
Definition set_message_entry (t : str) (c : console) : console :=
  mkConsole (core c) (listening c) t (voice_entry c) (journal c).
Definition set_voice_entry (t : str) (c : console) : console :=
  mkConsole (core c) (listening c) (message_entry c) t (journal c).
Definition emit (e : entry) (c : console) : console :=
  mkConsole (core c) (listening c) (message_entry c) (voice_entry c)
            (journal c ++ [e]).

Definition Act := M console.

(** [self.log_message(text)] for a text with [f"{shown}"] in it.  The
    window takes the text, and then [print] raises when the standard output
    cannot encode it; the journal has what was printed. *)
Definition log_message (m : msg) (shown : str) : Act unit :=
  if sayable shown then modify (emit (Said m)) else raise UnicodeEncodeError.
Definition note (e : entry) : Act unit := modify (emit e).

(** A statement of the controller proper, run on its part of the object. *)
Definition in_core {A} (m : Server.Act W A) : Act A :=
  fun c =>
    let (r, sv) := m (core c) in
    (r, set_core sv c).

(** [self.send_command(c)] *)
Definition send_command (c : Server.command) : Act unit :=
  note (Called c) ;; in_core (send_command_impl c).

(** [text.split(sep, 1)[1]] *)
Definition after_first (sep text : str) : Act str :=
  match find sep text with
  | Some (_, rest) => ret rest
  | None => raise IndexError
  end.

(** The state in which [self.send_command(c)] leaves the object. *)
Definition sent (c : Server.command) (st : console) : console :=
  set_core (snd (send_command_impl c (core st))) (emit (Called c) st).

(** The first [if] of [process_voice_command]; the result is [true] when
    the function returns from inside it. *)
Definition message_branch (command_text : str) : Act bool :=
  if message_prefixed command_text then
    content <- (if occurs (lit "send message") command_text
                then after_first (lit "send message") command_text
                else after_first (lit "message") command_text) ;;
    let message_content := strip content in
    match message_content with
    | [] => ret false
    | _ :: _ => send_command (message_command message_content) ;; ret true
    end
  else ret false.

(** [for voice_command, action in self.command_mappings.items(): ...];
    the result is [true] when the function returns from inside the loop. *)
Fixpoint mapping_loop (mappings : list (str * Server.command))
    (command_text : str) : Act bool :=
  match mappings with
  | [] => ret false
  | (voice_command, action) :: rest =>
      if occurs voice_command command_text
      then send_command action ;; ret true
      else mapping_loop rest command_text
  end.

(** [process_voice_command] *)
Definition process_voice_command (command_text : str) : Act unit :=
  log_message (MsgProcessing command_text) command_text ;;
  returned <- message_branch command_text ;;
  if returned then ret tt
  else
    returned <- mapping_loop command_mappings command_text ;;
    if returned then ret tt
    else log_message (MsgUnknownCommand command_text) command_text.

(** [send_message] *)
Definition send_message : Act unit :=
  c <- get ;;
  let message := strip (message_entry c) in
  match message with
  | [] => ret tt
  | _ :: _ =>
      send_command (message_command message) ;;
      modify (set_message_entry [])
  end.

(** [process_text_command] of [buddy_server_windows.py] *)
Definition process_text_command : Act unit :=
  c <- get ;;
  let command_text := py_lower (strip (voice_entry c)) in
  match command_text with
  | [] => ret tt
  | _ :: _ =>
      log_message (MsgProcessingText command_text) command_text ;;
      process_voice_command command_text ;;
      modify (set_voice_entry [])
  end.

(** ** The voice loop of [buddy_server.py] *)

Definition json_loads (text : str) : Act value :=
  match loads text with
  | Parsed v => ret v
  | JSONDecodeError => raise JSONDecodeErr
  end.

(** [result.get('text', '')] *)
Definition get_text (result : value) : Act value :=
  match result with
  | JDict d =>
      ret (match dict_get (lit "text") d with Some v => v | None => JStr [] end)
  | _ => raise AttributeError
  end.

(** [.lower().strip()] *)
Definition lower_strip (v : value) : Act str :=
  match v with
  | JStr s => ret (strip (py_lower s))
  | _ => raise AttributeError
  end.

(** [if text: ...], with the recognized text in hand. *)
Definition heard (text : str) : Act unit :=
  match text with
  | [] => ret tt
  | _ :: _ =>
      log_message (MsgHeard text) text ;;
      if startswith (lit "buddy") text
      then process_voice_command (strip (skipn 5 text))
      else ret tt
  end.

(** What one round of the loop gets from outside: [stream.read] or
    [AcceptWaveform] raises, or the recognizer has no result yet, or it has
    one, the text that [Result()] returns. *)
Definition round := (exn + option str)%type.

(** The body of the [while self.listening] loop. *)
Definition voice_round (r : round) : Act unit :=
  match r with
  | inl e => raise e
  | inr None => ret tt
  | inr (Some raw) =>
      result <- json_loads raw ;;
      v <- get_text result ;;
      text <- lower_strip v ;;
      heard text
  end.

(** The loop.  When [rounds] are used up the model has nothing more to
    follow. *)
Fixpoint voice_loop (rounds : list round) : Act unit :=
  c <- get ;;
  if listening c then
    match rounds with
    | [] => fun c => (OutOfFuel, c)
    | r :: rest => voice_round r ;; voice_loop rest
    end
  else ret tt.

(** [listen_for_voice_commands]; [opened] is what opening the microphone
    stream raises, if anything. *)
Definition listen_for_voice_commands (opened : option exn)
    (rounds : list round) : Act unit :=
  try_except
    (match opened with
     | Some e => raise e
     | None => note StreamOpened
     end ;;
     log_message MsgListening [] ;;
     voice_loop rounds ;;
     note StreamClosed)
    any_exception
    (fun e =>
       log_message (MsgVoiceError e) [] ;;
       modify (set_listening false) ;;
       note ButtonReset).

(** A statement adds [P] when all it adds to the journal are entries that
    satisfy [P]. *)
Definition adds {A} (P : entry -> Prop) (m : Act A) : Prop :=
  forall st, exists new,
    journal (snd (m st)) = journal st ++ new /\ Forall P new.

End Console.
End Console.

(* ===================================================================== *)
(** * A controller window for the examples *)
(* ===================================================================== *)

Module Scenario.
Import Py Json Eff.

(** The controller of [Demo] with its voice loop on and a message typed
    into the message field. *)
Definition window : Console.console Demo.world :=
  Console.mkConsole Demo.three_clients true
    (lit "  Lab closing in 5 minutes ") [] [].

Definition broadcast : Server.command -> Server.Act Demo.world unit :=
  Server.send_command Demo.send_even.

(** A stand-in for [str.lower] that is good for texts in lower case. *)
Definition lower (s : str) : str := s.

End Scenario.

(* ===================================================================== *)
(** * The launcher: [Buddy.py] *)
(* ===================================================================== *)

Module Launcher.
Import Py Json Eff.

(** What a call of [input] gives: the line that was typed, or
    [KeyboardInterrupt], or [EOFError]. *)
Inductive answer :=
| Typed (line : str)
| CtrlC
| EndOfInput.

(** What a call of [subprocess.run] does once the program is started: it
    returns when the program exits, or raises [KeyboardInterrupt] while it
    waits, or raises another exception. *)
Inductive waited :=
| Exited
| Interrupted
| Failed.

(** The lines that the launcher prints, apart from the banner, the menu and
    the help text. *)
Inductive line :=
| StartingServer
| StartingClient
| ServerNotFound
| ClientNotFound
| Goodbye
| InvalidChoice
| UnknownCommand (word : str).

Inductive event :=
| Banner                                   (* print_banner() *)
| Help                                     (* show_help() *)
| Menu                                     (* the five prints of the menu *)
| Ask                                      (* a call of input *)
| Say (l : line)
| Spawn (script : string) (args : list str).
    (* subprocess.run([sys.executable, script] + args) *)

(** What leaves a function of the launcher other than a return. *)
Inductive escape :=
| KeyboardInterrupt
| EOFError
| SubprocessError
| PrintError.                              (* UnicodeEncodeError from print *)

Inductive ending :=
| Returned
| Escaped (x : escape).

Definition result := (list event * ending)%type.

(** The arguments that the launcher gives to [buddy_client.py], in the
    order of the calls. *)
Fixpoint client_args (evs : list event) : list (list str) :=
  match evs with
  | [] => []
  | Spawn script args :: rest =>
      if String.eqb script "buddy_client.py"
      then args :: client_args rest
      else client_args rest
  | _ :: rest => client_args rest
  end.

Section Launcher.

(** [str.lower] *)
Variable py_lower : str -> str.
(** [os.path.exists] *)
Variable path_exists : string -> bool.

(** [subprocess.run([sys.executable, script] + args)] *)
Definition run (script : string) (args : list str) (w : waited) : result :=
  ([Spawn script args],
   match w with
   | Exited => Returned
   | Interrupted => Escaped KeyboardInterrupt
   | Failed => Escaped SubprocessError
   end).

(** [start_server] *)
Definition start_server (w : waited) : result :=
  if path_exists "buddy_server.py" then
    let (evs, e) := run "buddy_server.py" [] w in
    (Say StartingServer :: evs, e)
  else ([Say StartingServer; Say ServerNotFound], Returned).

(** [start_client], with [sys.argv] as it is when the function is
    called. *)
Definition start_client (argv : list str) (w : waited) : result :=
  if path_exists "buddy_client.py" then
    let (evs, e) :=
      if (2 <? List.length argv)%nat
      then run "buddy_client.py" [nth 2 argv []] w
      else run "buddy_client.py" [] w in
    (Say StartingClient :: evs, e)
  else ([Say StartingClient; Say ClientNotFound], Returned).

(** [except KeyboardInterrupt: print("\nGoodbye!")] around a part of the
    [try] block of [interactive_mode]. *)
Definition goodbye_on_interrupt (r : result) : result :=
  match r with
  | (evs, Escaped KeyboardInterrupt) => (evs ++ [Say Goodbye], Returned)
  | _ => r
  end.

(** [interactive_mode]; [first] and [second] are what its two calls of
    [input] give. *)
Definition interactive_mode (argv : list str) (first second : answer)
    (w : waited) : result :=
  let (evs, e) :=
    goodbye_on_interrupt
      match first with
      | CtrlC => ([Ask], Escaped KeyboardInterrupt)
      | EndOfInput => ([Ask], Escaped EOFError)
      | Typed line =>
          let choice := strip line in
          if str_eqb choice (lit "1") then
            let (evs, e) := start_server w in (Ask :: evs, e)
          else if str_eqb choice (lit "2") then
            match second with
            | CtrlC => ([Ask; Ask], Escaped KeyboardInterrupt)
            | EndOfInput => ([Ask; Ask], Escaped EOFError)
            | Typed line2 =>
                let server_ip := strip line2 in
                let argv :=
                  match server_ip with
                  | [] => argv
                  | _ :: _ => argv ++ [server_ip]
                  end in
                let (evs, e) := start_client argv w in
                (Ask :: Ask :: evs, e)
            end
          else if str_eqb choice (lit "3") then ([Ask; Help], Returned)
          else if str_eqb choice (lit "4") then ([Ask; Say Goodbye], Returned)
          else ([Ask; Say InvalidChoice], Returned)
      end in
  (Menu :: evs, e).

(** [main] *)
Definition main (argv : list str) (first second : answer) (w : waited)
    : result :=
  let (evs, e) :=
    if (List.length argv <? 2)%nat then interactive_mode argv first second w
    else
      let word := nth 1 argv [] in
      if str_eqb (py_lower word) (lit "server") then start_server w
      else if str_eqb (py_lower word) (lit "client") then start_client argv w
      else if existsb (str_eqb (py_lower word))
                [lit "help"; lit "-h"; lit "--help"]
      then ([Help], Returned)
      else
        match encode word with
        | Some _ => ([Say (UnknownCommand word); Help], Returned)
        | None => ([], Escaped PrintError)
        end in
  (Banner :: evs, e).

End Launcher.
End Launcher.

(* ===================================================================== *)
(** * Properties *)
(* ===================================================================== *)

Import Py Json Eff.
Local Open Scope py_scope.

(** ** Strings *)

Lemma contains_false_segments s :
  contains NL s = false -> Client.spec_segments s = ([], s).
Proof.
  induction s as [|c r IH]; simpl; [reflexivity|].
  destruct (N.eqb c NL) eqn:E; [discriminate|].
  intros H. rewrite (IH H). reflexivity.
Qed.

Lemma split_once_segments s line rest :
  split_once NL s = Some (line, rest) ->
  Client.spec_segments s =
    (line :: fst (Client.spec_segments rest), snd (Client.spec_segments rest)).
Proof.
  revert line rest. induction s as [|c r IH]; simpl; intros line rest H.
  - discriminate.
  - destruct (N.eqb c NL) eqn:E.
    + inversion H; subst. destruct (Client.spec_segments rest); reflexivity.
    + destruct (split_once NL r) as [[a b]|] eqn:S; [|discriminate].
      inversion H; subst. rewrite (IH _ _ eq_refl). reflexivity.
Qed.

Lemma split_once_length s line rest :
  split_once NL s = Some (line, rest) -> (List.length rest < List.length s)%nat.
Proof.
  revert line rest. induction s as [|c r IH]; simpl; intros line rest H.
  - discriminate.
  - destruct (N.eqb c NL).
    + inversion H; subst. lia.
    + destruct (split_once NL r) as [[a b]|] eqn:S; [|discriminate].
      inversion H; subst. specialize (IH _ _ eq_refl). lia.
Qed.

Lemma contains_split_once s :
  contains NL s = true -> exists line rest, split_once NL s = Some (line, rest).
Proof.
  induction s as [|c r IH]; simpl; [discriminate|].
  destruct (N.eqb c NL); [eauto|].
  intros H. destruct (IH H) as (l & t & E). rewrite E. eauto.
Qed.

Lemma segments_remainder s : contains NL (snd (Client.spec_segments s)) = false.
Proof.
  induction s as [|c r IH]; simpl; [reflexivity|].
  destruct (Client.spec_segments r) as [ls rem]. simpl in IH.
  destruct (N.eqb c NL) eqn:E; [exact IH|].
  destruct ls; simpl; rewrite ?E; exact IH.
Qed.

Lemma segments_app x y :
  Client.spec_segments (x ++ y) =
    (fst (Client.spec_segments x)
       ++ fst (Client.spec_segments (snd (Client.spec_segments x) ++ y)),
     snd (Client.spec_segments (snd (Client.spec_segments x) ++ y))).
Proof.
  induction x as [|c r IH]; simpl.
  - destruct (Client.spec_segments y); reflexivity.
  - rewrite IH. destruct (Client.spec_segments r) as [l1 r1]. simpl.
    destruct (Client.spec_segments (r1 ++ y)) as [l2 r2] eqn:E2. simpl.
    destruct (N.eqb c NL) eqn:E; simpl.
    + rewrite E2. reflexivity.
    + destruct l1 as [|l l1']; simpl.
      * rewrite E2, E. destruct l2; reflexivity.
      * rewrite E2. reflexivity.
Qed.

(** ** The monad *)

Lemma bind_assoc {S A B C} (m : M S A) (f : A -> M S B) (g : B -> M S C) st :
  bind (bind m f) g st = bind m (fun a => bind (f a) g) st.
Proof. unfold bind. destruct (m st) as [[a| e|] s]; reflexivity. Qed.

Lemma bind_ext {S A B} (m : M S A) (f g : A -> M S B) st :
  (forall a s, f a s = g a s) -> bind m f st = bind m g st.
Proof. intros H. unfold bind. destruct (m st) as [[a| e|] s]; auto. Qed.

Lemma try_except_ext {S A} (m m' : M S A) h k st :
  m st = m' st -> try_except m h k st = try_except m' h k st.
Proof. intros H. unfold try_except. rewrite H. reflexivity. Qed.

(** ** Statements that only move the world and add events *)

Create HintDb tame.

Section Tame.
Variable W : Type.

Local Abbreviation same_fields := (@Client.same_fields W).
Local Abbreviation tame := (@Client.tame W _).

Lemma same_fields_refl a : same_fields a a.
Proof. repeat split. Qed.

Lemma same_fields_trans a b c :
  same_fields a b -> same_fields b c -> same_fields a c.
Proof. unfold same_fields. intuition congruence. Qed.

Lemma tame_ret {A} (a : A) : tame (ret a).
Proof. intros st. split; [discriminate | apply same_fields_refl]. Qed.

Lemma tame_raise {A} e : tame (@raise _ A e).
Proof. intros st. split; [discriminate | apply same_fields_refl]. Qed.

Lemma tame_get : tame (@get (Client.client W)).
Proof. intros st. split; [discriminate | apply same_fields_refl]. Qed.

Lemma tame_bind {A B} (m : Client.Act W A) (k : A -> Client.Act W B) :
  tame m -> (forall a, tame (k a)) -> tame (bind m k).
Proof.
  intros Hm Hk st. unfold bind. specialize (Hm st).
  destruct (m st) as [[a| e|] s]; simpl in *.
  - destruct (Hk a s) as [H1 H2]. split; [exact H1|].
    eapply same_fields_trans; [apply Hm | exact H2].
  - split; [discriminate | apply Hm].
  - destruct Hm as [Hm _]. congruence.
Qed.

Lemma tame_try {A} (m : Client.Act W A) h k :
  tame m -> (forall e, tame (k e)) -> tame (try_except m h k).
Proof.
  intros Hm Hk st. unfold try_except. specialize (Hm st).
  destruct (m st) as [[a| e|] s]; simpl in *.
  - exact Hm.
  - destruct (h e); simpl; [|exact Hm].
    destruct (Hk e s) as [H1 H2]. split; [exact H1|].
    eapply same_fields_trans; [apply Hm | exact H2].
  - exact Hm.
Qed.

Lemma tame_note e : tame (@Client.note W e).
Proof. intros st. split; [discriminate | repeat split]. Qed.

Lemma tame_log m : tame (@Client.log_message W m).
Proof. intros st. split; [discriminate | repeat split]. Qed.

Lemma tame_if {A} (b : bool) (x y : Client.Act W A) :
  tame x -> tame y -> tame (if b then x else y).
Proof. destruct b; auto. Qed.

Variable sys_exec : Client.exec_call -> W -> W * option exn.
Variable sys_timestamp : W -> str.

Lemma tame_exec c : tame (Client.exec sys_exec c).
Proof.
  intros st. unfold Client.exec. destruct (sys_exec c (Client.world st)) as [w' [e|]];
    simpl; (split; [discriminate | repeat split]).
Qed.

Lemma tame_get_field c k d : tame (@Client.get_field W c k d).
Proof. destruct c; simpl; try apply tame_raise; apply tame_ret. Qed.

#[local] Hint Resolve tame_ret tame_raise tame_get tame_note tame_log tame_exec
  tame_get_field : tame.
#[local] Hint Extern 2 (tame (bind _ _)) => apply tame_bind; [|intros] : tame.
#[local] Hint Extern 2 (tame (try_except _ _ _)) => apply tame_try; [|intros] : tame.
#[local] Hint Extern 3 (tame (if _ then _ else _)) => apply tame_if : tame.

Lemma tame_lock_loop cmds : tame (Client.lock_loop sys_exec cmds).
Proof.
  induction cmds as [|c r IH]; simpl; auto 10 with tame.
Qed.

Lemma tame_close_loop apps : tame (Client.close_loop sys_exec apps).
Proof. induction apps as [|a r IH]; simpl; auto with tame. Qed.

#[local] Hint Resolve tame_lock_loop tame_close_loop : tame.

Lemma tame_show_message m : tame (Client.show_message sys_exec m).
Proof. unfold Client.show_message. auto 10 with tame. Qed.

#[local] Hint Resolve tame_show_message : tame.

Lemma tame_dispatch c a : tame (Client.dispatch sys_exec sys_timestamp c a).
Proof.
  unfold Client.dispatch.
  repeat (apply tame_if; [auto 12 with tame|]).
  auto with tame.
Qed.

Lemma tame_process_command c :
  tame (Client.process_command sys_exec sys_timestamp c).
Proof.
  unfold Client.process_command. pose proof tame_dispatch. auto 10 with tame.
Qed.

Lemma tame_handle_line l : tame (Client.handle_line sys_exec sys_timestamp l).
Proof.
  unfold Client.handle_line. destruct (strip l); [apply tame_ret|].
  pose proof tame_process_command.
  apply tame_try; [|intros; auto with tame].
  apply tame_bind; [|auto].
  unfold Client.json_loads. destruct (loads _); auto with tame.
Qed.

Lemma tame_handle_all ls : tame (Client.handle_all sys_exec sys_timestamp ls).
Proof.
  induction ls; simpl; [apply tame_ret|].
  apply tame_bind; [apply tame_handle_line | auto].
Qed.

End Tame.

(** ** UTF-8 *)

Lemma utf8_run_app st a b :
  utf8_run st (a ++ b) =
    match utf8_run st a with
    | Some (st', o1) =>
        match utf8_run st' b with
        | Some (st'', o2) => Some (st'', o1 ++ o2)
        | None => None
        end
    | None => None
    end.
Proof.
  revert st. induction a as [|x r IH]; intros st; simpl.
  - destruct (utf8_run st b) as [[? ?]|]; reflexivity.
  - destruct (utf8_step st (Byte.to_N x)) as [[st'|c]|]; [apply IH| |reflexivity].
    rewrite IH. destruct (utf8_run Idle r) as [[st' o1]|]; [|reflexivity].
    destruct (utf8_run st' b) as [[? ?]|]; reflexivity.
Qed.

Lemma decode_app a b x y :
  decode a = Some x -> decode b = Some y -> decode (a ++ b) = Some (x ++ y).
Proof.
  unfold decode. rewrite utf8_run_app.
  destruct (utf8_run Idle a) as [[[|] o1]|]; try discriminate.
  destruct (utf8_run Idle b) as [[[|] o2]|]; try discriminate.
  intros H1 H2. inversion H1; inversion H2. reflexivity.
Qed.

Lemma utf8_pending_emits r : forall k acc lo hi out,
  utf8_run (Pending k acc lo hi) r = Some (Idle, out) -> out <> [].
Proof.
  induction r as [|b r IH]; intros k acc lo hi out; simpl.
  - discriminate.
  - destruct ((lo <=? Byte.to_N b)%N && (Byte.to_N b <=? hi)%N); [|discriminate].
    destruct k as [|[|k]]; [discriminate| |apply IH].
    destruct (utf8_run Idle r) as [[? ?]|]; [|discriminate].
    intros H; inversion H; discriminate.
Qed.

Lemma decode_nonempty c x : decode c = Some x -> c <> [] -> x <> [].
Proof.
  unfold decode. destruct c as [|b r]; [congruence|]. intros H _. simpl in H.
  unfold utf8_lead in H.
  repeat match type of H with
  | context [if ?t then _ else _] => destruct t
  end; try discriminate;
  match type of H with
  | context [utf8_run Idle r] =>
      destruct (utf8_run Idle r) as [[[|] ?]|]; try discriminate;
      inversion H; discriminate
  | _ =>
      match type of H with
      | context [utf8_run ?p r] =>
          destruct (utf8_run p r) as [[[|] o]|] eqn:E; try discriminate;
          inversion H; subst; eapply utf8_pending_emits; exact E
      end
  end.
Qed.

Lemma decode_concat (chunks : list bytes) :
  Forall (fun c : bytes => decode c <> None) chunks ->
  exists text, decode (List.concat chunks) = Some text.
Proof.
  induction 1 as [|c cs Hc _ IH]; simpl.
  - exists []. reflexivity.
  - destruct IH as [t Ht]. destruct (decode c) as [d|] eqn:E; [|congruence].
    exists (d ++ t). apply decode_app; assumption.
Qed.

Section Decoder.
Variable W : Type.
Variable sys_exec : Client.exec_call -> W -> W * option exn.
Variable sys_timestamp : W -> str.

Local Abbreviation handle_line := (Client.handle_line sys_exec sys_timestamp).
Local Abbreviation handle_all := (Client.handle_all sys_exec sys_timestamp).
Local Abbreviation drain := (Client.drain sys_exec sys_timestamp).
Local Abbreviation spec_drain := (Client.spec_drain sys_exec sys_timestamp).
Local Abbreviation listen_body := (Client.listen_body sys_exec sys_timestamp).
Local Abbreviation listen_loop := (Client.listen_loop sys_exec sys_timestamp).
Local Abbreviation listen_for_commands :=
  (Client.listen_for_commands sys_exec sys_timestamp).

(** The inner loop, given a budget of the length of the buffer, hands over
    the segments in order and keeps the remainder. *)
Lemma drain_spec fuel buffer (st : Client.client W) :
  (List.length buffer <= fuel)%nat -> drain fuel buffer st = spec_drain buffer st.
Proof.
  revert buffer st. induction fuel as [|fuel IH]; intros buffer st Hlen.
  - destruct buffer; [|simpl in Hlen; lia]. reflexivity.
  - unfold Client.spec_drain. simpl.
    destruct (contains NL buffer) eqn:C.
    + destruct (contains_split_once _ C) as (line & rest & E).
      rewrite E, (split_once_segments _ E). simpl.
      rewrite bind_assoc. apply bind_ext. intros _ s.
      apply split_once_length in E.
      rewrite IH by lia. reflexivity.
    + rewrite (contains_false_segments _ C). reflexivity.
Qed.

Lemma handle_all_app l1 l2 (st : Client.client W) :
  handle_all (l1 ++ l2) st = (handle_all l1 ;; handle_all l2) st.
Proof.
  revert st. induction l1 as [|l r IH]; intros st; simpl.
  - reflexivity.
  - rewrite bind_assoc. apply bind_ext. intros _ s. apply IH.
Qed.

Local Abbreviation whole_run := (Client.spec_session sys_exec sys_timestamp).

Lemma listen_body_data c d b (st : Client.client W) :
  decode c = Some d -> d <> [] ->
  listen_body (inr c) b st =
    match handle_all (fst (Client.spec_segments (b ++ d))) st with
    | (Ret _, s) => (Ret (Client.Continue (snd (Client.spec_segments (b ++ d)))), s)
    | (Raise e, s) =>
        (Ret Client.Break,
         Client.emit (Client.Log (if is_OSError e then Client.MsgConnectionLost
                                  else Client.MsgReceiveError e)) s)
    | (OutOfFuel, s) => (OutOfFuel, s)
    end.
Proof.
  intros Hd Hne. unfold Client.listen_body, try_except, Client.recv_decode.
  rewrite Hd. unfold bind at 1. unfold ret at 1.
  destruct d as [|x d']; [congruence|].
  unfold bind at 1. rewrite drain_spec by lia.
  unfold Client.spec_drain. unfold bind at 1.
  destruct (handle_all _ st) as [[[]|e|] s]; try reflexivity.
  destruct (is_OSError e); reflexivity.
Qed.

Lemma listen_loop_eof b (st : Client.client W) :
  listen_loop [] b st = (Ret tt, st).
Proof. unfold Client.listen_loop, bind, get. destruct (Client.running st); reflexivity. Qed.

Lemma handle_all_running ls (st : Client.client W) :
  Client.running (snd (handle_all ls st)) = Client.running st.
Proof. apply (tame_handle_all sys_exec sys_timestamp ls st). Qed.

Lemma listen_loop_cons c cs d b (st : Client.client W) :
  Client.running st = true -> decode c = Some d -> d <> [] ->
  listen_loop (inr c :: cs) b st =
    match handle_all (fst (Client.spec_segments (b ++ d))) st with
    | (Ret _, s) => listen_loop cs (snd (Client.spec_segments (b ++ d))) s
    | (Raise e, s) =>
        (Ret tt,
         Client.emit (Client.Log (if is_OSError e then Client.MsgConnectionLost
                                  else Client.MsgReceiveError e)) s)
    | (OutOfFuel, s) => (OutOfFuel, s)
    end.
Proof.
  intros Hr Hd Hne. simpl. unfold bind at 1, get at 1. rewrite Hr.
  unfold bind at 1. rewrite (@listen_body_data c d b st Hd Hne).
  destruct (handle_all _ st) as [[[]|e|] s]; reflexivity.
Qed.

Lemma listen_whole x t b (st : Client.client W) :
  Client.running st = true -> contains NL b = false -> decode x = Some t ->
  listen_loop [inr x] b st = whole_run b t st.
Proof.
  intros Hr Hb Hd. unfold Client.spec_session. destruct t as [|y t'].
  - assert (x = []) as ->.
    { destruct x as [|x0 x']; [reflexivity|].
      exfalso. eapply (@decode_nonempty (x0 :: x')); eauto; discriminate. }
    rewrite app_nil_r, (contains_false_segments _ Hb). simpl.
    unfold bind, get. rewrite Hr. reflexivity.
  - rewrite (@listen_loop_cons x [] (y :: t') b st Hr Hd) by discriminate.
    pose proof (handle_all_running (fst (Client.spec_segments (b ++ y :: t'))) st) as Hk.
    destruct (handle_all _ st) as [[[]|e|] s]; try reflexivity.
    apply listen_loop_eof.
Qed.

Lemma listen_chunks (chunks : list bytes) : forall t b (st : Client.client W),
  Client.running st = true -> contains NL b = false ->
  Forall (fun c : bytes => c <> [] /\ decode c <> None) chunks ->
  decode (List.concat chunks) = Some t ->
  listen_loop (map (@inr os_error bytes) chunks) b st = whole_run b t st.
Proof.
  induction chunks as [|c cs IH]; intros t b st Hr Hb Hall Hd.
  - simpl in Hd. inversion Hd; subst. rewrite listen_loop_eof.
    unfold Client.spec_session. rewrite app_nil_r, (contains_false_segments _ Hb).
    reflexivity.
  - inversion Hall as [|? ? [Hne Hc] Hcs]; subst.
    destruct (decode c) as [d|] eqn:Ed; [|congruence].
    destruct (@decode_concat cs) as [t' Et'].
    { eapply Forall_impl; [|exact Hcs]. intros ? [_ ?]; assumption. }
    simpl in Hd. rewrite (decode_app _ _ Ed Et') in Hd. inversion Hd; subst.
    cbn [map].
    rewrite (@listen_loop_cons c (map inr cs) d b st Hr Ed) by (eapply decode_nonempty; eauto).
    unfold Client.spec_session. rewrite app_assoc, (segments_app (b ++ d) t'). cbn [fst snd].
    rewrite handle_all_app. unfold bind.
    pose proof (handle_all_running (fst (Client.spec_segments (b ++ d))) st) as Hk.
    destruct (handle_all _ st) as [[[]|e|] s]; try reflexivity.
    simpl in Hk.
    rewrite (IH t' _ s); [reflexivity|congruence|apply segments_remainder|exact Hcs|exact Et'].
Qed.

End Decoder.

Section DecoderClaims.
Variable W : Type.
Variable sys_exec : Client.exec_call -> W -> W * option exn.
Variable sys_timestamp : W -> str.

Local Abbreviation handle_all := (Client.handle_all sys_exec sys_timestamp).
Local Abbreviation listen_body := (Client.listen_body sys_exec sys_timestamp).
Local Abbreviation listen_loop := (Client.listen_loop sys_exec sys_timestamp).
Local Abbreviation listen_for_commands :=
  (Client.listen_for_commands sys_exec sys_timestamp).

(** The part of the chunking property that the code has.  For every byte
    stream and every way of splitting it into non-empty reads each of which
    decodes on its own, the session ends in the same state, with the same
    events in the same order (the messages handed to the interpreter among
    them), as when the whole stream arrives in one read. *)
Theorem decoder_chunking (chunks : list bytes) (st : Client.client W) :
  Forall (fun c : bytes => c <> [] /\ decode c <> None) chunks ->
  listen_for_commands (map (@inr os_error bytes) chunks) st =
  listen_for_commands [inr (List.concat chunks)] st.
Proof.
  intros Hall. unfold Client.listen_for_commands.
  destruct (Client.running st) eqn:Hr.
  - destruct (@decode_concat chunks) as [t Ht].
    { eapply Forall_impl; [|exact Hall]. intros ? [_ ?]; assumption. }
    rewrite (listen_chunks sys_exec sys_timestamp (t:=t)); auto.
    symmetry. apply listen_whole; auto.
  - destruct chunks; simpl; unfold bind, get; rewrite Hr; reflexivity.
Qed.

(** C10.  Every pass of the read loop comes to an end; when the loop goes
    on to the next read, the buffer it keeps has no terminator in it: the
    segments of the buffer were handed over in order and what is kept is the
    text after the last terminator. *)
Theorem pass_leaves_no_terminator (r : Client.recv_result) (buffer : str)
    (st : Client.client W) :
  exists ctl st',
    listen_body r buffer st = (Ret ctl, st') /\
    match ctl with
    | Client.Break => True
    | Client.Continue kept =>
        contains NL kept = false /\
        exists c data,
          r = inr c /\ decode c = Some data /\
          kept = snd (Client.spec_segments (buffer ++ data)) /\
          handle_all (fst (Client.spec_segments (buffer ++ data))) st
            = (Ret tt, st')
    end.
Proof.
  destruct r as [k|c].
  - eexists Client.Break, _. split; [|exact I]. reflexivity.
  - destruct (decode c) as [[|x d]|] eqn:Ed.
    + eexists Client.Break, _. split; [|exact I].
      unfold Client.listen_body, try_except, Client.recv_decode, bind.
      rewrite Ed. reflexivity.
    + rewrite (@listen_body_data _ sys_exec sys_timestamp c (x :: d) buffer st Ed)
        by discriminate.
      pose proof (tame_handle_all sys_exec sys_timestamp
                    (fst (Client.spec_segments (buffer ++ x :: d))) st) as [Hf _].
      destruct (handle_all _ st) as [[[]|e|] s] eqn:E.
      * eexists (Client.Continue _), s. split; [reflexivity|].
        split; [apply segments_remainder|].
        exists c, (x :: d). auto.
      * eexists Client.Break, _. split; [reflexivity|exact I].
      * simpl in Hf. congruence.
    + eexists Client.Break, _. split; [|exact I].
      unfold Client.listen_body, try_except, Client.recv_decode, bind.
      rewrite Ed. reflexivity.
Qed.

(** A line that [json.loads] rejects is logged and skipped: the loop goes
    on with the next segment. *)
Lemma invalid_json_line_skipped (line : str) (st : Client.client W) :
  strip line <> [] -> loads (strip line) = JSONDecodeError ->
  Client.handle_line sys_exec sys_timestamp line st
  = (Ret tt, Client.emit (Client.Log Client.MsgInvalidJSON) st).
Proof.
  intros Hne Hl. unfold Client.handle_line.
  destruct (strip line) as [|c r] eqn:E; [congruence|].
  unfold try_except, bind, Client.json_loads. rewrite Hl. reflexivity.
Qed.

(** A line on which [json.loads] returns anything but a dictionary makes
    [process_command] raise [AttributeError], and the handler for
    [JSONDecodeError] lets it through. *)
Lemma non_object_line_raises (line : str) (v : value) (st : Client.client W) :
  strip line <> [] -> loads (strip line) = Parsed v ->
  match v with JDict _ => False | _ => True end ->
  Client.handle_line sys_exec sys_timestamp line st
  = (Raise AttributeError, Client.emit (Client.Deliver v) st).
Proof.
  intros Hne Hl Hv. unfold Client.handle_line.
  destruct (strip line) as [|c r] eqn:E; [congruence|].
  unfold try_except, bind, Client.json_loads. rewrite Hl.
  destruct v; try contradiction; reflexivity.
Qed.

End DecoderClaims.

(** C2 fails when a read ends inside a character.  The stream below is
    valid UTF-8: an object whose second value is the letter e with an acute
    accent (the bytes C3 A9), its terminator, and a ping.  Read at once it
    hands over both messages.  Read in parts that meet inside the two-byte
    letter, [recv(1024).decode()] raises [UnicodeDecodeError] on the first
    part, the handler of the read loop logs it and breaks: nothing is handed
    over, and the reads that follow are never made. *)
Theorem split_character_ends_session :
  let part1 := Demo.text "{'action': 'ping', 'by': '" ++ [xc3] in
  let part2 := [xa9] ++ Demo.line "'}" in
  let next := Demo.line "{'action': 'ping'}" in
  part1 <> [] /\ part2 <> [] /\
  decode (part1 ++ part2 ++ next) <> None /\
  Client.delivered
    (Client.trace (snd (Demo.session [inr (part1 ++ part2 ++ next)])))
  = [JDict [(lit "action", JStr (lit "ping")); (lit "by", JStr [233%N])];
     JDict [(lit "action", JStr (lit "ping"))]] /\
  Client.delivered
    (Client.trace (snd (Demo.session [inr part1; inr part2; inr next])))
  = [] /\
  Client.trace (snd (Demo.session [inr part1; inr part2; inr next]))
  = [Client.Log (Client.MsgReceiveError UnicodeDecodeError)].
Proof. repeat split; try discriminate; vm_compute; reflexivity. Qed.

(** The chunking theorem at work: the same stream cut between characters. *)
Lemma decoder_chunking_witness :
  let part1 := Demo.text "{'action': 'pi" in
  let part2 := Demo.line "ng'}" in
  Demo.session (map (@inr os_error bytes) [part1; part2])
  = Demo.session [inr (List.concat [part1; part2])].
Proof.
  intros part1 part2. unfold Demo.session.
  apply (@decoder_chunking Demo.world Demo.exec_ok Demo.timestamp [part1; part2]).
  repeat constructor; try discriminate; vm_compute; discriminate.
Defined.

(** C3 fails on a line that is JSON but not an object: [json.loads]
    accepts it, [command.get] raises [AttributeError] before the [try] of
    [process_command], the outer handler of the read loop logs it and
    breaks, and the command that follows on the same connection is never
    handed over.  A line that [json.loads] rejects is logged and skipped. *)
Theorem non_object_line_ends_session :
  Client.trace
    (snd (Demo.session [inr (Demo.line "[]" ++ Demo.line "{'action': 'ping'}")]))
  = [Client.Deliver (JList []);
     Client.Log (Client.MsgReceiveError AttributeError)]
  /\
  Client.trace
    (snd (Demo.session [inr (Demo.line "oops" ++ Demo.line "{'action': 'ping'}")]))
  = [Client.Log Client.MsgInvalidJSON;
     Client.Deliver (JDict [(lit "action", JStr (lit "ping"))]);
     Client.Log (Client.MsgReceived (JStr (lit "ping")))].
Proof. split; vm_compute; reflexivity. Qed.

Section InterpreterClaims.
Variable W : Type.
Variable sys_exec : Client.exec_call -> W -> W * option exn.
Variable sys_timestamp : W -> str.

Local Abbreviation dispatch := (Client.dispatch sys_exec sys_timestamp).
Local Abbreviation process_command :=
  (Client.process_command sys_exec sys_timestamp).

Lemma dispatch_unrecognized command action (st : Client.client W) :
  Client.recognized action = false ->
  dispatch command action st
  = (Ret tt, Client.emit (Client.Log (Client.MsgUnknown action)) st).
Proof.
  unfold Client.recognized, Client.recognized_actions. simpl.
  intros H. repeat (apply orb_false_elim in H; destruct H as [? H]).
  unfold Client.dispatch.
  repeat match goal with
  | E : Client.is_action action _ = false |- _ => rewrite E; clear E
  end.
  reflexivity.
Qed.

(** With a log that takes any text, handing a decoded object to the
    interpreter always returns normally and leaves the fields of the client
    object as they were.  An action without a branch is logged and nothing
    else happens; for an action with a branch, an exception that comes out
    of the branch is caught and logged by [process_command]. *)
Theorem interpreter_never_raises (d : dict) (st : Client.client W) :
  let action := Client.action_of d in
  let st0 :=
    Client.emit (Client.Log (Client.MsgReceived action))
                (Client.emit (Client.Deliver (JDict d)) st) in
  exists st',
    process_command (JDict d) st = (Ret tt, st') /\
    Client.same_fields st st' /\
    if Client.recognized action then
      match dispatch (JDict d) action st0 with
      | (Ret _, s) => st' = s
      | (Raise e, s) =>
          st' = Client.emit (Client.Log (Client.MsgExecError action e)) s
      | (OutOfFuel, _) => False
      end
    else st' = Client.emit (Client.Log (Client.MsgUnknown action)) st0.
Proof.
  intros action st0.
  pose proof (tame_process_command sys_exec sys_timestamp (JDict d) st) as [_ Hsame].
  pose proof (tame_dispatch sys_exec sys_timestamp (JDict d) action st0) as [Hfuel _].
  assert (Hrun : process_command (JDict d) st =
                 try_except (dispatch (JDict d) action) any_exception
                   (fun e => Client.log_message (Client.MsgExecError action e)) st0)
    by reflexivity.
  revert Hsame. rewrite Hrun. unfold try_except.
  destruct (Client.recognized action) eqn:Hrec.
  - destruct (dispatch (JDict d) action st0) as [[[]|e|] s]; simpl in *.
    + intros Hsame. exists s. auto.
    + intros Hsame. eexists. split; [reflexivity|]. split; [exact Hsame|reflexivity].
    + congruence.
  - rewrite (@dispatch_unrecognized (JDict d) action st0 Hrec). simpl. intros Hsame.
    eexists. split; [reflexivity|]. split; [exact Hsame|reflexivity].
Qed.

End InterpreterClaims.

(** Not every executor failure is logged.  For [close_apps] with [pkill]
    missing, the exception is swallowed by the bare [except: pass] around
    the loop: the interpreter returns, and no failure appears in the log. *)
Lemma silent_executor_failure_counterexample :
  let command := JDict [(lit "action", JStr (lit "close_apps"))] in
  let r := Client.process_command Demo.exec_missing Demo.timestamp command
             Demo.listening in
  fst r = Ret tt /\
  Client.trace (snd r)
  = [Client.Deliver command;
     Client.Log (Client.MsgReceived (JStr (lit "close_apps")));
     Client.Log Client.MsgClosingApps;
     Client.Exec (Client.Run (Client.argv ["pkill"; "-f"; "firefox"]%string)
                             false None)
                 (Some (OSError FileNotFoundError))] /\
  ~ In (Client.Log (Client.MsgExecError (JStr (lit "close_apps"))
                                        (OSError FileNotFoundError)))
       (Client.trace (snd r)).
Proof.
  split; [reflexivity|]. split; [vm_compute; reflexivity|].
  vm_compute. intros H. repeat (destruct H as [H|H]; [discriminate H|]). exact H.
Qed.

(** ** The interpreter with [print] as it is *)

Section PrintingFacts.
Variable W : Type.
Variable sys_exec : Client.exec_call -> W -> W * option exn.
Variable sys_timestamp : W -> str.

(** Around the agent's interpreter the loop of [Printing] is the loop of
    [Client]. *)
Lemma printing_handle_line line (st : Client.client W) :
  Printing.handle_line (Client.process_command sys_exec sys_timestamp) line st
  = Client.handle_line sys_exec sys_timestamp line st.
Proof. reflexivity. Qed.

Lemma printing_loop_same recvs buffer (st : Client.client W) :
  Printing.listen_loop (Client.process_command sys_exec sys_timestamp) recvs buffer st
  = Client.listen_loop sys_exec sys_timestamp recvs buffer st.
Proof. reflexivity. Qed.

(** A message whose log entries can all be printed is interpreted as in
    [Client]. *)
Lemma printing_log m v (st : Client.client W) :
  Printing.shows v = true ->
  Printing.log_message m v st = Client.log_message m st.
Proof. unfold Printing.log_message. intros ->. reflexivity. Qed.

Lemma plain_field d key default :
  Printing.plain d ->
  In key ["action"; "app"; "content"; "command"]%string ->
  Printing.shows default = true ->
  Printing.shows (match dict_get (lit key) d with
                  | Some v => v
                  | None => default
                  end) = true.
Proof.
  intros Hp Hk Hd. destruct (dict_get (lit key) d) as [v|] eqn:E; [|exact Hd].
  eapply Hp; eauto.
Qed.

Lemma printing_dispatch d action (st : Client.client W) :
  Printing.plain d -> Printing.shows action = true ->
  Printing.dispatch sys_exec sys_timestamp (JDict d) action st
  = Client.dispatch sys_exec sys_timestamp (JDict d) action st.
Proof.
  intros Hp Ha. unfold Printing.dispatch, Client.dispatch.
  repeat match goal with
  | |- (if ?b then _ else _) _ = (if ?b then _ else _) _ =>
      destruct b; [try reflexivity|]
  end.
  all: try (apply printing_log; exact Ha).
  all: cbn [Client.get_field]; unfold Printing.show_message, Client.show_message;
    unfold bind, ret; try destruct (Client.truthy _); try reflexivity;
    rewrite printing_log; try reflexivity;
    apply plain_field; first [exact Hp | cbn; tauto | reflexivity].
Qed.

Lemma printing_agrees d (st : Client.client W) :
  Printing.plain d ->
  Printing.process_command sys_exec sys_timestamp (JDict d) st
  = Client.process_command sys_exec sys_timestamp (JDict d) st.
Proof.
  intros Hp. unfold Printing.process_command, Client.process_command.
  apply bind_ext. intros _ s. cbn [Client.get_field].
  assert (Ha : Printing.shows
                 (match dict_get (lit "action") d with
                  | Some v => v
                  | None => JStr []
                  end) = true)
    by (apply plain_field; [exact Hp|cbn; tauto|reflexivity]).
  unfold bind, ret. rewrite (@printing_log _ _ _ Ha).
  cbn [Client.log_message modify]. unfold try_except.
  rewrite (@printing_dispatch d _ _ Hp Ha).
  destruct (Client.dispatch _ _ _ _ _) as [[u|e|] s']; try reflexivity.
  cbn [any_exception]. apply printing_log. exact Ha.
Qed.

(** An action that cannot be printed: the log entry before the [try] of
    [process_command] raises, and no handler of [process_command] is there
    to catch it. *)
Lemma unprintable_action_raises d s (st : Client.client W) :
  dict_get (lit "action") d = Some (JStr s) -> encode s = None ->
  Printing.process_command sys_exec sys_timestamp (JDict d) st
  = (Raise UnicodeEncodeError, Client.emit (Client.Deliver (JDict d)) st).
Proof.
  intros Hd He. unfold Printing.process_command, bind at 1.
  cbn [Client.note modify]. unfold bind at 1. cbn [Client.get_field ret].
  rewrite Hd. unfold bind at 1, Printing.log_message. cbn [Printing.shows].
  rewrite He. reflexivity.
Qed.

End PrintingFacts.

(** C4 fails on a message whose action cannot be printed.  [json.loads]
    accepts the escape of a lone surrogate; [process_command] logs the action
    before its [try], [print] raises [UnicodeEncodeError], the exception
    reaches the read loop, which logs it and breaks: the session is over and
    the command that follows on the same connection is never handed over.  A
    message with an unknown action that can be printed is logged and the
    loop goes on.  And an executor failure inside [close_apps] is caught but
    not logged. *)
Theorem unprintable_action_ends_session :
  Client.trace
    (snd (Demo.session_printing
            [inr (Demo.line "{'action': '\ud800'}" ++ Demo.line "{'action': 'ping'}")]))
  = [Client.Deliver (JDict [(lit "action", JStr [55296%N])]);
     Client.Log (Client.MsgReceiveError UnicodeEncodeError)]
  /\
  Client.trace
    (snd (Demo.session_printing
            [inr (Demo.line "{'action': 'dance'}" ++ Demo.line "{'action': 'ping'}")]))
  = [Client.Deliver (JDict [(lit "action", JStr (lit "dance"))]);
     Client.Log (Client.MsgReceived (JStr (lit "dance")));
     Client.Log (Client.MsgUnknown (JStr (lit "dance")));
     Client.Deliver (JDict [(lit "action", JStr (lit "ping"))]);
     Client.Log (Client.MsgReceived (JStr (lit "ping")))]
  /\
  Client.trace
    (snd (Printing.process_command Demo.exec_missing Demo.timestamp
            (JDict [(lit "action", JStr (lit "close_apps"))]) Demo.listening))
  = [Client.Deliver (JDict [(lit "action", JStr (lit "close_apps"))]);
     Client.Log (Client.MsgReceived (JStr (lit "close_apps")));
     Client.Log Client.MsgClosingApps;
     Client.Exec (Client.Run (Client.argv ["pkill"; "-f"; "firefox"]%string)
                             false None)
                 (Some (OSError FileNotFoundError))].
Proof. split; [|split]; vm_compute; reflexivity. Qed.

(** ** The text of a command and its decoding *)

Section JsonText.

Lemma hexval_hexdigit d : (d < 16)%N -> hexval (hexdigit d) = Some d.
Proof.
  intros H. unfold hexval, hexdigit.
  destruct (d <? 10)%N eqn:E.
  - apply N.ltb_lt in E.
    replace ((48 <=? 48 + d) && (48 + d <=? 57))%N with true.
    + f_equal. lia.
    + symmetry. apply andb_true_iff. split; apply N.leb_le; lia.
  - apply N.ltb_ge in E.
    replace ((48 <=? 87 + d) && (87 + d <=? 57))%N with false.
    + replace ((97 <=? 87 + d) && (87 + d <=? 102))%N with true.
      * f_equal. lia.
      * symmetry. apply andb_true_iff. split; apply N.leb_le; lia.
    + symmetry. apply andb_false_iff. right. apply N.leb_gt. lia.
Qed.

Lemma unhex4_hex4 n :
  (n < 65536)%N ->
  match hex4 n with
  | [a; b; c; d] => unhex4 a b c d = Some n
  | _ => False
  end.
Proof.
  intros H. unfold hex4, unhex4.
  rewrite !hexval_hexdigit by (apply N.mod_lt; discriminate).
  f_equal.
  zify. Z.to_euclidean_division_equations. lia.
Qed.

#[local] Arguments unhex4 : simpl never.
#[local] Arguments backslash : simpl never.
#[local] Arguments is_high : simpl never.
#[local] Arguments is_low : simpl never.
#[local] Arguments cons_ok : simpl never.
#[local] Arguments N.add : simpl never.
#[local] Arguments N.mul : simpl never.
#[local] Arguments N.sub : simpl never.

Ltac divlia := zify; Z.to_euclidean_division_equations; lia.

Lemma scan_plain c r :
  c <> 34%N -> (32 <= c)%N -> c <> 92%N ->
  scanstring (c :: r) = cons_ok c (scanstring r).
Proof.
  intros H1 H2 H3. simpl.
  apply N.eqb_neq in H1. apply N.eqb_neq in H3. rewrite H1, H3.
  replace (c <? 32)%N with false by (symmetry; apply N.ltb_ge; lia).
  reflexivity.
Qed.

Lemma scan_backslash e x r :
  e <> 117%N -> backslash e = Some x ->
  scanstring (92%N :: e :: r) = cons_ok x (scanstring r).
Proof.
  intros H1 H2. simpl. apply N.eqb_neq in H1. rewrite H1, H2. reflexivity.
Qed.

Lemma scan_u h1 h2 h3 h4 u r :
  unhex4 h1 h2 h3 h4 = Some u -> is_high u = false ->
  scanstring (92%N :: 117%N :: h1 :: h2 :: h3 :: h4 :: r)
  = cons_ok u (scanstring r).
Proof.
  intros H1 H2. simpl. rewrite H1, H2.
  destruct r as [|b [|u' r3]]; reflexivity.
Qed.

Lemma scan_pair h1 h2 h3 h4 g1 g2 g3 g4 hi lo r :
  unhex4 h1 h2 h3 h4 = Some hi -> unhex4 g1 g2 g3 g4 = Some lo ->
  is_high hi = true -> is_low lo = true ->
  scanstring (92%N :: 117%N :: h1 :: h2 :: h3 :: h4 ::
              92%N :: 117%N :: g1 :: g2 :: g3 :: g4 :: r)
  = cons_ok (65536 + ((hi - 55296) * 1024 + (lo - 56320)))%N (scanstring r).
Proof.
  intros H1 H2 H3 H4. simpl. rewrite H1, H2, H3, H4. reflexivity.
Qed.

Lemma scan_escape c r :
  scalar c -> scanstring (escape_char c ++ r) = cons_ok c (scanstring r).
Proof.
  intros Hc. unfold escape_char.
  destruct (c =? 34)%N eqn:E1; [apply N.eqb_eq in E1; subst; reflexivity|].
  destruct (c =? 92)%N eqn:E2; [apply N.eqb_eq in E2; subst; reflexivity|].
  destruct (c =? 10)%N eqn:E3; [apply N.eqb_eq in E3; subst; reflexivity|].
  destruct (c =? 13)%N eqn:E4; [apply N.eqb_eq in E4; subst; reflexivity|].
  destruct (c =? 9)%N eqn:E5; [apply N.eqb_eq in E5; subst; reflexivity|].
  destruct (c =? 8)%N eqn:E6; [apply N.eqb_eq in E6; subst; reflexivity|].
  destruct (c =? 12)%N eqn:E7; [apply N.eqb_eq in E7; subst; reflexivity|].
  apply N.eqb_neq in E1, E2.
  destruct ((32 <=? c) && (c <=? 126))%N eqn:E8.
  - apply andb_true_iff in E8. destruct E8 as [L _]. apply N.leb_le in L.
    apply scan_plain; assumption.
  - destruct (c <? 65536)%N eqn:E9.
    + apply N.ltb_lt in E9. pose proof (unhex4_hex4 E9) as Hx.
      unfold uescape, hex4 in *. cbn [app].
      apply scan_u; [exact Hx|].
      unfold is_high. apply andb_false_iff.
      destruct Hc as [Hc|[Hc _]]; [left; apply N.leb_gt; lia|right; apply N.leb_gt; lia].
    + apply N.ltb_ge in E9.
      destruct Hc as [Hc|[_ Hc]]; [lia|].
      set (hi := (55296 + ((c - 65536) / 1024) mod 1024)%N).
      set (lo := (56320 + (c - 65536) mod 1024)%N).
      assert (Hhi : (hi < 65536)%N) by (unfold hi; divlia).
      assert (Hlo : (lo < 65536)%N) by (unfold lo; divlia).
      pose proof (unhex4_hex4 Hhi) as Xh. pose proof (unhex4_hex4 Hlo) as Xl.
      unfold uescape, hex4 in *. cbn [app].
      rewrite (scan_pair _ _ _ _ _ _ _ _ _ Xh Xl).
      * f_equal. unfold hi, lo. divlia.
      * unfold is_high, hi. apply andb_true_iff.
        split; apply N.leb_le; divlia.
      * unfold is_low, lo. apply andb_true_iff.
        split; apply N.leb_le; divlia.
Qed.

Lemma scanstring_escaped s tail :
  is_text s ->
  scanstring (flat_map escape_char s ++ 34%N :: tail) = POk (s, tail).
Proof.
  induction 1 as [|c r Hc _ IH]; simpl; [reflexivity|].
  rewrite <- app_assoc, (scan_escape _ Hc), IH. reflexivity.
Qed.

#[local] Arguments scanstring : simpl never.
#[local] Arguments dict_set : simpl never.
#[local] Arguments flat_map : simpl never.

Lemma dumps_command c : dumps (Server.to_value c) = Server.command_text c.
Proof.
  unfold Server.command_text, Server.to_value. cbn [dumps]. do 2 f_equal.
  induction c as [|[k v] r IH]; [reflexivity|].
  destruct r as [|kv r']; [reflexivity|].
  cbn [map fst snd Server.items_text] in *. rewrite IH.
  unfold Server.item_text. cbn [fst snd dumps]. rewrite <- !app_assoc. reflexivity.
Qed.

Lemma items_text_cons k v r :
  Server.items_text ((k, v) :: r) =
    34%N :: flat_map escape_char k ++
    34%N :: 58%N :: 32%N :: 34%N :: flat_map escape_char v ++
    34%N :: match r with
            | [] => []
            | _ :: _ => 44%N :: 32%N :: Server.items_text r
            end.
Proof.
  destruct r as [|p r].
  - cbn [Server.items_text]. unfold Server.item_text, dumps_str. cbn [fst snd].
    change (lit ": ") with [58%N; 32%N]. cbn [app].
    rewrite <- !app_assoc. reflexivity.
  - change (Server.items_text ((k, v) :: p :: r))
      with (Server.item_text (k, v) ++ lit ", " ++ Server.items_text (p :: r)).
    generalize (Server.items_text (p :: r)). intros t.
    unfold Server.item_text, dumps_str. cbn [fst snd].
    change (lit ": ") with [58%N; 32%N]. change (lit ", ") with [44%N; 32%N].
    repeat (rewrite <- app_assoc || rewrite <- app_comm_cons). reflexivity.
Qed.

Local Abbreviation store := Server.store.

Lemma skip_ws_space r : skip_ws (32%N :: r) = skip_ws r.
Proof. reflexivity. Qed.

Lemma skip_ws_stop c r : is_ws c = false -> skip_ws (c :: r) = c :: r.
Proof. intros H. simpl. rewrite H. reflexivity. Qed.

Lemma scan_once_string n r :
  scan_once (S n) (34%N :: r)
  = pbind (scanstring r) (fun p => POk (JStr (fst p), snd p)).
Proof. reflexivity. Qed.

(** One round of the object loop on a key, a colon and a string value
    followed by [next]. *)
Lemma parse_object_item n acc k v next :
  is_text k -> is_text v ->
  parse_object (S (S n)) acc
    (flat_map escape_char k ++
     34%N :: 58%N :: 32%N :: 34%N :: flat_map escape_char v ++ 34%N :: next)
  = match skip_ws next with
    | d :: r6 =>
        if (d =? 125)%N then POk (JDict (dict_set k (JStr v) acc), r6)
        else if (d =? 44)%N then
          match skip_ws r6 with
          | q :: r8 =>
              if (q =? 34)%N
              then parse_object (S n) (dict_set k (JStr v) acc) r8
              else PErr
          | [] => PErr
          end
        else PErr
    | [] => PErr
    end.
Proof.
  intros Hk Hv.
  change (parse_object (S (S n)) acc ?s) with
    (pbind (scanstring s) (fun kr =>
        match skip_ws (snd kr) with
        | c :: r2 =>
            if negb (c =? 58)%N then PErr
            else
              pbind (scan_once (S n) (skip_ws r2)) (fun vr =>
                let acc' := dict_set (fst kr) (fst vr) acc in
                match skip_ws (snd vr) with
                | d :: r6 =>
                    if (d =? 125)%N then POk (JDict acc', r6)
                    else if (d =? 44)%N then
                      match skip_ws r6 with
                      | q :: r8 =>
                          if (q =? 34)%N then parse_object (S n) acc' r8 else PErr
                      | [] => PErr
                      end
                    else PErr
                | [] => PErr
                end)
        | [] => PErr
        end)).
  rewrite (scanstring_escaped _ Hk). cbn [pbind fst snd].
  rewrite skip_ws_stop by reflexivity.
  change (negb (58 =? 58)%N) with false. cbv iota.
  rewrite skip_ws_space, skip_ws_stop by reflexivity.
  rewrite scan_once_string, (scanstring_escaped _ Hv). reflexivity.
Qed.

Lemma parse_items c : forall acc n tail,
  c <> [] -> (List.length c < n)%nat ->
  Forall (fun kv => is_text (fst kv) /\ is_text (snd kv)) c ->
  parse_object n acc (tl (Server.items_text c) ++ 125%N :: tail)
  = POk (JDict (store acc c), tail).
Proof.
  induction c as [|[k v] r IH]; intros acc n tail Hne Hlen Hall; [congruence|].
  inversion Hall as [|? ? [Hk Hv] Hr]; subst. cbn [fst snd] in *.
  rewrite items_text_cons. cbn [tl].
  destruct n as [|[|n']]; cbn [List.length] in Hlen; try lia.
  repeat (rewrite <- app_assoc || rewrite <- app_comm_cons).
  rewrite (parse_object_item _ _ _ Hk Hv).
  destruct r as [|[k2 v2] r'].
  - reflexivity.
  - rewrite items_text_cons.
    repeat (rewrite <- app_assoc || rewrite <- app_comm_cons).
    rewrite skip_ws_stop by reflexivity.
    change (44 =? 125)%N with false. change (44 =? 44)%N with true. cbv iota.
    rewrite skip_ws_space, skip_ws_stop by reflexivity.
    change (34 =? 34)%N with true. cbv iota.
    specialize (IH (dict_set k (JStr v) acc) (S n') tail).
    rewrite items_text_cons in IH. cbn [tl] in IH.
    repeat (rewrite <- app_assoc in IH || rewrite <- app_comm_cons in IH).
    rewrite IH; [reflexivity|discriminate|cbn [List.length] in *; lia|exact Hr].
Qed.

#[local] Arguments scanstring : simpl never.
#[local] Arguments dict_set : simpl never.
#[local] Arguments flat_map : simpl never.

Lemma str_eqb_eq a b : str_eqb a b = true <-> a = b.
Proof.
  unfold str_eqb. destruct (list_eq_dec N.eq_dec a b); split; congruence.
Qed.

Lemma str_eqb_neq a b : a <> b -> str_eqb a b = false.
Proof. unfold str_eqb. destruct (list_eq_dec N.eq_dec a b); congruence. Qed.

Lemma dict_set_fresh k v acc :
  ~ In k (map fst acc) -> dict_set k v acc = acc ++ [(k, v)].
Proof.
  induction acc as [|[k' v'] r IH]; intros H; [reflexivity|].
  unfold dict_set; fold dict_set. cbn [map fst In] in H.
  rewrite str_eqb_neq by tauto. rewrite IH by tauto. reflexivity.
Qed.

Lemma store_fresh c : forall acc,
  NoDup (map fst acc ++ map fst c) ->
  store acc c = acc ++ map (fun kv => (fst kv, JStr (snd kv))) c.
Proof.
  induction c as [|[k v] r IH]; intros acc H; cbn [Server.store fold_left map fst snd].
  - symmetry. apply app_nil_r.
  - fold (Server.store (dict_set k (JStr v) acc) r).
    pose proof (NoDup_remove_2 _ _ _ H) as Hk.
    rewrite dict_set_fresh by (intros X; apply Hk, in_or_app; auto).
    rewrite IH.
    + rewrite <- app_assoc. reflexivity.
    + rewrite map_app. cbn [map fst]. rewrite <- app_assoc. exact H.
Qed.

Lemma items_text_length c : (List.length c <= List.length (Server.items_text c))%nat.
Proof.
  induction c as [|[k v] r IH]; [simpl; lia|].
  rewrite items_text_cons. destruct r.
  - cbn [List.length]. lia.
  - cbn [List.length] in *. rewrite length_app. cbn [List.length].
    rewrite length_app. cbn [List.length]. lia.
Qed.

(** [json.loads] gives back the command that [json.dumps] was given. *)
Lemma loads_dumps c :
  Server.well_formed c -> loads (dumps (Server.to_value c)) = Parsed (Server.to_value c).
Proof.
  intros [Hnd Htext]. rewrite dumps_command.
  unfold Server.command_text. change (lit "{") with [123%N]. change (lit "}") with [125%N].
  cbn [app]. unfold loads.
  rewrite skip_ws_stop by reflexivity.
  cbn [List.length scan_once]. change (123 =? 34)%N with false.
  change (123 =? 123)%N with true. cbv iota.
  destruct c as [|[k v] r].
  - reflexivity.
  - remember ((k, v) :: r) as c eqn:Ec.
    assert (Hq : Server.items_text c = 34%N :: tl (Server.items_text c))
      by (subst c; rewrite items_text_cons; reflexivity).
    rewrite Hq at 1. cbn [app].
    rewrite skip_ws_stop by reflexivity.
    change (34 =? 125)%N with false. change (34 =? 34)%N with true. cbv iota.
    rewrite parse_items.
    + rewrite store_fresh by exact Hnd. reflexivity.
    + subst c; discriminate.
    + rewrite length_app. pose proof (items_text_length c). lia.
    + exact Htext.
Qed.

#[local] Arguments flat_map : simpl never.

(** ** What [json.dumps] writes is printable ASCII *)

Lemma hexdigit_printable d : (d < 16)%N -> printable (hexdigit d).
Proof.
  intros H. unfold printable, hexdigit. destruct (d <? 10)%N eqn:E.
  - apply N.ltb_lt in E. lia.
  - apply N.ltb_ge in E. lia.
Qed.

Lemma uescape_printable n : Forall printable (uescape n).
Proof.
  unfold uescape, hex4.
  repeat (constructor; [first [unfold printable; lia
                             | apply hexdigit_printable, N.mod_lt; discriminate]|]).
  constructor.
Qed.

Lemma escape_char_printable c : Forall printable (escape_char c).
Proof.
  unfold escape_char.
  repeat match goal with
  | |- Forall _ (if ?t then _ else _) => destruct t eqn:?
  end;
  try solve [repeat (constructor; [unfold printable; lia|]); constructor].
  - apply andb_true_iff in Heqb6. destruct Heqb6 as [A B].
    apply N.leb_le in A, B. repeat constructor; assumption.
  - apply uescape_printable.
  - apply Forall_app. split; apply uescape_printable.
Qed.

Lemma dumps_str_printable s : Forall printable (dumps_str s).
Proof.
  unfold dumps_str. constructor; [unfold printable; lia|].
  apply Forall_app. split.
  - induction s as [|c r IH]; [constructor|].
    unfold flat_map; fold (flat_map escape_char r).
    apply Forall_app. split; [apply escape_char_printable|exact IH].
  - repeat constructor; unfold printable; lia.
Qed.

Lemma item_text_printable kv : Forall printable (Server.item_text kv).
Proof.
  unfold Server.item_text. apply Forall_app. split; [apply dumps_str_printable|].
  apply Forall_app. split; [|apply dumps_str_printable].
  repeat constructor; unfold printable; simpl; lia.
Qed.

Lemma items_text_printable c : Forall printable (Server.items_text c).
Proof.
  induction c as [|kv r IH]; [constructor|].
  destruct r as [|kv' r']; [apply item_text_printable|].
  change (Server.items_text (kv :: kv' :: r'))
    with (Server.item_text kv ++ lit ", " ++ Server.items_text (kv' :: r')).
  apply Forall_app. split; [apply item_text_printable|].
  apply Forall_app. split; [|exact IH].
  repeat constructor; unfold printable; simpl; lia.
Qed.

(** ** Printable text on the wire *)

Lemma printable_no_newline s : Forall printable s -> contains NL s = false.
Proof.
  induction 1 as [|c r Hc _ IH]; [reflexivity|]. simpl.
  replace (c =? NL)%N with false; [exact IH|].
  symmetry. apply N.eqb_neq. unfold printable, NL in *. lia.
Qed.

Lemma byte_of_to_N c : (c < 256)%N -> Byte.to_N (byte_of c) = c.
Proof.
  intros H. unfold byte_of. destruct (Byte.of_N c) eqn:E.
  - apply Byte.to_of_N. exact E.
  - apply Byte.of_N_None_iff in E. lia.
Qed.

Lemma encode_ascii s : is_ascii s -> encode s = Some (map byte_of s).
Proof.
  induction 1 as [|c r Hc _ IH]; [reflexivity|]. simpl.
  unfold utf8_char. apply N.ltb_lt in Hc. rewrite Hc, IH. reflexivity.
Qed.

Lemma decode_ascii s : is_ascii s -> decode (map byte_of s) = Some s.
Proof.
  unfold decode. intros H.
  assert (utf8_run Idle (map byte_of s) = Some (Idle, s)) as ->; [|reflexivity].
  induction H as [|c r Hc _ IH]; [reflexivity|]. simpl.
  rewrite byte_of_to_N by lia. unfold utf8_lead.
  apply N.ltb_lt in Hc. rewrite Hc, IH. reflexivity.
Qed.

Lemma printable_ascii s : Forall printable s -> is_ascii s.
Proof. apply Forall_impl. unfold printable. intros; lia. Qed.

Lemma split_once_line s :
  contains NL s = false -> split_once NL (s ++ [NL]) = Some (s, []).
Proof.
  induction s as [|c r IH]; simpl; [reflexivity|].
  destruct (c =? NL)%N; [discriminate|]. intros H. rewrite (IH H). reflexivity.
Qed.

Lemma segments_line s :
  contains NL s = false -> Client.spec_segments (s ++ [NL]) = ([s], []).
Proof.
  intros H. rewrite (split_once_segments _ (split_once_line _ H)). reflexivity.
Qed.

Lemma lstrip_stop c r : isspace c = false -> lstrip (c :: r) = c :: r.
Proof. intros H. simpl. rewrite H. reflexivity. Qed.

Lemma strip_braces mid : strip (123%N :: mid ++ [125%N]) = 123%N :: mid ++ [125%N].
Proof.
  unfold strip, rstrip. rewrite lstrip_stop by reflexivity.
  change (123%N :: mid ++ [125%N]) with ([123%N] ++ mid ++ [125%N]).
  rewrite !rev_app_distr. cbn [rev app].
  rewrite lstrip_stop by reflexivity.
  change (125%N :: rev mid ++ [123%N]) with ([125%N] ++ rev mid ++ [123%N]).
  rewrite !rev_app_distr. cbn [rev app]. rewrite rev_involutive. reflexivity.
Qed.

Lemma command_text_printable c : Forall printable (Server.command_text c).
Proof.
  unfold Server.command_text. apply Forall_app. split.
  - repeat constructor; unfold printable; simpl; lia.
  - apply Forall_app. split; [apply items_text_printable|].
    repeat constructor; unfold printable; simpl; lia.
Qed.

(** The line the controller writes for a command. *)
Lemma line_bytes_command c :
  Server.line_bytes (dumps (Server.to_value c))
  = Some (map byte_of (Server.command_text c ++ [NL])).
Proof.
  unfold Server.line_bytes. rewrite dumps_command.
  rewrite encode_ascii by (apply printable_ascii, command_text_printable).
  rewrite map_app. reflexivity.
Qed.

Lemma decode_line c :
  decode (map byte_of (Server.command_text c ++ [NL]))
  = Some (Server.command_text c ++ [NL]).
Proof.
  apply decode_ascii. apply Forall_app. split.
  - apply printable_ascii, command_text_printable.
  - repeat constructor.
Qed.

End JsonText.

(** ** The decoder stays within its budget *)

Section JsonBudget.

#[local] Arguments unhex4 : simpl never.
#[local] Arguments backslash : simpl never.
#[local] Arguments is_high : simpl never.
#[local] Arguments is_low : simpl never.
#[local] Arguments cons_ok : simpl never.
#[local] Arguments N.eqb : simpl never.
#[local] Arguments N.ltb : simpl never.
#[local] Arguments N.leb : simpl never.
#[local] Arguments N.add : simpl never.
#[local] Arguments N.mul : simpl never.
#[local] Arguments N.sub : simpl never.
#[local] Arguments take_digits : simpl never.

Lemma cons_ok_inv c m x r :
  cons_ok c m = POk (x, r) -> exists x', m = POk (x', r).
Proof.
  unfold cons_ok, pbind. destruct m as [[x' r']| |]; try discriminate.
  intros H. inversion H; subst. eauto.
Qed.

Ltac break_scan H :=
  repeat match type of H with
  | context [if ?b then _ else _] => destruct b
  | context [match ?x with _ => _ end] => destruct x
  end.

Lemma scanstring_shorter n : forall s x r,
  (List.length s <= n)%nat -> scanstring s = POk (x, r) ->
  (List.length r < List.length s)%nat.
Proof.
  induction n as [|n IH]; intros s x r Hlen H.
  - destruct s; [discriminate|simpl in Hlen; lia].
  - destruct s as [|c s]; [discriminate|]. simpl in H. simpl in Hlen.
    break_scan H; try discriminate;
      try (inversion H; subst; simpl; lia);
      apply cons_ok_inv in H; destruct H as [x' H];
      apply IH in H; simpl in *; lia.
Qed.

Lemma skip_ws_length s : (List.length (skip_ws s) <= List.length s)%nat.
Proof.
  induction s as [|c r IH]; simpl; [lia|].
  destruct (is_ws c); simpl; lia.
Qed.

Lemma take_digits_length s :
  (List.length (snd (take_digits s)) <= List.length s)%nat.
Proof.
  induction s as [|c r IH]; [simpl; lia|].
  unfold take_digits; fold take_digits.
  destruct (is_digit c); cbn [snd List.length]; lia.
Qed.

Lemma match_int_shorter s ip r :
  match_int s = Some (ip, r) -> (List.length r < List.length s)%nat.
Proof.
  unfold match_int. destruct s as [|c s]; [discriminate|].
  pose proof (take_digits_length s).
  destruct (_ && _); [intros H'; inversion H'; subst; cbn [List.length]; lia|].
  destruct (c =? 48)%N; [|discriminate].
  intros H'; inversion H'; subst; cbn [List.length]; lia.
Qed.

Lemma match_frac_length s :
  (List.length (snd (match_frac s)) <= List.length s)%nat.
Proof.
  unfold match_frac. destruct s as [|c [|d r]]; cbn [snd]; try lia.
  pose proof (take_digits_length (d :: r)).
  destruct ((c =? 46)%N && is_digit d); cbn [snd List.length] in *; lia.
Qed.

Lemma match_exp_length s :
  (List.length (snd (match_exp s)) <= List.length s)%nat.
Proof.
  unfold match_exp. destruct s as [|e r]; cbn [snd]; [lia|].
  destruct ((e =? 101)%N || (e =? 69)%N); cbn [snd]; [|lia].
  destruct r as [|g [|d r']]; cbn [snd]; try lia.
  - destruct (is_digit g); cbn [snd List.length]; lia.
  - pose proof (take_digits_length (d :: r')).
    pose proof (take_digits_length (g :: d :: r')).
    destruct (((g =? 43)%N || (g =? 45)%N) && is_digit d);
      [cbn [snd List.length] in *; lia|].
    destruct (is_digit g); cbn [snd List.length] in *; lia.
Qed.

Lemma match_number_shorter s v r :
  match_number s = Some (v, r) -> (List.length r < List.length s)%nat.
Proof.
  unfold match_number. cbv zeta.
  set (neg := match s with c :: _ => (c =? 45)%N | [] => false end).
  assert (Hs1 : (List.length (if neg then tl s else s) <= List.length s)%nat)
    by (destruct neg, s; simpl; lia).
  destruct (match_int _) as [[ip r1]|] eqn:E; [|discriminate].
  apply match_int_shorter in E.
  pose proof (match_frac_length r1) as Hf.
  destruct (match_frac r1) as [fp r2]. simpl in Hf.
  pose proof (match_exp_length r2) as He.
  destruct (match_exp r2) as [ep r3]. simpl in He.
  destruct fp, ep; intros H; inversion H; subst; lia.
Qed.

Lemma strip_prefix_length p : forall s r,
  strip_prefix p s = Some r ->
  (List.length r + List.length p = List.length s)%nat.
Proof.
  induction p as [|a p IH]; intros s r H; simpl in *.
  - inversion H; subst. lia.
  - destruct s as [|b s]; [discriminate|].
    destruct (a =? b)%N; [|discriminate]. apply IH in H. simpl. lia.
Qed.

Lemma constant_shorter name v s other w r :
  lit name <> [] ->
  (forall w r, other = POk (w, r) -> (List.length r < List.length s)%nat) ->
  constant name v s other = POk (w, r) ->
  (List.length r < List.length s)%nat.
Proof.
  intros Hn Ho. unfold constant.
  destruct (strip_prefix (lit name) s) as [r'|] eqn:E; [|apply Ho].
  intros H. inversion H; subst. apply strip_prefix_length in E.
  destruct (lit name); [congruence|]. simpl in E. lia.
Qed.

Lemma constant_fuel name v s other :
  other <> PFuel -> constant name v s other <> PFuel.
Proof.
  intros Ho. unfold constant. destruct (strip_prefix (lit name) s); [discriminate|exact Ho].
Qed.

Lemma number_or_fail_shorter s w r :
  number_or_fail s = POk (w, r) -> (List.length r < List.length s)%nat.
Proof.
  unfold number_or_fail. destruct (match_number s) as [[v' r']|] eqn:E; [|discriminate].
  intros H. inversion H; subst. eapply match_number_shorter; eauto.
Qed.

Lemma number_or_fail_fuel s : number_or_fail s <> PFuel.
Proof. unfold number_or_fail. destruct (match_number s); discriminate. Qed.

Lemma cons_ok_fuel c m : cons_ok c m = PFuel -> m = PFuel.
Proof. unfold cons_ok, pbind. destruct m as [[x' r']| |]; congruence. Qed.

Lemma scanstring_fuel n : forall s,
  (List.length s <= n)%nat -> scanstring s <> PFuel.
Proof.
  induction n as [|n IH]; intros s Hlen H.
  - destruct s; [discriminate|simpl in Hlen; lia].
  - destruct s as [|c s]; [discriminate|]. simpl in H. simpl in Hlen.
    break_scan H; try discriminate;
      (apply cons_ok_fuel in H; apply IH in H; [exact H|simpl in *; lia]).
Qed.

Lemma budget_string r s :
  (List.length r < List.length s)%nat ->
  within_budget
    (fun _ => pbind (scanstring r) (fun p => POk (JStr (fst p), snd p))) s.
Proof.
  intros Hl. split.
  - destruct (scanstring r) as [[x t]| |] eqn:E; cbn; try discriminate.
    exfalso. eapply scanstring_fuel; eauto.
  - intros v t. destruct (scanstring r) as [[x t']| |] eqn:E; cbn; try discriminate.
    intros H. inversion H; subst. apply (@scanstring_shorter _ _ _ _ (le_n _)) in E. lia.
Qed.

Lemma budget_weaken (f : str -> pres (value * str)) s s' :
  within_budget f s' -> f s = f s' ->
  (List.length s' <= List.length s)%nat -> within_budget f s.
Proof.
  intros [Hf Hs] E Hl. unfold Json.within_budget. rewrite E. split; [exact Hf|].
  intros v r H. apply Hs in H. lia.
Qed.

Ltac stuck := split; [discriminate|intros; discriminate].

(** With a budget above twice the length of the text, no part of the
    decoder runs out of it, and each part that succeeds has consumed some
    text. *)
Lemma decoder_budget n :
  (forall s, (2 * List.length s < n)%nat -> within_budget (scan_once n) s) /\
  (forall acc s, (2 * List.length s < n)%nat ->
     within_budget (parse_object n acc) s) /\
  (forall acc s, (2 * List.length s + 1 < n)%nat ->
     within_budget (parse_array n acc) s).
Proof.
  induction n as [|n (IHs & IHo & IHa)]; [repeat split; intros; lia|].
  split; [|split].
  - intros s Hl. destruct s as [|c r]; [stuck|].
    cbn [List.length] in Hl. unfold Json.within_budget. cbn [scan_once].
    destruct (c =? 34)%N.
    { apply (@budget_string r (c :: r)). cbn; lia. }
    destruct (c =? 123)%N.
    { pose proof (skip_ws_length r) as Hw.
      destruct (skip_ws r) as [|c1 r2]; [stuck|].
      cbn [List.length] in Hw.
      destruct (c1 =? 125)%N.
      { split; [discriminate|]. intros v t H. inversion H; subst. cbn. lia. }
      destruct (c1 =? 34)%N; [|stuck].
      destruct (IHo [] r2) as [Hf Hs]; [lia|].
      split; [exact Hf|]. intros v t H. apply Hs in H. cbn. lia. }
    destruct (c =? 91)%N.
    { pose proof (skip_ws_length r) as Hw.
      destruct (skip_ws r) as [|c1 r2]; [stuck|].
      cbn [List.length] in Hw.
      destruct (c1 =? 93)%N.
      { split; [discriminate|]. intros v t H. inversion H; subst. cbn. lia. }
      destruct (IHa [] (c1 :: r2)) as [Hf Hs]; [cbn; lia|].
      split; [exact Hf|]. intros v t H. apply Hs in H. cbn in *. lia. }
    assert (Hnum : within_budget (fun _ => number_or_fail (c :: r)) (c :: r)).
    { split; [apply number_or_fail_fuel|]. intros v t. apply number_or_fail_shorter. }
    assert (Hc : forall name v other,
               lit name <> [] ->
               within_budget (fun _ => other) (c :: r) ->
               within_budget (fun _ => constant name v (c :: r) other) (c :: r)).
    { intros name v other Hn [Hf Hs]. split.
      - apply constant_fuel. exact Hf.
      - intros w t. apply constant_shorter; assumption. }
    assert (Herr : within_budget (fun _ => @PErr (value * str)) (c :: r)) by stuck.
    unfold Json.within_budget in Hnum, Hc, Herr.
    destruct (c =? 110)%N; [apply (Hc "null"%string); [discriminate|exact Herr]|].
    destruct (c =? 116)%N; [apply (Hc "true"%string); [discriminate|exact Herr]|].
    destruct (c =? 102)%N; [apply (Hc "false"%string); [discriminate|exact Herr]|].
    destruct (c =? 78)%N; [apply (Hc "NaN"%string); [discriminate|exact Herr]|].
    destruct (c =? 73)%N; [apply (Hc "Infinity"%string); [discriminate|exact Herr]|].
    destruct (c =? 45)%N; [apply (Hc "-Infinity"%string); [discriminate|exact Hnum]|].
    exact Hnum.
  - intros acc s Hl. unfold Json.within_budget. cbn [parse_object].
    pose proof (@scanstring_fuel _ s (le_n _)) as Hsf.
    destruct (scanstring s) as [[k r1]| |] eqn:Ek; cbn [pbind fst snd];
      [|stuck|congruence].
    apply (@scanstring_shorter _ _ _ _ (le_n _)) in Ek.
    pose proof (skip_ws_length r1) as Hw1.
    destruct (skip_ws r1) as [|c r2]; [stuck|].
    cbn [List.length] in Hw1.
    destruct (negb (c =? 58)%N); [stuck|].
    pose proof (skip_ws_length r2) as Hw2.
    destruct (IHs (skip_ws r2)) as [Hvf Hvs]; [lia|].
    destruct (scan_once n (skip_ws r2)) as [[v r4]| |]; cbn [pbind fst snd];
      [|stuck|congruence].
    specialize (Hvs _ _ eq_refl).
    pose proof (skip_ws_length r4) as Hw4.
    destruct (skip_ws r4) as [|d r6]; [stuck|].
    cbn [List.length] in Hw4.
    destruct (d =? 125)%N.
    { split; [discriminate|]. intros w t H. inversion H; subst. lia. }
    destruct (d =? 44)%N; [|stuck].
    pose proof (skip_ws_length r6) as Hw6.
    destruct (skip_ws r6) as [|q r8]; [stuck|].
    cbn [List.length] in Hw6.
    destruct (q =? 34)%N; [|stuck].
    destruct (IHo (dict_set k v acc) r8) as [Hf Hs]; [lia|].
    split; [exact Hf|]. intros w t H. apply Hs in H. lia.
  - intros acc s Hl. unfold Json.within_budget. cbn [parse_array].
    destruct (IHs s) as [Hvf Hvs]; [lia|].
    destruct (scan_once n s) as [[v r4]| |]; cbn [pbind fst snd];
      [|stuck|congruence].
    specialize (Hvs _ _ eq_refl).
    pose proof (skip_ws_length r4) as Hw4.
    destruct (skip_ws r4) as [|d r6]; [stuck|].
    cbn [List.length] in Hw4.
    destruct (d =? 93)%N.
    { split; [discriminate|]. intros w t H. inversion H; subst. lia. }
    destruct (d =? 44)%N; [|stuck].
    pose proof (skip_ws_length r6) as Hw6.
    destruct (IHa (acc ++ [v]) (skip_ws r6)) as [Hf Hs]; [lia|].
    split; [exact Hf|]. intros w t H. apply Hs in H. lia.
Qed.

(** [json.loads] gives its decoder a budget it cannot exhaust: a text that
    is rejected is rejected by the grammar. *)
Lemma loads_budget s :
  scan_once (S (2 * List.length s)) (skip_ws s) <> PFuel.
Proof.
  destruct (decoder_budget (S (2 * List.length s))) as (Hs & _ & _).
  apply Hs. pose proof (skip_ws_length s). lia.
Qed.

End JsonBudget.

Section RoundTrip.
Variable W : Type.
Variable sys_exec : Client.exec_call -> W -> W * option exn.
Variable sys_timestamp : W -> str.

(** The interpreter returns normally on every dictionary. *)
Lemma process_command_returns (d : dict) (st : Client.client W) :
  exists st',
    Client.process_command sys_exec sys_timestamp (JDict d) st = (Ret tt, st').
Proof.
  pose proof (tame_dispatch sys_exec sys_timestamp (JDict d) (Client.action_of d)
    (Client.emit (Client.Log (Client.MsgReceived (Client.action_of d)))
                 (Client.emit (Client.Deliver (JDict d)) st))) as [Hfuel _].
  change (Client.process_command sys_exec sys_timestamp (JDict d) st)
    with (try_except
            (Client.dispatch sys_exec sys_timestamp (JDict d) (Client.action_of d))
            any_exception
            (fun e => Client.log_message (Client.MsgExecError (Client.action_of d) e))
            (Client.emit (Client.Log (Client.MsgReceived (Client.action_of d)))
                         (Client.emit (Client.Deliver (JDict d)) st))).
  unfold try_except.
  destruct (Client.dispatch _ _ _ _ _) as [[[]|e|] s]; simpl in *;
    [eexists; reflexivity | eexists; reflexivity | congruence].
Qed.

(** A session that reads the line written for a command does what the
    interpreter does with that command. *)
Lemma listen_command_line (c : Server.command) (st : Client.client W) :
  Server.well_formed c -> Client.running st = true ->
  Client.listen_for_commands sys_exec sys_timestamp
    [inr (map byte_of (Server.command_text c ++ [NL]))] st
  = Client.process_command sys_exec sys_timestamp (Server.to_value c) st.
Proof.
  intros Hwf Hr. unfold Client.listen_for_commands.
  etransitivity;
    [apply (listen_whole sys_exec sys_timestamp _ [] st Hr eq_refl (decode_line c))|].
  unfold Client.spec_session. cbn [app].
  rewrite (segments_line _ (printable_no_newline (command_text_printable c))).
  cbn [fst Client.handle_all]. unfold bind at 1.
  unfold Client.handle_line.
  change (Server.command_text c) with (123%N :: Server.items_text c ++ [125%N]).
  rewrite strip_braces.
  change (123%N :: Server.items_text c ++ [125%N]) with (Server.command_text c).
  unfold try_except, bind, Client.json_loads.
  rewrite <- dumps_command, (loads_dumps Hwf).
  destruct (process_command_returns
              (map (fun kv => (fst kv, JStr (snd kv))) c) st) as [st' E].
  change (JDict (map (fun kv => (fst kv, JStr (snd kv))) c))
    with (Server.to_value c) in E.
  unfold ret at 1. rewrite E. reflexivity.
Qed.

End RoundTrip.

(** C6.  For a command with distinct keys whose keys and values are text,
    the line the controller writes decodes on the agent to one segment on
    which [json.loads] returns the very same dictionary, so that the
    session hands that dictionary, action and payload fields unchanged, to
    the interpreter. *)
Theorem command_round_trip (c : Server.command) :
  Server.well_formed c ->
  exists data text,
    Server.line_bytes (dumps (Server.to_value c)) = Some data /\
    decode data = Some (text ++ [NL]) /\
    split_once NL (text ++ [NL]) = Some (text, []) /\
    loads (strip text) = Parsed (Server.to_value c) /\
    forall (W : Type) (sys_exec : Client.exec_call -> W -> W * option exn)
           (sys_timestamp : W -> str) (st : Client.client W),
      Client.running st = true ->
      Client.listen_for_commands sys_exec sys_timestamp [inr data] st
      = Client.process_command sys_exec sys_timestamp (Server.to_value c) st.
Proof.
  intros Hwf.
  exists (map byte_of (Server.command_text c ++ [NL])), (Server.command_text c).
  split; [apply line_bytes_command|].
  split; [apply decode_line|].
  split; [apply split_once_line, printable_no_newline, command_text_printable|].
  split.
  - change (Server.command_text c) with (123%N :: Server.items_text c ++ [125%N]).
    rewrite strip_braces.
    change (123%N :: Server.items_text c ++ [125%N]) with (Server.command_text c).
    rewrite <- dumps_command. apply loads_dumps. exact Hwf.
  - intros. apply listen_command_line; assumption.
Qed.

(** The round trip of the message of the specification's scenario. *)
Lemma command_round_trip_witness :
  let c := [(lit "action", lit "message");
            (lit "content", lit "Lab closing in 5 minutes")] in
  exists data text,
    Server.line_bytes (dumps (Server.to_value c)) = Some data /\
    decode data = Some (text ++ [NL]) /\
    split_once NL (text ++ [NL]) = Some (text, []) /\
    loads (strip text) = Parsed (Server.to_value c) /\
    forall (W : Type) (sys_exec : Client.exec_call -> W -> W * option exn)
           (sys_timestamp : W -> str) (st : Client.client W),
      Client.running st = true ->
      Client.listen_for_commands sys_exec sys_timestamp [inr data] st
      = Client.process_command sys_exec sys_timestamp (Server.to_value c) st.
Proof.
  intros c. apply (@command_round_trip c). split.
  - repeat constructor; simpl; intuition discriminate.
  - repeat constructor; unfold scalar; vm_compute; left; reflexivity.
Defined.

(** ** The client dictionary *)

Lemma address_eqb_eq a b : Server.address_eqb a b = true <-> a = b.
Proof.
  unfold Server.address_eqb. destruct a as [h p], b as [h' p']. cbn [fst snd].
  rewrite andb_true_iff, str_eqb_eq, N.eqb_eq. split.
  - intros [-> ->]. reflexivity.
  - intros E. inversion E. auto.
Qed.

Lemma address_eqb_refl a : Server.address_eqb a a = true.
Proof. apply address_eqb_eq. reflexivity. Qed.

Lemma address_eqb_neq a b : a <> b -> Server.address_eqb a b = false.
Proof.
  intros H. destruct (Server.address_eqb a b) eqn:E; [|reflexivity].
  apply address_eqb_eq in E. contradiction.
Qed.

Lemma reg_mem_in a r : Server.reg_mem a r = true <-> In a (map fst r).
Proof.
  induction r as [|[a' s] r IH]; simpl; [split; [discriminate|tauto]|].
  destruct (Server.address_eqb a' a) eqn:E.
  - apply address_eqb_eq in E. tauto.
  - rewrite IH. split; [tauto|]. intros [X|X]; [|exact X].
    subst. rewrite address_eqb_refl in E. discriminate.
Qed.

Lemma reg_del_other a b r :
  a <> b -> Server.reg_mem b (Server.reg_del a r) = Server.reg_mem b r.
Proof.
  intros H. induction r as [|[a' s] r IH]; simpl; [reflexivity|].
  destruct (Server.address_eqb a' a) eqn:E; simpl.
  - apply address_eqb_eq in E. subst.
    rewrite address_eqb_neq by exact H. reflexivity.
  - rewrite IH. reflexivity.
Qed.

Lemma reg_del_absent a r : ~ In a (map fst r) -> Server.reg_del a r = r.
Proof.
  induction r as [|[a' s] r IH]; simpl; intros H; [reflexivity|].
  rewrite address_eqb_neq by tauto. rewrite IH by tauto. reflexivity.
Qed.

(** With distinct keys, deleting a key leaves the entries of the other keys. *)
Lemma reg_del_filter a r :
  NoDup (map fst r) ->
  Server.reg_del a r = filter (fun e => negb (Server.address_eqb (fst e) a)) r.
Proof.
  induction r as [|[a' s] r IH]; simpl; intros H; [reflexivity|].
  inversion H as [|? ? Hn Hr]; subst.
  destruct (Server.address_eqb a' a) eqn:E; simpl.
  - apply address_eqb_eq in E. subst.
    rewrite <- IH by exact Hr. symmetry. apply reg_del_absent. exact Hn.
  - rewrite IH by exact Hr. reflexivity.
Qed.

Local Abbreviation delete_all := Server.delete_all.

Lemma delete_all_cons_other dis : forall a s r,
  ~ In a dis -> delete_all dis ((a, s) :: r) = (a, s) :: delete_all dis r.
Proof.
  induction dis as [|d dis IH]; intros a s r H; [reflexivity|].
  simpl in *. rewrite address_eqb_neq by (intros X; apply H; auto).
  apply IH. tauto.
Qed.

Lemma failed_incl entries : forall results a,
  In a (Server.failed entries results) -> In a (map fst entries).
Proof.
  induction entries as [|[a' s] es IH]; intros [|[k|] rs] a; simpl; try tauto.
  - intros [X|X]; [auto|right; eapply IH; eauto].
  - intros X. right. eapply IH; eauto.
Qed.

Lemma failed_nodup entries : forall results,
  NoDup (map fst entries) -> NoDup (Server.failed entries results).
Proof.
  induction entries as [|[a s] es IH]; intros [|[k|] rs] H; simpl;
    try constructor; inversion H; subst; auto.
  intros X. apply failed_incl in X. contradiction.
Qed.

Lemma delete_failed entries : forall results,
  NoDup (map fst entries) -> List.length results = List.length entries ->
  delete_all (Server.failed entries results) entries
  = Server.survivors entries results.
Proof.
  induction entries as [|[a s] es IH]; intros [|[k|] rs] H Hl; simpl in *;
    try reflexivity; try discriminate; inversion H; subst.
  - rewrite address_eqb_refl. apply IH; [assumption|lia].
  - rewrite delete_all_cons_other.
    + f_equal. apply IH; [assumption|lia].
    + intros X. apply failed_incl in X. contradiction.
Qed.

Lemma sends_app t1 t2 : Server.sends (t1 ++ t2) = Server.sends t1 ++ Server.sends t2.
Proof.
  induction t1 as [|e t1 IH]; [reflexivity|].
  destruct e; simpl; rewrite ?IH; reflexivity.
Qed.

Lemma serializations_app t1 t2 :
  Server.serializations (t1 ++ t2)
  = Server.serializations t1 ++ Server.serializations t2.
Proof.
  induction t1 as [|e t1 IH]; [reflexivity|].
  destruct e; simpl; rewrite ?IH; reflexivity.
Qed.

Lemma fan_events_sends c data entries : forall results,
  List.length results = List.length entries ->
  Server.sends (Server.fan_events c data entries results)
  = Server.fan_sends data entries results.
Proof.
  induction entries as [|[a s] es IH]; intros [|[k|] rs] Hl; simpl in *;
    try reflexivity; try discriminate; rewrite IH by lia; reflexivity.
Qed.

Lemma fan_events_serializations c data entries : forall results,
  Server.serializations (Server.fan_events c data entries results) = [].
Proof.
  induction entries as [|[a s] es IH]; intros [|[k|] rs]; simpl; auto.
Qed.

Section Broadcast.
Variable W : Type.
Variable sys_send : Server.sock -> bytes -> W -> W * option os_error.

Local Abbreviation fan_out := (Server.fan_out sys_send).
Local Abbreviation remove_all := (@Server.remove_all W).
Local Abbreviation send_command := (Server.send_command sys_send).

(** The fan-out loop writes to every entry and collects the addresses
    whose write failed; it changes nothing else. *)
Lemma fan_out_spec c text data entries : forall dis (sv : Server.server W),
  Server.line_bytes text = Some data ->
  exists results w',
    List.length results = List.length entries /\
    fan_out c text entries dis sv
    = (Ret (dis ++ Server.failed entries results),
       Server.mkServer (Server.clients sv) (Server.running sv) w'
         (Server.trace sv ++ Server.fan_events c data entries results)).
Proof.
  induction entries as [|[a s] es IH]; intros dis sv Hd.
  - exists [], (Server.world sv). split; [reflexivity|]. simpl.
    unfold ret. rewrite !app_nil_r. destruct sv; reflexivity.
  - cbn [Server.fan_out]. unfold bind at 1, Server.fan_body, try_except, Server.encode_line.
    rewrite Hd. unfold bind at 1, ret at 1. unfold bind at 1, Server.send.
    destruct (sys_send s data (Server.world sv)) as [w1 [k|]] eqn:E.
    + cbn [is_OSError]. unfold ret at 1.
      destruct (IH (dis ++ [a])
                  (Server.emit (Server.Send s data (Some k)) (Server.set_world w1 sv)) Hd)
        as (rs & w' & Hl & Hrun).
      exists (Some k :: rs), w'. split; [simpl; lia|].
      rewrite Hrun. cbn [Server.failed Server.fan_events].
      unfold Server.emit, Server.set_world. cbn.
      rewrite <- !app_assoc. reflexivity.
    + unfold bind at 1, Server.log_message, modify, ret.
      destruct (IH dis
                  (Server.emit (Server.Log (Server.MsgSent (fst a) c))
                     (Server.emit (Server.Send s data None) (Server.set_world w1 sv))) Hd)
        as (rs & w' & Hl & Hrun).
      exists (None :: rs), w'. split; [simpl; lia|].
      unfold bind. rewrite Hrun. cbn [Server.failed Server.fan_events].
      unfold Server.emit, Server.set_world. cbn.
      rewrite <- !app_assoc. reflexivity.
Qed.

(** The second loop deletes the collected addresses, one log entry each. *)
Lemma remove_all_spec dis : forall (sv : Server.server W),
  NoDup dis ->
  (forall a, In a dis -> Server.reg_mem a (Server.clients sv) = true) ->
  remove_all dis sv
  = (Ret tt,
     Server.mkServer (delete_all dis (Server.clients sv)) (Server.running sv)
       (Server.world sv)
       (Server.trace sv ++ map (fun a => Server.Log (Server.MsgRemoved (fst a))) dis)).
Proof.
  induction dis as [|a dis IH]; intros sv Hnd Hin.
  - simpl. unfold ret. rewrite app_nil_r. destruct sv; reflexivity.
  - cbn [Server.remove_all]. unfold bind at 1, Server.forget, bind at 1, get.
    rewrite (Hin a) by (left; reflexivity).
    unfold bind at 1, modify, ret, bind, Server.log_message, modify.
    inversion Hnd as [|? ? Hna Hnd']; subst.
    rewrite IH.
    + cbn. rewrite <- app_assoc. reflexivity.
    + exact Hnd'.
    + intros b Hb. cbn. rewrite reg_del_other.
      * apply Hin. right. exact Hb.
      * intros ->. contradiction.
Qed.

End Broadcast.

Lemma sends_removed dis :
  Server.sends (map (fun a : Server.address => Server.Log (Server.MsgRemoved (fst a))) dis) = [].
Proof. induction dis; simpl; auto. Qed.

Lemma serializations_removed dis :
  Server.serializations
    (map (fun a : Server.address => Server.Log (Server.MsgRemoved (fst a))) dis) = [].
Proof. induction dis; simpl; auto. Qed.

Section SendCommand.
Variable W : Type.
Variable sys_send : Server.sock -> bytes -> W -> W * option os_error.

Local Abbreviation send_command := (Server.send_command sys_send).
Local Abbreviation heartbeat := (Server.heartbeat sys_send).
Local Abbreviation handle_client := (Server.handle_client sys_send).

(** [send_command] run from its first statement to its last.  With no
    client connected it only logs that: nothing is serialized or written and
    the dictionary stays empty.  Otherwise the command is serialized once,
    before the first write; the same bytes, the serialized command and the
    terminator, are written once to every connection of the dictionary, in
    its order, whether or not the earlier writes failed; and afterwards the
    dictionary holds the entries whose write went through and no others. *)
Lemma send_command_alone (c : Server.command) (sv : Server.server W) :
  NoDup (map fst (Server.clients sv)) ->
  match Server.clients sv with
  | [] => send_command c sv = (Ret tt, Server.emit (Server.Log Server.MsgNoClients) sv)
  | _ :: _ =>
      exists data results sv' events,
        Server.line_bytes (dumps (Server.to_value c)) = Some data /\
        List.length results = List.length (Server.clients sv) /\
        send_command c sv = (Ret tt, sv') /\
        Server.trace sv' = Server.trace sv ++ Server.Serialize c :: events /\
        Server.serializations events = [] /\
        Server.sends events = Server.fan_sends data (Server.clients sv) results /\
        Server.clients sv' = Server.survivors (Server.clients sv) results /\
        Server.running sv' = Server.running sv
  end.
Proof.
  intros Hnd. destruct (Server.clients sv) as [|e es] eqn:Ec.
  - unfold Server.send_command, bind, get. rewrite Ec. reflexivity.
  - rewrite <- Ec in *.
    pose proof (line_bytes_command c) as Hd.
    destruct (@fan_out_spec W sys_send c _ _ (Server.clients sv) []
                (Server.emit (Server.Serialize c) sv) Hd)
      as (results & w' & Hl & Hfan).
    cbn [Server.clients Server.running Server.trace Server.emit app] in Hfan.
    set (data := map byte_of (Server.command_text c ++ [NL])) in *.
    set (dis := Server.failed (Server.clients sv) results) in *.
    set (sv1 := Server.mkServer (Server.clients sv) (Server.running sv) w'
           ((Server.trace sv ++ [Server.Serialize c]) ++
            Server.fan_events c data (Server.clients sv) results)) in *.
    assert (Hrem := @remove_all_spec W dis sv1
                      (@failed_nodup _ _ Hnd)
                      (fun a Ha => proj2 (reg_mem_in a _) (@failed_incl _ _ _ Ha))).
    cbn [Server.clients Server.running Server.trace Server.world sv1] in Hrem.
    set (tail := match dis with [] => [] | _ :: _ => [Server.ListboxRefresh] end).
    exists data, results,
      (Server.mkServer (delete_all dis (Server.clients sv)) (Server.running sv) w'
         (((Server.trace sv ++ [Server.Serialize c]) ++
           Server.fan_events c data (Server.clients sv) results) ++
          map (fun a => Server.Log (Server.MsgRemoved (fst a))) dis ++ tail)),
      (Server.fan_events c data (Server.clients sv) results ++
       map (fun a => Server.Log (Server.MsgRemoved (fst a))) dis ++ tail).
    split; [exact Hd|]. split; [exact Hl|]. split.
    + unfold Server.send_command, bind at 1, get. rewrite Ec, <- Ec.
      unfold bind at 1, Server.json_dumps, bind at 1, Server.note, modify, ret at 1.
      unfold bind at 1. rewrite Hfan. unfold Server.prune, bind at 1. rewrite Hrem.
      subst tail. destruct dis.
      * unfold ret. do 2 f_equal; cbn [map]; rewrite ?app_nil_r; reflexivity.
      * unfold Server.note, modify, Server.emit.
        cbn [Server.clients Server.running Server.world Server.trace].
        do 2 f_equal; rewrite <- ?app_assoc; reflexivity.
    + cbn [Server.trace Server.clients Server.running].
      split; [rewrite <- !app_assoc; reflexivity|].
      clearbody data.
      split.
      { rewrite !serializations_app, fan_events_serializations, serializations_removed.
        subst tail. destruct dis; reflexivity. }
      split.
      { rewrite !sends_app, fan_events_sends, sends_removed by exact Hl.
        subst tail. destruct dis; cbn [Server.sends app]; rewrite app_nil_r; reflexivity. }
      split; [apply delete_failed; assumption | reflexivity].
Qed.

End SendCommand.

(** C1 as stated fails for a broadcast while no client is connected:
    [send_command] returns before [json.dumps], so the command is not
    serialized at all. *)
Lemma broadcast_empty_registry_counterexample :
  let r := Server.send_command Demo.send_even Demo.lab_closing Demo.no_clients in
  fst r = Ret tt /\
  Server.trace (snd r) = [Server.Log Server.MsgNoClients] /\
  Server.serializations (Server.trace (snd r)) = [] /\
  List.length (Server.serializations (Server.trace (snd r))) <> 1%nat.
Proof. repeat split; discriminate. Qed.

(** The bytes of a ping: the action alone and the terminator. *)
Lemma ping_line :
  Server.line_bytes (dumps (Server.to_value Server.ping))
  = Some (Demo.line "{'action': 'ping'}").
Proof. reflexivity. Qed.

Section HeartbeatClaims.
Variable W : Type.
Variable sys_send : Server.sock -> bytes -> W -> W * option os_error.

Local Abbreviation heartbeat := (Server.heartbeat sys_send).
Local Abbreviation handle_client := (Server.handle_client sys_send).
Local Abbreviation ping_data := (Demo.line "{'action': 'ping'}").

Lemma heartbeat_passes s a w1 (sv : Server.server W) :
  sys_send s ping_data (Server.world sv) = (w1, None) ->
  heartbeat s a sv
  = (Ret true,
     Server.mkServer (Server.clients sv) (Server.running sv) w1
       (Server.trace sv ++ Server.round_events s ping_data)).
Proof.
  intros E. unfold Server.heartbeat, try_except, bind at 1, Server.json_dumps.
  unfold bind at 1, Server.note, modify, ret at 1.
  unfold bind at 1, Server.encode_line. rewrite ping_line.
  unfold ret at 1, bind at 1, Server.send.
  cbn [Server.world Server.emit]. rewrite E.
  unfold bind, modify, ret, Server.emit, Server.set_world, Server.round_events.
  cbn [Server.clients Server.running Server.world Server.trace].
  rewrite <- !app_assoc. reflexivity.
Qed.

Lemma heartbeat_fails s a w1 k (sv : Server.server W) :
  sys_send s ping_data (Server.world sv) = (w1, Some k) ->
  heartbeat s a sv
  = (Ret false,
     Server.mkServer
       (if Server.reg_mem a (Server.clients sv)
        then Server.reg_del a (Server.clients sv) else Server.clients sv)
       (Server.running sv) w1
       (Server.trace sv ++ Server.last_round_events s a ping_data k)).
Proof.
  intros E. unfold Server.heartbeat, try_except, bind at 1, Server.json_dumps.
  unfold bind at 1, Server.note, modify, ret at 1.
  unfold bind at 1, Server.encode_line. rewrite ping_line.
  unfold ret at 1, bind at 1, Server.send.
  cbn [Server.world Server.emit]. rewrite E. cbn [is_OSError].
  unfold bind at 1, Server.log_message, modify.
  unfold bind at 1, Server.forget, bind at 1, get.
  cbn [Server.clients Server.emit Server.set_world].
  unfold Server.last_round_events.
  destruct (Server.reg_mem a (Server.clients sv));
    unfold bind, modify, ret, Server.emit, Server.set_clients, Server.set_world;
    cbn [Server.clients Server.running Server.world Server.trace];
    rewrite <- !app_assoc; reflexivity.
Qed.

Lemma forget_filter a r :
  NoDup (map fst r) ->
  (if Server.reg_mem a r then Server.reg_del a r else r)
  = filter (fun e => negb (Server.address_eqb (fst e) a)) r.
Proof.
  intros H. rewrite <- (@reg_del_filter a r H).
  destruct (Server.reg_mem a r) eqn:E; [reflexivity|].
  symmetry. apply reg_del_absent. intros X. apply reg_mem_in in X. congruence.
Qed.

Lemma nth_error_replace_other {A} (l : list A) : forall i j x,
  i <> j -> nth_error (Threads.replace_nth j x l) i = nth_error l i.
Proof.
  induction l as [|y l IH]; intros i j x H; [destruct j; reflexivity|].
  destruct j as [|j], i as [|i]; cbn; try reflexivity; try congruence.
  apply IH. congruence.
Qed.

(** A block of any other thread, and what arrives from outside, leaves the
    thread of a connection where it is. *)
Lemma handler_left_alone l i h (sys sys' : Threads.system W) :
  l <> Threads.RunHandler i ->
  nth_error (Threads.handlers sys) i = Some h ->
  Threads.step sys_send l sys = Some sys' ->
  nth_error (Threads.handlers sys') i = Some h.
Proof.
  intros Hl Hh Hstep. destruct l as [|j| |s a|c|]; cbn [Threads.step] in Hstep.
  - destruct (Threads.broadcast sys) as [pc|]; [|discriminate].
    destruct (Threads.broadcast_step sys_send pc (Threads.shared sys)).
    injection Hstep as <-. exact Hh.
  - destruct (nth_error (Threads.handlers sys) j) as [hj|]; [|discriminate].
    destruct (Threads.handler_step sys_send hj (Threads.shared sys)).
    injection Hstep as <-. cbn [Threads.handlers].
    rewrite nth_error_replace_other; [exact Hh|]. intros ->. apply Hl. reflexivity.
  - destruct (Threads.stopper sys) as [pc|]; [|discriminate].
    destruct (Threads.stopper_step pc (Threads.shared sys)).
    injection Hstep as <-. exact Hh.
  - destruct (Server.running (Threads.shared sys)); [|discriminate].
    injection Hstep as <-. cbn [Threads.handlers].
    rewrite nth_error_app1; [exact Hh|]. apply nth_error_Some. congruence.
  - destruct (Threads.broadcast sys) as [[]|]; inversion Hstep; subst; exact Hh.
  - destruct (Threads.stopper sys); inversion Hstep; subst; exact Hh.
Qed.

(** C5.  While the controller runs, the loop of a connection sends the
    ping, the action alone and the terminator, and sleeps ten seconds, round
    after round; at the first write that fails it logs the disconnection,
    deletes the entry of its own address, leaving every other entry, and
    returns by its own [break].  No other thread ends it: whatever block
    another thread runs, the thread of the connection is where it was. *)
Theorem heartbeat_until_failure (s : Server.sock) (a : Server.address)
    (n fuel : nat) (k : os_error) (w' : W) (sv : Server.server W) :
  Server.running sv = true ->
  NoDup (map fst (Server.clients sv)) ->
  (n < fuel)%nat ->
  Server.pings_until_failure sys_send s ping_data n (Server.world sv) k w' ->
  handle_client fuel s a sv
  = (Ret tt,
     Server.mkServer
       (filter (fun e => negb (Server.address_eqb (fst e) a)) (Server.clients sv))
       true w'
       (Server.trace sv
          ++ List.concat (repeat (Server.round_events s ping_data) n)
          ++ Server.last_round_events s a ping_data k)) /\
  forall l i pc (sys sys' : Threads.system W),
    l <> Threads.RunHandler i ->
    nth_error (Threads.handlers sys) i = Some (Threads.mkHandler s a pc) ->
    Threads.step sys_send l sys = Some sys' ->
    nth_error (Threads.handlers sys') i = Some (Threads.mkHandler s a pc).
Proof.
  intros Hr Hnd Hfuel Hp. split; [|intros; eapply handler_left_alone; eauto].
  rewrite <- (@forget_filter a _ Hnd). clear Hnd.
  revert fuel sv Hr Hfuel Hp. induction n as [|n IH]; intros fuel sv Hr Hfuel Hp.
  - inversion Hp as [? ? ? E|]; subst.
    destruct fuel as [|fuel]; [lia|].
    cbn [Server.handle_client]. unfold bind at 1, get. rewrite Hr.
    unfold bind at 1. rewrite (@heartbeat_fails s a _ _ sv E).
    unfold ret. rewrite Hr. reflexivity.
  - inversion Hp as [|? ? w1 ? ? E Hp']; subst.
    destruct fuel as [|fuel]; [lia|].
    cbn [Server.handle_client]. unfold bind at 1, get. rewrite Hr.
    unfold bind at 1. rewrite (@heartbeat_passes s a _ sv E).
    rewrite IH; cbn [Server.running Server.world Server.clients Server.trace];
      [|exact Hr|lia|exact Hp'].
    cbn [repeat List.concat]. rewrite <- !app_assoc. reflexivity.
Qed.

End HeartbeatClaims.

(** A connection whose third ping cannot be written. *)
Lemma heartbeat_until_failure_witness :
  Server.handle_client Demo.send_twice 5 3%nat (Demo.host "10.0.0.3" 50001)
    Demo.three_clients
  = (Ret tt,
     Server.mkServer
       [(Demo.host "10.0.0.2" 50000, 2%nat); (Demo.host "10.0.0.4" 50002, 4%nat)]
       true 3%nat
       ([] ++ List.concat
                (repeat (Server.round_events 3%nat (Demo.line "{'action': 'ping'}")) 2)
           ++ Server.last_round_events 3%nat (Demo.host "10.0.0.3" 50001)
                (Demo.line "{'action': 'ping'}") ConnectionResetError)).
Proof.
  apply (@heartbeat_until_failure Demo.world Demo.send_twice 3%nat
           (Demo.host "10.0.0.3" 50001) 2 5 ConnectionResetError 3%nat
           Demo.three_clients).
  - reflexivity.
  - repeat constructor; simpl; intuition discriminate.
  - lia.
  - apply Server.ping_passes with (w1 := 1%nat); [reflexivity|].
    apply Server.ping_passes with (w1 := 2%nat); [reflexivity|].
    apply Server.ping_fails. reflexivity.
Defined.

Section DiscoveryClaims.
Variable W : Type.
Variable sys_hostname : W -> W * (exn + str).
Variable sys_probe : str -> N -> Q -> W -> W * (exn + Z).

Local Abbreviation probe_host := (Client.probe_host sys_probe).
Local Abbreviation scan := (Client.scan sys_probe).
Local Abbreviation discover_server := (Client.discover_server sys_hostname sys_probe).

Lemma advance_advance w1 e1 w2 e2 (st : Client.client W) :
  Client.advance w2 e2 (Client.advance w1 e1 st) = Client.advance w2 (e1 ++ e2) st.
Proof. unfold Client.advance. cbn. rewrite app_assoc. reflexivity. Qed.

(** One turn of the loop: the probe of host [i]. *)
Lemma probe_host_spec base port i (st : Client.client W) :
  let r := snd (sys_probe (base ++ str_of_N i) port Client.probe_timeout
                  (Client.world st)) in
  probe_host base port i st
  = (Ret (if Client.accepted r then Some (base ++ str_of_N i) else None),
     Client.advance
       (fst (sys_probe (base ++ str_of_N i) port Client.probe_timeout
               (Client.world st)))
       (Client.visit_events base port (i, r)) st).
Proof.
  unfold Client.probe_host, try_except, bind at 1, Client.probe.
  destruct (sys_probe _ _ _ _) as [w1 [e|code]]; cbn [fst snd].
  - reflexivity.
  - unfold Client.visit_events, Client.accepted. cbn [fst snd].
    destruct (Z.eqb code 0); unfold bind, Client.log_message, Client.note, modify, ret,
      Client.advance, Client.emit, Client.set_world; cbn; rewrite <- ?app_assoc;
      reflexivity.
Qed.

(** The scan probes the hosts in the order of the list, stops at the first
    that accepts and returns its address, and returns nothing when it has
    probed them all in vain. *)
Lemma scan_spec base port hosts : forall (st : Client.client W),
  exists (results : list (exn + Z)) (w' : W),
    (List.length results <= List.length hosts)%nat /\
    scan base port hosts st
    = (Ret (Client.found base (combine hosts results)),
       Client.advance w' (Client.scan_events base port (combine hosts results)) st) /\
    Forall (fun r => Client.accepted r = false) (removelast results) /\
    (Client.found base (combine hosts results) = None ->
     List.length results = List.length hosts).
Proof.
  induction hosts as [|i rest IH]; intros st.
  - exists [], (Client.world st). split; [simpl; lia|]. split.
    + simpl. unfold ret, Client.advance. rewrite app_nil_r. destruct st; reflexivity.
    + split; [constructor|reflexivity].
  - cbn [Client.scan]. unfold bind at 1. rewrite probe_host_spec.
    set (r := snd (sys_probe (base ++ str_of_N i) port Client.probe_timeout
                     (Client.world st))).
    set (w1 := fst (sys_probe (base ++ str_of_N i) port Client.probe_timeout
                      (Client.world st))).
    destruct (Client.accepted r) eqn:Ha.
    + exists [r], w1. split; [simpl; lia|]. split.
      * cbn [combine]. rewrite combine_nil.
        cbn [Client.found Client.scan_events flat_map]. rewrite Ha, app_nil_r.
        reflexivity.
      * split; [constructor|]. cbn [combine Client.found]. rewrite Ha. discriminate.
    + destruct (IH (Client.advance w1 (Client.visit_events base port (i, r)) st))
        as (rs & w' & Hl & Hrun & Hall & Hnone).
      exists (r :: rs), w'. split; [simpl; lia|]. split.
      * rewrite Hrun. cbn [combine Client.found Client.scan_events flat_map].
        rewrite Ha, advance_advance. reflexivity.
      * split.
        { destruct rs as [|r' rs']; [constructor|].
          change (removelast (r :: r' :: rs')) with (r :: removelast (r' :: rs')).
          constructor; assumption. }
        cbn [combine Client.found]. rewrite Ha. intros H. simpl. f_equal. auto.
Qed.

(** C7.  When [hostname -I] prints an address, discovery takes the prefix
    of the first one and probes the hosts 1 to 254 of that prefix in
    ascending order, each with a timeout of a tenth of a second, on the
    port of the controller; it stops at the first host that accepts the
    connection and returns its address, and returns nothing when none of
    the 254 accepts. *)
Theorem discovery_scan (st : Client.client W) (w0 : W) (out local_ip : str)
    (others : list str) :
  sys_hostname (Client.world st) = (w0, inr out) ->
  split_ws (strip out) = local_ip :: others ->
  let base := Client.network_base_of local_ip in
  exists (results : list (exn + Z)) (w' : W),
    let visits := combine Client.host_range results in
    (List.length results <= 254)%nat /\
    discover_server st
    = (Ret (Client.found base visits),
       Client.advance w'
         ([Client.Log Client.MsgDiscovering; Client.Hostname (inr out);
           Client.Log (Client.MsgScanning base)]
          ++ Client.scan_events base (Client.server_port st) visits) st) /\
    Forall (fun r => Client.accepted r = false) (removelast results) /\
    (Client.found base visits = None -> List.length results = 254%nat) /\
    Client.host_range = map N.of_nat (seq 1 254) /\
    Client.probe_timeout = (1 # 10)%Q.
Proof.
  intros Hh Hs base.
  destruct (scan_spec base (Client.server_port st) Client.host_range
              (Client.advance w0
                 [Client.Log Client.MsgDiscovering; Client.Hostname (inr out);
                  Client.Log (Client.MsgScanning base)] st))
    as (rs & w' & Hl & Hrun & Hall & Hnone).
  exists rs, w'. cbv zeta.
  split; [exact Hl|]. split.
  - unfold Client.discover_server, bind at 1, Client.log_message, modify.
    unfold try_except, bind at 1, Client.hostname.
    cbn [Client.world Client.emit]. rewrite Hh, Hs.
    unfold bind at 1, Client.log_message, modify. unfold bind at 1, get.
    match goal with
    | |- context [scan ?b ?p ?h ?s] =>
        replace (scan b p h s)
          with (scan base (Client.server_port st) Client.host_range
                  (Client.advance w0
                     [Client.Log Client.MsgDiscovering; Client.Hostname (inr out);
                      Client.Log (Client.MsgScanning base)] st))
    end.
    + rewrite Hrun, advance_advance. reflexivity.
    + f_equal. unfold Client.advance, Client.emit, Client.set_world. cbn.
      rewrite <- !app_assoc. reflexivity.
  - split; [exact Hall|]. split; [exact Hnone|]. split; reflexivity.
Qed.

End DiscoveryClaims.

(** On the network of the example the scan passes the unreachable host
    and the host that refuses, finds the third and stops there. *)
Lemma discovery_scan_witness :
  exists (results : list (exn + Z)) (w' : Demo.world),
    let base := lit "10.0.0." in
    let visits := combine Client.host_range results in
    (List.length results <= 254)%nat /\
    Client.discover_server Demo.hostname_out Demo.probe_net Demo.listening
    = (Ret (Client.found base visits),
       Client.advance w'
         ([Client.Log Client.MsgDiscovering;
           Client.Hostname (inr (lit "10.0.0.57 172.17.0.1 "));
           Client.Log (Client.MsgScanning base)]
          ++ Client.scan_events base 9999 visits) Demo.listening) /\
    Forall (fun r => Client.accepted r = false) (removelast results) /\
    (Client.found base visits = None -> List.length results = 254%nat) /\
    Client.host_range = map N.of_nat (seq 1 254) /\
    Client.probe_timeout = (1 # 10)%Q.
Proof.
  apply (@discovery_scan Demo.world Demo.hostname_out Demo.probe_net
           Demo.listening 1%nat (lit "10.0.0.57 172.17.0.1 ")
           (lit "10.0.0.57") [lit "172.17.0.1"]); reflexivity.
Defined.

(** What the scan of the example does, written out. *)
Lemma discovery_example :
  let r := Client.discover_server Demo.hostname_out Demo.probe_net Demo.listening in
  fst r = Ret (Some (lit "10.0.0.3")) /\
  Client.trace (snd r)
  = [Client.Log Client.MsgDiscovering;
     Client.Hostname (inr (lit "10.0.0.57 172.17.0.1 "));
     Client.Log (Client.MsgScanning (lit "10.0.0."));
     Client.Probe (lit "10.0.0.1") 9999 (1 # 10) (inr 111%Z);
     Client.CloseProbe (lit "10.0.0.1");
     Client.Probe (lit "10.0.0.2") 9999 (1 # 10) (inl (OSError PlainOSError));
     Client.Probe (lit "10.0.0.3") 9999 (1 # 10) (inr 0%Z);
     Client.Log (Client.MsgFound (lit "10.0.0.3"));
     Client.CloseProbe (lit "10.0.0.3")].
Proof. split; vm_compute; reflexivity. Qed.

Section Lifecycle.
Variable W : Type.
Variable sys_exec : Client.exec_call -> W -> W * option exn.
Variable sys_timestamp : W -> str.
Variable sys_hostname : W -> W * (exn + str).
Variable sys_probe : str -> N -> Q -> W -> W * (exn + Z).
Variable sys_socket : W -> W * (exn + Client.sock).
Variable sys_connect : Client.sock -> str -> N -> W -> W * option exn.

Local Abbreviation listen_body := (Client.listen_body sys_exec sys_timestamp).
Local Abbreviation listen_loop := (Client.listen_loop sys_exec sys_timestamp).
Local Abbreviation connect_to_server :=
  (Client.connect_to_server sys_hostname sys_probe sys_socket sys_connect).
Local Abbreviation run_step :=
  (Client.run_step sys_exec sys_timestamp sys_hostname sys_probe sys_socket
     sys_connect).
Local Abbreviation move :=
  (Client.move sys_exec sys_timestamp sys_hostname sys_probe sys_socket
     sys_connect).
Local Abbreviation moves :=
  (Client.moves sys_exec sys_timestamp sys_hostname sys_probe sys_socket
     sys_connect).

(** *** The session always comes to an end *)

Lemma listen_body_returns r b (st : Client.client W) :
  exists ctl st',
    listen_body r b st = (Ret ctl, st') /\ Client.same_fields st st'.
Proof.
  destruct r as [k|c].
  - eexists _, _. split; [reflexivity|]. repeat split.
  - destruct (decode c) as [[|x d]|] eqn:Ed.
    + eexists _, _. split.
      * unfold Client.listen_body, try_except, Client.recv_decode, bind.
        rewrite Ed. reflexivity.
      * repeat split.
    + rewrite (@listen_body_data _ sys_exec sys_timestamp c (x :: d) b st Ed)
        by discriminate.
      pose proof (tame_handle_all sys_exec sys_timestamp
                    (fst (Client.spec_segments (b ++ x :: d))) st) as [Hf Hs].
      destruct (Client.handle_all _ _ _ st) as [[[]|e|] s]; simpl in *.
      * eexists _, _. split; [reflexivity|exact Hs].
      * eexists _, _. split; [reflexivity|].
        destruct Hs as (?&?&?&?&?). repeat split; assumption.
      * congruence.
    + eexists _, _. split.
      * unfold Client.listen_body, try_except, Client.recv_decode, bind.
        rewrite Ed. reflexivity.
      * repeat split.
Qed.

Lemma listen_loop_returns recvs : forall b (st : Client.client W),
  exists st', listen_loop recvs b st = (Ret tt, st') /\ Client.same_fields st st'.
Proof.
  induction recvs as [|r rest IH]; intros b st.
  - rewrite listen_loop_eof. eexists. split; [reflexivity|apply same_fields_refl].
  - cbn [Client.listen_loop]. unfold bind at 1, get.
    destruct (Client.running st) eqn:Hr.
    + destruct (listen_body_returns r b st) as (ctl & st1 & E & Hs).
      unfold bind at 1. rewrite E. destruct ctl as [b'|].
      * destruct (IH b' st1) as (st2 & E2 & Hs2).
        exists st2. split; [exact E2|]. eapply same_fields_trans; eauto.
      * exists st1. split; [reflexivity|exact Hs].
    + exists st. split; [reflexivity|apply same_fields_refl].
Qed.

(** *** The delay is never changed *)

Lemma keeps_ret {A} (a : A) : @Client.keeps_delay W A (ret a).
Proof. intros st. reflexivity. Qed.

Lemma keeps_bind {A B} (m : Client.Act W A) (k : A -> Client.Act W B) :
  Client.keeps_delay m -> (forall a, Client.keeps_delay (k a)) ->
  Client.keeps_delay (bind m k).
Proof.
  intros Hm Hk st. unfold bind. specialize (Hm st).
  destruct (m st) as [[a| e|] s]; simpl in *; [|exact Hm|exact Hm].
  rewrite Hk. exact Hm.
Qed.

Lemma keeps_try {A} (m : Client.Act W A) h k :
  Client.keeps_delay m -> (forall e, Client.keeps_delay (k e)) ->
  Client.keeps_delay (try_except m h k).
Proof.
  intros Hm Hk st. unfold try_except. specialize (Hm st).
  destruct (m st) as [[a| e|] s]; simpl in *; try exact Hm.
  destruct (h e); simpl; [|exact Hm]. rewrite Hk. exact Hm.
Qed.

Lemma keeps_tame {A} (m : Client.Act W A) : Client.tame m -> Client.keeps_delay m.
Proof. intros H st. apply (H st). Qed.

Lemma tame_hostname : Client.tame (Client.hostname sys_hostname).
Proof.
  intros st. unfold Client.hostname.
  destruct (sys_hostname (Client.world st)) as [w' [e|out]]; simpl;
    (split; [discriminate | repeat split]).
Qed.

Lemma tame_probe_host base port i :
  Client.tame (Client.probe_host sys_probe base port i).
Proof.
  intros st. rewrite probe_host_spec. split; [discriminate | repeat split].
Qed.

Lemma tame_scan base port hosts : Client.tame (Client.scan sys_probe base port hosts).
Proof.
  induction hosts as [|i rest IH]; cbn [Client.scan]; [apply tame_ret|].
  apply tame_bind; [apply tame_probe_host|]. intros [ip|]; [apply tame_ret|exact IH].
Qed.

Lemma tame_discover_server :
  Client.tame (Client.discover_server sys_hostname sys_probe).
Proof.
  unfold Client.discover_server.
  apply tame_bind; [apply tame_log|]. intros _.
  apply tame_try.
  - apply tame_bind; [apply tame_hostname|]. intros out.
    destruct (split_ws (strip out)); [apply tame_raise|].
    apply tame_bind; [apply tame_log|]. intros _.
    apply tame_bind; [apply tame_get|]. intros st. apply tame_scan.
  - intros e. apply tame_bind; [apply tame_log|]. intros _. apply tame_ret.
Qed.

Lemma keeps_connect_to_server : Client.keeps_delay connect_to_server.
Proof.
  unfold Client.connect_to_server.
  apply keeps_bind; [apply keeps_tame, tame_get|]. intros st0.
  apply keeps_bind.
  { destruct (Client.no_server_ip _); [|apply keeps_ret].
    apply keeps_bind; [apply keeps_tame, tame_discover_server|].
    intros ip st. reflexivity. }
  intros _. apply keeps_bind; [apply keeps_tame, tame_get|]. intros st.
  destruct (Client.server_ip st) as [[|c ip']|];
    try (apply keeps_bind; [apply keeps_tame, tame_log|]; intros _; apply keeps_ret).
  apply keeps_try.
  - apply keeps_bind.
    { intros s0. unfold Client.new_socket.
      destruct (sys_socket (Client.world s0)) as [w' [e|s]]; reflexivity. }
    intros s. apply keeps_bind; [intros s0; reflexivity|]. intros _.
    apply keeps_bind.
    { intros s0. unfold Client.connect.
      destruct (sys_connect s (c :: ip') (Client.server_port st) (Client.world s0))
        as [w' [e|]]; reflexivity. }
    intros _. apply keeps_bind; [apply keeps_tame, tame_log|]. intros _.
    apply keeps_ret.
  - intros e. apply keeps_bind; [apply keeps_tame, tame_log|]. intros _.
    apply keeps_ret.
Qed.

Lemma after_delay {A} (r : outcome A * Client.client W) (next : A -> Client.pc) :
  Client.reconnect_delay (Client.self (Client.after r next))
  = Client.reconnect_delay (snd r).
Proof. destruct r as [[a|e|] st]; reflexivity. Qed.

Lemma run_step_delay recvs a a' :
  run_step recvs a = Some a' ->
  Client.reconnect_delay (Client.self a') = Client.reconnect_delay (Client.self a).
Proof.
  unfold Client.run_step. destruct (Client.at_pc a); intros H; inversion H; subst;
    clear H; cbn [Client.self]; try reflexivity.
  - rewrite after_delay. apply keeps_connect_to_server.
  - rewrite after_delay. unfold bind, Client.log_message, modify.
    destruct (listen_loop_returns recvs []
                (Client.emit (Client.Log Client.MsgStartingListener) (Client.self a)))
      as (st' & E & Hs).
    unfold Client.listen_for_commands. rewrite E. cbn [snd].
    destruct Hs as (_&_&_&_&Hd). exact Hd.
  - destruct (Client.client_socket (Client.self a)); reflexivity.
  - destruct (Client.running (Client.self a)); reflexivity.
Qed.

Lemma moves_delay a b :
  moves a b ->
  Client.reconnect_delay (Client.self b) = Client.reconnect_delay (Client.self a).
Proof.
  induction 1 as [a|a b c Hm _ IH]; [reflexivity|].
  rewrite IH. destruct Hm as [recvs a a' E|a].
  - eapply run_step_delay; eauto.
  - cbn [Client.self]. unfold Client.stop.
    destruct (Client.client_socket _); reflexivity.
Qed.

(** *** After a request to stop *)

Lemma attempts_app t1 t2 :
  Client.attempts (t1 ++ t2) = Client.attempts t1 ++ Client.attempts t2.
Proof.
  induction t1 as [|e t1 IH]; [reflexivity|].
  destruct e; simpl; rewrite ?IH; reflexivity.
Qed.

Lemma halting_move a b :
  Client.halting a -> move a b ->
  Client.halting b /\
  Client.attempts (Client.trace (Client.self b))
  = Client.attempts (Client.trace (Client.self a)).
Proof.
  intros [Hr Hpc] Hm. destruct Hm as [recvs a a' E|a].
  - unfold Client.run_step in E. destruct (Client.at_pc a) eqn:Ep; try contradiction;
      inversion E; subst; clear E; unfold Client.halting; cbn [Client.self Client.at_pc].
    + rewrite Hr. auto.
    + destruct (Client.client_socket (Client.self a)); cbn; rewrite ?attempts_app;
        cbn; rewrite ?app_nil_r; auto.
    + rewrite Hr. cbn. auto.
  - unfold Client.halting, Client.stop. cbn [Client.self Client.at_pc].
    destruct (Client.client_socket _); cbn; rewrite ?attempts_app; cbn;
      rewrite ?app_nil_r; auto.
Qed.

Lemma halting_moves a b :
  Client.halting a -> moves a b ->
  Client.halting b /\
  Client.attempts (Client.trace (Client.self b))
  = Client.attempts (Client.trace (Client.self a)).
Proof.
  intros Ha Hm. induction Hm as [a|a b c Hab _ IH]; [auto|].
  destruct (halting_move Ha Hab) as [Hb Eb].
  destruct (IH Hb) as [Hc Ec]. split; [exact Hc|congruence].
Qed.

End Lifecycle.

Section LifecycleClaims.
Variable W : Type.
Variable sys_exec : Client.exec_call -> W -> W * option exn.
Variable sys_timestamp : W -> str.
Variable sys_hostname : W -> W * (exn + str).
Variable sys_probe : str -> N -> Q -> W -> W * (exn + Z).
Variable sys_socket : W -> W * (exn + Client.sock).
Variable sys_connect : Client.sock -> str -> N -> W -> W * option exn.

Local Abbreviation run_step :=
  (Client.run_step sys_exec sys_timestamp sys_hostname sys_probe sys_socket
     sys_connect).
Local Abbreviation moves :=
  (Client.moves sys_exec sys_timestamp sys_hostname sys_probe sys_socket
     sys_connect).

(** C8.  Take any state the agent can be in after [BuddyClient(ip).run()]
    was called, with [stop] called at any moments.  A session that is
    running always comes to its end, and then [run] goes on to close the
    stream.  From there, if the agent still runs, the next three statements
    close the stream if one is open, log, sleep the five seconds of the
    delay and arrive at the next attempt to connect.  If [stop] was called,
    whatever happens next there is no further attempt to reach a
    controller, and [run] returns within three statements and stays
    returned. *)
Theorem session_end_backoff_or_halt (ip : option str) (w : W) (a : Client.agent W) :
  moves (Client.mkAgent (Client.init ip w) Client.AtStart) a ->
  (Client.at_pc a = Client.AtListen ->
   forall recvs, exists a',
     run_step recvs a = Some a' /\ Client.at_pc a' = Client.AtClose) /\
  (Client.at_pc a = Client.AtClose ->
   let closing :=
     match Client.client_socket (Client.self a) with
     | Some s => [Client.Close s]
     | None => []
     end in
   forall r1 r2 r3, exists a1 a2 a3,
     run_step r1 a = Some a1 /\ run_step r2 a1 = Some a2 /\
     run_step r3 a2 = Some a3 /\
     Client.client_socket (Client.self a3) = None /\
     if Client.running (Client.self a) then
       Client.at_pc a3 = Client.AtConnect /\
       Client.trace (Client.self a3)
       = Client.trace (Client.self a) ++ closing
           ++ [Client.Log (Client.MsgReconnecting 5); Client.Sleep 5]
     else
       Client.at_pc a3 = Client.Returned /\
       (forall r, run_step r a3 = None) /\
       Client.trace (Client.self a3) = Client.trace (Client.self a) ++ closing /\
       forall b, moves a b ->
         Client.halting b /\
         Client.attempts (Client.trace (Client.self b))
         = Client.attempts (Client.trace (Client.self a))).
Proof.
  intros Hreach. split.
  - intros Hpc recvs. unfold Client.run_step. rewrite Hpc.
    unfold bind, Client.log_message, modify, Client.listen_for_commands.
    destruct (listen_loop_returns sys_exec sys_timestamp recvs []
                (Client.emit (Client.Log Client.MsgStartingListener) (Client.self a)))
      as (st' & E & _).
    rewrite E. eexists. split; reflexivity.
  - intros Hpc closing r1 r2 r3.
    pose proof (moves_delay Hreach) as Hd. cbn in Hd.
    destruct a as [st pc]. cbn [Client.at_pc Client.self] in *. subst pc.
    destruct (Client.running st) eqn:Hr.
    + destruct (Client.client_socket st) as [s|] eqn:Es; subst closing;
        eexists _, _, _; (split; [unfold Client.run_step; cbn; rewrite ?Es; reflexivity|]);
        (split; [unfold Client.run_step; cbn; rewrite Hr, Hd; reflexivity|]);
        (split; [unfold Client.run_step; cbn; rewrite Hr; reflexivity|]);
        cbn; (split; [rewrite ?Es; reflexivity|]); (split; [reflexivity|]);
        rewrite <- ?app_assoc; reflexivity.
    + assert (Hh : Client.halting (Client.mkAgent st Client.AtClose))
        by (split; [exact Hr|exact I]).
      destruct (Client.client_socket st) as [s|] eqn:Es; subst closing;
        eexists _, _, _; (split; [unfold Client.run_step; cbn; rewrite ?Es; reflexivity|]);
        (split; [unfold Client.run_step; cbn; rewrite Hr; reflexivity|]);
        (split; [unfold Client.run_step; cbn; rewrite Hr; reflexivity|]);
        cbn; (split; [rewrite ?Es; reflexivity|]); (split; [reflexivity|]);
        (split; [intros r; reflexivity|]);
        (split; [rewrite ?app_nil_r; reflexivity|]);
        intros b Hb; apply (halting_moves Hh Hb).
Qed.

End LifecycleClaims.

Lemma moves_trans W e t h p so c (a b d : Client.agent W) :
  Client.moves e t h p so c a b -> Client.moves e t h p so c b d ->
  Client.moves e t h p so c a d.
Proof.
  induction 1; [auto|]. intros. eapply Client.moves_step; eauto.
Qed.

Ltac demo_run :=
  match goal with
  | |- Client.moves _ _ _ _ _ _ ?a _ =>
      apply Client.moves_step with (b := Demo.step a);
      [apply Client.move_run with (recvs := []); vm_compute; reflexivity|]
  end.

(** An agent whose session has ended, with and without a call of [stop]. *)
Lemma session_end_backoff_or_halt_witness :
  (Client.at_pc Demo.agent_after_session = Client.AtClose /\
   Client.running (Client.self Demo.agent_after_session) = true /\
   forall r1 r2 r3, exists a1 a2 a3,
     Demo.run_step r1 Demo.agent_after_session = Some a1 /\
     Demo.run_step r2 a1 = Some a2 /\
     Demo.run_step r3 a2 = Some a3 /\
     Client.client_socket (Client.self a3) = None /\
     Client.at_pc a3 = Client.AtConnect /\
     Client.trace (Client.self a3)
     = Client.trace (Client.self Demo.agent_after_session)
         ++ [Client.Close 0%nat]
         ++ [Client.Log (Client.MsgReconnecting 5); Client.Sleep 5]) /\
  (Client.at_pc Demo.agent_after_stop = Client.AtClose /\
   Client.running (Client.self Demo.agent_after_stop) = false /\
   forall r1 r2 r3, exists a1 a2 a3,
     Demo.run_step r1 Demo.agent_after_stop = Some a1 /\
     Demo.run_step r2 a1 = Some a2 /\
     Demo.run_step r3 a2 = Some a3 /\
     Client.client_socket (Client.self a3) = None /\
     Client.at_pc a3 = Client.Returned).
Proof.
  assert (Hsession : Client.moves Demo.exec_ok Demo.timestamp Demo.hostname_out
            Demo.probe_net Demo.new_sock Demo.connect_ok Demo.agent_start
            Demo.agent_after_session).
  { unfold Demo.agent_after_session. do 4 demo_run. apply Client.moves_refl. }
  assert (Hstop : Client.moves Demo.exec_ok Demo.timestamp Demo.hostname_out
            Demo.probe_net Demo.new_sock Demo.connect_ok Demo.agent_start
            Demo.agent_after_stop).
  { eapply moves_trans; [exact Hsession|].
    eapply Client.moves_step; [apply Client.move_stop|apply Client.moves_refl]. }
  assert (Hpc : Client.at_pc Demo.agent_after_session = Client.AtClose)
    by (vm_compute; reflexivity).
  assert (Hpc' : Client.at_pc Demo.agent_after_stop = Client.AtClose)
    by (vm_compute; reflexivity).
  split.
  - split; [exact Hpc|]. split; [vm_compute; reflexivity|].
    intros r1 r2 r3.
    destruct (proj2 (@session_end_backoff_or_halt _ Demo.exec_ok Demo.timestamp
                Demo.hostname_out Demo.probe_net Demo.new_sock Demo.connect_ok
                (Some (lit "10.0.0.3")) O Demo.agent_after_session Hsession)
                Hpc r1 r2 r3)
      as (a1 & a2 & a3 & H1 & H2 & H3 & H4 & H5).
    replace (Client.running (Client.self Demo.agent_after_session)) with true in H5
      by (vm_compute; reflexivity).
    replace (Client.client_socket (Client.self Demo.agent_after_session))
      with (Some 0%nat) in H5 by (vm_compute; reflexivity).
    destruct H5 as [H5 H6].
    exists a1, a2, a3. auto 10.
  - split; [exact Hpc'|]. split; [vm_compute; reflexivity|].
    intros r1 r2 r3.
    destruct (proj2 (@session_end_backoff_or_halt _ Demo.exec_ok Demo.timestamp
                Demo.hostname_out Demo.probe_net Demo.new_sock Demo.connect_ok
                (Some (lit "10.0.0.3")) O Demo.agent_after_stop Hstop)
                Hpc' r1 r2 r3)
      as (a1 & a2 & a3 & H1 & H2 & H3 & H4 & H5).
    replace (Client.running (Client.self Demo.agent_after_stop)) with false in H5
      by (vm_compute; reflexivity).
    destruct H5 as [H5 _].
    exists a1, a2, a3. auto 10.
Defined.

(** ** The threads of the controller *)

Section ThreadFacts.
Variable W : Type.
Variable sys_send : Server.sock -> bytes -> W -> W * option os_error.

Local Abbreviation quiet := (@Threads.quiet W _).
Local Abbreviation step := (Threads.step sys_send).
Local Abbreviation run := (Threads.run sys_send).

Lemma closed_app t1 t2 :
  Threads.closed (t1 ++ t2) = Threads.closed t1 ++ Threads.closed t2.
Proof.
  induction t1 as [|e t1 IH]; [reflexivity|].
  destruct e; simpl; rewrite ?IH; reflexivity.
Qed.

Lemma quiet_ret {A} (a : A) : quiet (ret a).
Proof. intros sv. reflexivity. Qed.

Lemma quiet_raise {A} e : quiet (@raise _ A e).
Proof. intros sv. reflexivity. Qed.

Lemma quiet_get : quiet (@get (Server.server W)).
Proof. intros sv. reflexivity. Qed.

Lemma quiet_bind {A B} (m : Server.Act W A) (k : A -> Server.Act W B) :
  quiet m -> (forall a, quiet (k a)) -> quiet (bind m k).
Proof.
  intros Hm Hk sv. unfold bind. specialize (Hm sv).
  destruct (m sv) as [[a|e|] s]; simpl in *; [|exact Hm|exact Hm].
  rewrite Hk. exact Hm.
Qed.

Lemma quiet_try {A} (m : Server.Act W A) h k :
  quiet m -> (forall e, quiet (k e)) -> quiet (try_except m h k).
Proof.
  intros Hm Hk sv. unfold try_except. specialize (Hm sv).
  destruct (m sv) as [[a|e|] s]; simpl in *; try exact Hm.
  destruct (h e); simpl; [|exact Hm]. rewrite Hk. exact Hm.
Qed.

Lemma quiet_log m : quiet (@Server.log_message W m).
Proof.
  intros sv. unfold Server.log_message, modify. cbn.
  rewrite closed_app. cbn. apply app_nil_r.
Qed.

Lemma quiet_note e :
  (forall s, e <> Server.CloseSock s) -> quiet (@Server.note W e).
Proof.
  intros H sv. unfold Server.note, modify. cbn. rewrite closed_app.
  destruct e; cbn; try apply app_nil_r. exfalso. eapply H. reflexivity.
Qed.

Lemma quiet_send s data : quiet (Server.send sys_send s data).
Proof.
  intros sv. unfold Server.send.
  destruct (sys_send s data (Server.world sv)) as [w' [k|]]; cbn;
    rewrite closed_app; cbn; apply app_nil_r.
Qed.

Lemma quiet_encode_line text : quiet (@Server.encode_line W text).
Proof.
  unfold Server.encode_line. destruct (Server.line_bytes text);
    [apply quiet_ret|apply quiet_raise].
Qed.

Lemma quiet_forget a : quiet (@Server.forget W a).
Proof.
  unfold Server.forget. apply quiet_bind; [apply quiet_get|]. intros sv.
  destruct (Server.reg_mem a (Server.clients sv)); [|apply quiet_ret].
  apply quiet_bind; [|intros; apply quiet_ret]. intros s. reflexivity.
Qed.

Lemma quiet_json_dumps c : quiet (@Server.json_dumps W c).
Proof.
  unfold Server.json_dumps. apply quiet_bind; [|intros; apply quiet_ret].
  apply quiet_note. discriminate.
Qed.

Lemma quiet_fan_body c text a s dis : quiet (Server.fan_body sys_send c text a s dis).
Proof.
  unfold Server.fan_body. apply quiet_try; [|intros; apply quiet_ret].
  apply quiet_bind; [apply quiet_encode_line|]. intros data.
  apply quiet_bind; [apply quiet_send|]. intros _.
  apply quiet_bind; [apply quiet_log|]. intros _. apply quiet_ret.
Qed.

Lemma quiet_remove_all dis : quiet (@Server.remove_all W dis).
Proof.
  induction dis as [|a dis IH]; cbn [Server.remove_all]; [apply quiet_ret|].
  apply quiet_bind; [apply quiet_forget|]. intros removed.
  apply quiet_bind; [|intros; exact IH].
  destruct removed; [apply quiet_log|apply quiet_ret].
Qed.

Lemma quiet_prune dis : quiet (@Server.prune W dis).
Proof.
  unfold Server.prune. apply quiet_bind; [apply quiet_remove_all|]. intros _.
  destruct dis; [apply quiet_ret|]. apply quiet_note. discriminate.
Qed.

Lemma quiet_heartbeat s a : quiet (Server.heartbeat sys_send s a).
Proof.
  unfold Server.heartbeat. apply quiet_try.
  - apply quiet_bind; [apply quiet_json_dumps|]. intros text.
    apply quiet_bind; [apply quiet_encode_line|]. intros data.
    apply quiet_bind; [apply quiet_send|]. intros _.
    apply quiet_bind; [apply quiet_note; discriminate|]. intros _. apply quiet_ret.
  - intros e. apply quiet_bind; [apply quiet_log|]. intros _.
    apply quiet_bind; [apply quiet_forget|]. intros _.
    apply quiet_bind; [apply quiet_note; discriminate|]. intros _. apply quiet_ret.
Qed.

Lemma quiet_accept s a : quiet (@Server.accept_connection W s a).
Proof.
  unfold Server.accept_connection.
  apply quiet_bind; [intros sv; reflexivity|]. intros _.
  apply quiet_bind; [apply quiet_log|]. intros _.
  apply quiet_bind; [apply quiet_note; discriminate|]. intros _.
  apply quiet_note. discriminate.
Qed.

Lemma broadcast_step_closed pc (sv : Server.server W) :
  Threads.closed (Server.trace (snd (Threads.broadcast_step sys_send pc sv)))
  = Threads.closed (Server.trace sv).
Proof.
  destruct pc as [c|c text it dis|c text it dis a s|dis| |e]; cbn [Threads.broadcast_step];
    try reflexivity.
  - destruct (Server.clients sv); cbn; rewrite closed_app; cbn; apply app_nil_r.
  - destruct (Threads.iter_next it (Server.clients sv)) as [[a s] it'| |]; reflexivity.
  - pose proof (quiet_fan_body c text a s dis sv) as H.
    destruct (Server.fan_body _ _ _ _ _ _ sv) as [[d|e|] sv']; exact H.
  - pose proof (quiet_prune dis sv) as H.
    destruct (Server.prune dis sv) as [[d|e|] sv']; exact H.
Qed.

Lemma handler_step_closed h (sv : Server.server W) :
  Threads.closed (Server.trace (snd (Threads.handler_step sys_send h sv)))
  = Threads.closed (Server.trace sv).
Proof.
  unfold Threads.handler_step. destruct (Threads.h_pc h); try reflexivity.
  pose proof (quiet_heartbeat (Threads.h_sock h) (Threads.h_addr h) sv) as H.
  destruct (Server.heartbeat _ _ _ sv) as [[d|e|] sv']; exact H.
Qed.

(** What [stop_server] has closed and what it still will close: once the
    copy is taken, a block of any thread keeps the two together as they
    were. *)
Lemma step_keeps_copy l (sys sys' : Threads.system W) :
  Threads.copied (Threads.stopper sys) ->
  step l sys = Some sys' ->
  Threads.copied (Threads.stopper sys') /\
  Threads.closed (Server.trace (Threads.shared sys'))
    ++ Threads.remaining (Threads.stopper sys')
  = Threads.closed (Server.trace (Threads.shared sys))
    ++ Threads.remaining (Threads.stopper sys).
Proof.
  intros Hc Hstep. destruct l as [|i| |s a|c|]; cbn [Threads.step] in Hstep.
  - destruct (Threads.broadcast sys) as [pc|]; [|discriminate].
    pose proof (broadcast_step_closed pc (Threads.shared sys)) as Hq.
    destruct (Threads.broadcast_step sys_send pc (Threads.shared sys)) as [pc' sv'].
    injection Hstep as <-. cbn [Threads.shared Threads.stopper snd] in *.
    rewrite Hq. auto.
  - destruct (nth_error (Threads.handlers sys) i) as [h|]; [|discriminate].
    pose proof (handler_step_closed h (Threads.shared sys)) as Hq.
    destruct (Threads.handler_step sys_send h (Threads.shared sys)) as [h' sv'].
    injection Hstep as <-. cbn [Threads.shared Threads.stopper snd] in *.
    rewrite Hq. auto.
  - destruct (Threads.stopper sys) as [[|[|[a s] rest]| |]|]; try contradiction;
      injection Hstep as <-; cbn; rewrite ?closed_app; cbn;
      rewrite <- ?app_assoc; auto.
  - destruct (Server.running (Threads.shared sys)); [|discriminate].
    pose proof (quiet_accept s a (Threads.shared sys)) as Hq.
    injection Hstep as <-. cbn [Threads.shared Threads.stopper].
    split; [exact Hc|]. f_equal. exact Hq.
  - destruct (Threads.broadcast sys) as [[]|]; inversion Hstep; subst; cbn; auto.
  - destruct (Threads.stopper sys); [discriminate|contradiction].
Qed.

Lemma run_keeps_copy schedule : forall (sys sys' : Threads.system W),
  Threads.copied (Threads.stopper sys) ->
  run schedule sys = Some sys' ->
  Threads.closed (Server.trace (Threads.shared sys'))
    ++ Threads.remaining (Threads.stopper sys')
  = Threads.closed (Server.trace (Threads.shared sys))
    ++ Threads.remaining (Threads.stopper sys).
Proof.
  induction schedule as [|l rest IH]; intros sys sys' Hc Hrun; cbn [Threads.run] in Hrun.
  - injection Hrun as <-. reflexivity.
  - destruct (step l sys) as [sys1|] eqn:E; [|discriminate].
    destruct (step_keeps_copy l sys Hc E) as [Hc1 E1].
    rewrite (IH sys1 sys' Hc1 Hrun). exact E1.
Qed.

(** What [stop_server] closes.  A handler can run its block, the removal
    of its entry included, in every state of the other threads.
    [stop_server] takes a copy of the dictionary when it starts; from then
    on, whatever the other threads remove and however the threads are
    scheduled, the sockets it has closed and the sockets it will still close
    are together the sockets of its copy, in the order of the copy. *)
Theorem registry_shared_without_lock :
  (forall (sys : Threads.system W) i h,
     nth_error (Threads.handlers sys) i = Some h ->
     exists sys', step (Threads.RunHandler i) sys = Some sys') /\
  (forall (sys : Threads.system W),
     Threads.stopper sys = Some Threads.SEnter ->
     exists sys',
       step Threads.RunStopper sys = Some sys' /\
       Threads.stopper sys'
       = Some (Threads.SClosing (Server.clients (Threads.shared sys))) /\
       Server.clients (Threads.shared sys') = Server.clients (Threads.shared sys) /\
       Server.running (Threads.shared sys') = false) /\
  (forall schedule (sys sys' : Threads.system W) snapshot,
     Threads.stopper sys = Some (Threads.SClosing snapshot) ->
     run schedule sys = Some sys' ->
     Threads.closed (Server.trace (Threads.shared sys'))
       ++ Threads.remaining (Threads.stopper sys')
     = Threads.closed (Server.trace (Threads.shared sys)) ++ map snd snapshot).
Proof.
  split; [|split].
  - intros sys i h Hh. cbn [Threads.step]. rewrite Hh.
    destruct (Threads.handler_step sys_send h (Threads.shared sys)). eauto.
  - intros sys Hs. cbn [Threads.step]. rewrite Hs. cbn. eauto.
  - intros schedule sys sys' snapshot Hs Hrun.
    rewrite (run_keeps_copy schedule sys); [|rewrite Hs; exact I|exact Hrun].
    rewrite Hs. reflexivity.
Qed.

End ThreadFacts.

(** C9 fails: the dictionary is shared without a lock and the broadcast
    loops over the dictionary itself, not over a copy.  Here three clients
    are connected and [send_command] has written to the first two (the write
    to the second failed and its address waits for the second loop) when the
    handler thread of the second finds its connection broken and deletes its
    entry.  Asked for the next entry, the iterator of the broadcast finds the
    size of the dictionary changed and raises [RuntimeError], which
    [send_command] does not catch: the third client, connected and well, is
    never written to.  The same broadcast with no other thread between its
    steps writes to all three. *)
Theorem live_iteration_raises :
  exists before after final alone,
    Threads.run Demo.send_even
      [Threads.RunBroadcast; Threads.RunBroadcast; Threads.RunBroadcast;
       Threads.RunBroadcast; Threads.RunBroadcast]
      Demo.controller = Some before /\
    Threads.iterating before = Some (Threads.mkIter 2 3) /\
    Server.clients (Threads.shared before) = Server.clients Demo.three_clients /\
    Threads.step Demo.send_even (Threads.RunHandler 1) before = Some after /\
    Threads.iterating after = Some (Threads.mkIter 2 3) /\
    Server.clients (Threads.shared after)
    = [(Demo.host "10.0.0.2" 50000, 2%nat); (Demo.host "10.0.0.4" 50002, 4%nat)] /\
    Threads.step Demo.send_even Threads.RunBroadcast after = Some final /\
    Threads.broadcast final = Some (Threads.BRaised RuntimeError) /\
    map (fun w => fst (fst w))
        (filter (fun w => negb (if list_eq_dec Byte.byte_eq_dec (snd (fst w))
                                       (Demo.line "{'action': 'ping'}")
                                then true else false))
                (Server.sends (Server.trace (Threads.shared final))))
    = [2%nat; 3%nat] /\
    Threads.run Demo.send_even (repeat Threads.RunBroadcast 9) Demo.controller
    = Some alone /\
    Threads.broadcast alone = Some Threads.BDone /\
    map (fun w => fst (fst w)) (Server.sends (Server.trace (Threads.shared alone)))
    = [2%nat; 3%nat; 4%nat].
Proof.
  eexists _, _, _, _.
  repeat (split; [vm_compute; reflexivity|]).
  vm_compute; reflexivity.
Qed.

(** [stop_server] with its copy of three entries, scheduled among a handler
    that deletes an entry and a broadcast: it closes the three sockets of
    its copy. *)
Lemma registry_shared_without_lock_witness :
  exists sys',
    Threads.run Demo.send_even
      [Threads.RunStopper; Threads.RunHandler 1; Threads.RunStopper;
       Threads.RunBroadcast; Threads.RunBroadcast; Threads.RunStopper;
       Threads.RunStopper; Threads.RunStopper]
      Demo.stopping = Some sys' /\
    Threads.stopper sys' = Some Threads.SDone /\
    Server.clients (Threads.shared sys') = [] /\
    Threads.closed (Server.trace (Threads.shared sys'))
      ++ Threads.remaining (Threads.stopper sys')
    = [2%nat; 3%nat; 4%nat].
Proof.
  eexists. split; [vm_compute; reflexivity|].
  split; [vm_compute; reflexivity|].
  split; [vm_compute; reflexivity|].
  apply (proj2 (proj2 (@registry_shared_without_lock Demo.world Demo.send_even))
           [Threads.RunStopper; Threads.RunHandler 1; Threads.RunStopper;
            Threads.RunBroadcast; Threads.RunBroadcast; Threads.RunStopper;
            Threads.RunStopper; Threads.RunStopper]
           Demo.stopping _ (Server.clients Demo.three_clients)).
  - reflexivity.
  - vm_compute. reflexivity.
Defined.

(** ** A broadcast that no other thread disturbs *)

Section BroadcastAlone.
Variable W : Type.
Variable sys_send : Server.sock -> bytes -> W -> W * option os_error.

Local Abbreviation run := (Threads.run sys_send).

Lemma run_app s1 s2 (sys : Threads.system W) :
  run (s1 ++ s2) sys
  = match run s1 sys with
    | Some sys' => run s2 sys'
    | None => None
    end.
Proof.
  revert sys. induction s1 as [|l s1 IH]; intros sys; cbn [app Threads.run];
    [reflexivity|].
  destruct (Threads.step sys_send l sys); [apply IH|reflexivity].
Qed.

Lemma fan_body_returns c text data a s dis (sv : Server.server W) :
  Server.line_bytes text = Some data ->
  exists dis' sv',
    Server.fan_body sys_send c text a s dis sv = (Ret dis', sv') /\
    Server.clients sv' = Server.clients sv.
Proof.
  intros Hd. unfold Server.fan_body, try_except, bind at 1, Server.encode_line.
  rewrite Hd. unfold ret at 1, bind at 1, Server.send.
  destruct (sys_send s data (Server.world sv)) as [w1 [k|]]; cbn [is_OSError].
  - eexists _, _. split; reflexivity.
  - eexists _, _. split; reflexivity.
Qed.

Lemma remove_all_returns dis : forall (sv : Server.server W),
  exists sv', Server.remove_all dis sv = (Ret tt, sv').
Proof.
  induction dis as [|a dis IH]; intros sv; cbn [Server.remove_all]; [eexists; reflexivity|].
  unfold bind at 1, Server.forget, bind at 1, get.
  destruct (Server.reg_mem a (Server.clients sv)).
  - unfold bind at 1, modify, ret at 1, bind at 1, Server.log_message, modify.
    apply IH.
  - unfold ret at 1, bind at 1, ret at 1. apply IH.
Qed.

Lemma prune_returns dis (sv : Server.server W) :
  exists sv', Server.prune dis sv = (Ret tt, sv').
Proof.
  unfold Server.prune, bind. destruct (remove_all_returns dis sv) as [sv' E].
  rewrite E. destruct dis; eexists; reflexivity.
Qed.

(** The loop of the broadcast, from any point of the dictionary on. *)
Lemma loop_alone c text data hs st rest : forall done dis (sv : Server.server W),
  Server.line_bytes text = Some data ->
  Server.clients sv = done ++ rest ->
  exists n dis' sv',
    Server.fan_out sys_send c text rest dis sv = (Ret dis', sv') /\
    run (repeat Threads.RunBroadcast n)
      (Threads.mkSystem sv
         (Some (Threads.BNext c text
                  (Threads.mkIter (List.length done)
                                  (List.length (Server.clients sv))) dis))
         hs st)
    = Some (Threads.mkSystem sv' (Some (Threads.BPrune dis')) hs st).
Proof.
  induction rest as [|[a s] rest IH]; intros done dis sv Hd Hc.
  - exists 1%nat, dis, sv. split; [reflexivity|].
    cbn [repeat Threads.run Threads.step Threads.broadcast Threads.shared
         Threads.broadcast_step].
    unfold Threads.iter_next. cbn [Threads.it_size Threads.it_pos].
    rewrite Nat.eqb_refl, Hc, app_nil_r.
    rewrite (proj2 (nth_error_None done (List.length done))) by lia.
    reflexivity.
  - destruct (@fan_body_returns c text data a s dis sv Hd) as (dis1 & sv1 & Eb & Ec).
    destruct (IH (done ++ [(a, s)]) dis1 sv1 Hd) as (n & dis' & sv' & Ef & Er).
    { rewrite Ec, Hc, <- app_assoc. reflexivity. }
    exists (S (S n)), dis', sv'. split.
    + cbn [Server.fan_out]. unfold bind. rewrite Eb. exact Ef.
    + cbn [repeat Threads.run]. 
      cbn [Threads.step Threads.broadcast Threads.shared Threads.broadcast_step].
      unfold Threads.iter_next. cbn [Threads.it_size Threads.it_pos].
      rewrite Nat.eqb_refl. rewrite Hc at 1.
      rewrite nth_error_app2 by lia. rewrite Nat.sub_diag. cbn [nth_error].
      cbn [Threads.step Threads.broadcast Threads.shared Threads.broadcast_step
           Threads.handlers Threads.stopper].
      rewrite Eb. rewrite length_app, Nat.add_1_r, Ec in Er. exact Er.
Qed.

(** Run block after block with no other thread in between, [send_command]
    in the scheduler does what [send_command] does as a function. *)
Lemma broadcast_alone (c : Server.command) (sys : Threads.system W) :
  Threads.broadcast sys = Some (Threads.BEnter c) ->
  exists n sys',
    run (repeat Threads.RunBroadcast n) sys = Some sys' /\
    Threads.broadcast sys' = Some Threads.BDone /\
    Server.send_command sys_send c (Threads.shared sys)
    = (Ret tt, Threads.shared sys') /\
    Threads.handlers sys' = Threads.handlers sys /\
    Threads.stopper sys' = Threads.stopper sys.
Proof.
  intros Hb. destruct sys as [sv b hs st]. cbn [Threads.broadcast Threads.shared
    Threads.handlers Threads.stopper] in *. subst b.
  destruct (Server.clients sv) as [|e es] eqn:Ec.
  - exists 1%nat. eexists. split.
    + cbn [repeat Threads.run Threads.step Threads.broadcast Threads.shared
           Threads.broadcast_step]. rewrite Ec. reflexivity.
    + cbn. unfold Server.send_command, bind, get. rewrite Ec. auto.
  - pose proof (line_bytes_command c) as Hd.
    destruct (@loop_alone c _ _ hs st (Server.clients sv) [] []
                (Server.emit (Server.Serialize c) sv) Hd eq_refl)
      as (n & dis' & sv' & Ef & Er).
    destruct (prune_returns dis' sv') as [sv'' Ep].
    exists (1 + n + 1)%nat. exists (Threads.mkSystem sv'' (Some Threads.BDone) hs st).
    split.
    + rewrite !repeat_app, !run_app.
      cbn [repeat Threads.run Threads.step Threads.broadcast Threads.shared
           Threads.broadcast_step Threads.handlers Threads.stopper].
      rewrite Ec, <- Ec. cbn [List.length Server.clients Server.emit] in Er.
      rewrite Er.
      cbn [Threads.run Threads.step Threads.broadcast Threads.shared
           Threads.broadcast_step Threads.handlers Threads.stopper].
      rewrite Ep. reflexivity.
    + cbn [Threads.broadcast Threads.shared Threads.handlers Threads.stopper].
      split; [reflexivity|]. split; [|auto].
      unfold Server.send_command, bind at 1, get. rewrite Ec, <- Ec.
      unfold bind at 1, Server.json_dumps, bind at 1, Server.note, modify, ret at 1.
      unfold bind at 1. cbn [Server.clients Server.emit] in Ef. rewrite Ef.
      exact Ep.
Qed.

End BroadcastAlone.

(** ** The broadcast as the claim has it *)

Section BroadcastClaims.
Variable W : Type.
Variable sys_send : Server.sock -> bytes -> W -> W * option os_error.

(** C1, as amended.  Take a call of [send_command] whose steps run one
    after the other, with no step of another thread of the controller
    between them.  It comes to its end, and it is [send_command] run from
    its first statement to its last.  With no client connected it only logs
    that: nothing is serialized or written and the dictionary stays empty.
    Otherwise the command is serialized once, before the first write; the
    same bytes, the serialized command and the terminator, are written once
    to every connection of the dictionary, in its order, whether or not the
    earlier writes failed; and afterwards the dictionary holds the entries
    whose write went through and no others. *)
Theorem broadcast_fan_out (c : Server.command) (sys : Threads.system W) :
  NoDup (map fst (Server.clients (Threads.shared sys))) ->
  Threads.broadcast sys = Some (Threads.BEnter c) ->
  exists n sys',
    Threads.run sys_send (repeat Threads.RunBroadcast n) sys = Some sys' /\
    Threads.broadcast sys' = Some Threads.BDone /\
    Threads.handlers sys' = Threads.handlers sys /\
    Threads.stopper sys' = Threads.stopper sys /\
    Server.send_command sys_send c (Threads.shared sys)
    = (Ret tt, Threads.shared sys') /\
    match Server.clients (Threads.shared sys) with
    | [] =>
        Threads.shared sys'
        = Server.emit (Server.Log Server.MsgNoClients) (Threads.shared sys)
    | _ :: _ =>
        exists data results events,
          Server.line_bytes (dumps (Server.to_value c)) = Some data /\
          List.length results = List.length (Server.clients (Threads.shared sys)) /\
          Server.trace (Threads.shared sys')
          = Server.trace (Threads.shared sys) ++ Server.Serialize c :: events /\
          Server.serializations events = [] /\
          Server.sends events
          = Server.fan_sends data (Server.clients (Threads.shared sys)) results /\
          Server.clients (Threads.shared sys')
          = Server.survivors (Server.clients (Threads.shared sys)) results /\
          Server.running (Threads.shared sys')
          = Server.running (Threads.shared sys)
    end.
Proof.
  intros Hnd Hb.
  destruct (@broadcast_alone W sys_send c sys Hb)
    as (n & sys' & Hrun & Hdone & Hsend & Hh & Hs).
  exists n, sys'. split; [exact Hrun|]. split; [exact Hdone|].
  split; [exact Hh|]. split; [exact Hs|]. split; [exact Hsend|].
  pose proof (@send_command_alone W sys_send c (Threads.shared sys) Hnd) as H.
  destruct (Server.clients (Threads.shared sys)) as [|e es].
  - rewrite Hsend in H. injection H as H. exact H.
  - destruct H as (data & results & sv' & events & Hd & Hl & Hsc & Ht & Hse & Hw & Hc & Hr).
    rewrite Hsend in Hsc. injection Hsc as <-.
    exists data, results, events. auto 10.
Qed.

End BroadcastClaims.

(** The broadcast of the scenario to three clients, the second of which has
    gone away, with the three handler threads waiting. *)
Lemma broadcast_fan_out_witness :
  exists n sys',
    Threads.run Demo.send_even (repeat Threads.RunBroadcast n) Demo.controller
    = Some sys' /\
    Threads.broadcast sys' = Some Threads.BDone /\
    Threads.handlers sys' = Threads.handlers Demo.controller /\
    Threads.stopper sys' = Threads.stopper Demo.controller /\
    Server.send_command Demo.send_even Demo.lab_closing Demo.three_clients
    = (Ret tt, Threads.shared sys') /\
    exists data results events,
      Server.line_bytes (dumps (Server.to_value Demo.lab_closing)) = Some data /\
      List.length results = 3%nat /\
      Server.trace (Threads.shared sys')
      = [] ++ Server.Serialize Demo.lab_closing :: events /\
      Server.serializations events = [] /\
      Server.sends events
      = Server.fan_sends data (Server.clients Demo.three_clients) results /\
      Server.clients (Threads.shared sys')
      = Server.survivors (Server.clients Demo.three_clients) results /\
      Server.running (Threads.shared sys') = true.
Proof.
  apply (@broadcast_fan_out Demo.world Demo.send_even Demo.lab_closing
           Demo.controller).
  - repeat constructor; simpl; intuition discriminate.
  - reflexivity.
Defined.

(* ===================================================================== *)
(** * More of the agent, the controller and the launcher *)
(* ===================================================================== *)

Import Py Json Eff.
Local Open Scope py_scope.

(** ** White space around a line *)

Lemma lstrip_blank a x : Text.blank a -> lstrip (a ++ x) = lstrip x.
Proof.
  induction 1 as [|c a Hc _ IH]; [reflexivity|].
  cbn [app lstrip]. rewrite Hc. exact IH.
Qed.

Lemma lstrip_app l b :
  lstrip (l ++ b) = match lstrip l with
                    | [] => lstrip b
                    | _ :: _ => lstrip l ++ b
                    end.
Proof.
  induction l as [|c l IH]; cbn [app lstrip].
  - destruct (lstrip b); reflexivity.
  - destruct (isspace c); [exact IH|reflexivity].
Qed.

Lemma blank_rev b : Text.blank b -> Text.blank (rev b).
Proof. unfold Text.blank. apply Forall_rev. Qed.

Lemma rstrip_blank x b : Text.blank b -> rstrip (x ++ b) = rstrip x.
Proof.
  intros Hb. unfold rstrip. rewrite rev_app_distr.
  rewrite lstrip_blank by (apply blank_rev; exact Hb). reflexivity.
Qed.

Lemma lstrip_all_blank b : Text.blank b -> lstrip b = [].
Proof.
  intros Hb. rewrite <- (app_nil_r b). rewrite lstrip_blank by exact Hb. reflexivity.
Qed.

Lemma strip_blank_around a l b :
  Text.blank a -> Text.blank b -> strip (a ++ l ++ b) = strip l.
Proof.
  intros Ha Hb. unfold strip. rewrite lstrip_blank by exact Ha.
  rewrite lstrip_app. destruct (lstrip l) as [|c r] eqn:E.
  - rewrite lstrip_all_blank by exact Hb. reflexivity.
  - rewrite rstrip_blank by exact Hb. reflexivity.
Qed.

Lemma strip_blank a : Text.blank a -> strip a = [].
Proof.
  intros Ha. unfold strip. rewrite lstrip_all_blank by exact Ha. reflexivity.
Qed.

(** X1.  White space around a line, a carriage return before the terminator
    included, does not change what the line does, and a line of white
    space only does nothing at all: whatever the interpreter behind the
    read loop, the agent's own in particular. *)
Theorem line_whitespace_ignored (W : Type)
    (interpret : value -> Client.Act W unit) (a b line : str)
    (st : Client.client W) :
  Text.blank a -> Text.blank b ->
  Printing.handle_line interpret (a ++ line ++ b) st
  = Printing.handle_line interpret line st /\
  Printing.handle_line interpret (a ++ b) st = (Ret tt, st).
Proof.
  intros Ha Hb. split.
  - unfold Printing.handle_line. rewrite (@strip_blank_around a line b Ha Hb).
    reflexivity.
  - unfold Printing.handle_line.
    rewrite strip_blank; [reflexivity|]. apply Forall_app. split; assumption.
Qed.

Lemma line_whitespace_ignored_witness :
  Client.handle_line Demo.exec_ok Demo.timestamp
    ([32%N; 9%N] ++ lit "oops" ++ [13%N]) Demo.listening
  = Client.handle_line Demo.exec_ok Demo.timestamp (lit "oops") Demo.listening /\
  Client.handle_line Demo.exec_ok Demo.timestamp ([32%N; 9%N] ++ [13%N])
    Demo.listening
  = (Ret tt, Demo.listening).
Proof.
  apply (@line_whitespace_ignored Demo.world
           (Client.process_command Demo.exec_ok Demo.timestamp));
    repeat constructor.
Defined.

(** ** Text after the last terminator *)

Section Tail.
Variable W : Type.
Variable sys_exec : Client.exec_call -> W -> W * option exn.
Variable sys_timestamp : W -> str.

Lemma contains_app c x y :
  contains c (x ++ y) = contains c x || contains c y.
Proof.
  induction x as [|a x IH]; [reflexivity|].
  cbn [app contains]. destruct (N.eqb a c); [reflexivity|exact IH].
Qed.

Lemma segments_tail t tail :
  contains NL tail = false ->
  fst (Client.spec_segments (t ++ tail)) = fst (Client.spec_segments t).
Proof.
  intros Ht. rewrite segments_app. cbn [fst].
  rewrite (@contains_false_segments (snd (Client.spec_segments t) ++ tail)).
  - cbn [fst]. apply app_nil_r.
  - rewrite contains_app, segments_remainder, Ht. reflexivity.
Qed.

Lemma session_tail t tail (st : Client.client W) :
  contains NL tail = false ->
  Client.spec_session sys_exec sys_timestamp [] (t ++ tail) st
  = Client.spec_session sys_exec sys_timestamp [] t st.
Proof.
  intros Ht. unfold Client.spec_session. cbn [app].
  rewrite (@segments_tail t tail Ht). reflexivity.
Qed.

End Tail.

(** X2.  What arrives after the last terminator is never interpreted: a
    stream that ends in an unterminated piece of text is handled exactly as
    the stream without that piece, however the stream is cut into reads. *)
Theorem unterminated_tail_dropped (W : Type)
    (sys_exec : Client.exec_call -> W -> W * option exn)
    (sys_timestamp : W -> str)
    (chunks : list bytes) (whole : bytes) (t tail : str)
    (st : Client.client W) :
  Forall (fun c : bytes => c <> [] /\ decode c <> None) chunks ->
  decode (List.concat chunks) = Some (t ++ tail) ->
  contains NL tail = false ->
  decode whole = Some t ->
  Client.listen_for_commands sys_exec sys_timestamp
    (map (@inr os_error bytes) chunks) st
  = Client.listen_for_commands sys_exec sys_timestamp [inr whole] st.
Proof.
  intros Hc Hd Ht Hw. unfold Client.listen_for_commands.
  destruct (Client.running st) eqn:Hr.
  - etransitivity; [apply (@listen_chunks W sys_exec sys_timestamp chunks (t ++ tail) [] st Hr eq_refl Hc Hd)|].
    rewrite (@session_tail W sys_exec sys_timestamp t tail st Ht).
    symmetry. apply listen_whole; [exact Hr|reflexivity|exact Hw].
  - destruct chunks as [|c cs]; cbn [map Client.listen_loop];
      unfold bind, get; rewrite Hr; reflexivity.
Qed.

Lemma unterminated_tail_dropped_witness :
  Client.listen_for_commands Demo.exec_ok Demo.timestamp
    (map (@inr os_error bytes)
       [Demo.text "{'action': 'pi"; Demo.line "ng'}" ++ Demo.text "{'action': 'shut"])
    Demo.listening
  = Client.listen_for_commands Demo.exec_ok Demo.timestamp
      [inr (Demo.line "{'action': 'ping'}")] Demo.listening.
Proof.
  apply unterminated_tail_dropped
    with (t := lit "{" ++ [34%N] ++ lit "action" ++ [34%N] ++ lit ": " ++ [34%N]
               ++ lit "ping" ++ [34%N] ++ lit "}" ++ [NL])
         (tail := lit "{" ++ [34%N] ++ lit "action" ++ [34%N] ++ lit ": " ++ [34%N]
                  ++ lit "shut").
  - repeat constructor; discriminate.
  - vm_compute. reflexivity.
  - vm_compute. reflexivity.
  - vm_compute. reflexivity.
Defined.


(** ** What a statement adds to the trace *)

Create HintDb emits.

Section Emits.
Variable W : Type.
Variable P : Client.event -> Prop.

Local Abbreviation emits := (@Frame.emits W _ P).

Lemma emits_ret {A} (a : A) : emits (ret a).
Proof. intros st. exists []. rewrite app_nil_r. split; [reflexivity|constructor]. Qed.

Lemma emits_raise {A} e : emits (@raise _ A e).
Proof. intros st. exists []. rewrite app_nil_r. split; [reflexivity|constructor]. Qed.

Lemma emits_get : emits (@get (Client.client W)).
Proof. intros st. exists []. rewrite app_nil_r. split; [reflexivity|constructor]. Qed.

Lemma emits_out {A} : emits (fun st : Client.client W => (@OutOfFuel A, st)).
Proof. intros st. exists []. rewrite app_nil_r. split; [reflexivity|constructor]. Qed.

Lemma emits_bind {A B} (m : Client.Act W A) (k : A -> Client.Act W B) :
  emits m -> (forall a, emits (k a)) -> emits (bind m k).
Proof.
  intros Hm Hk st. unfold bind. destruct (Hm st) as (e1 & H1 & F1).
  destruct (m st) as [[a|e|] s']; cbn [snd] in *.
  - destruct (Hk a s') as (e2 & H2 & F2). exists (e1 ++ e2).
    rewrite H2, H1, app_assoc. split; [reflexivity|].
    apply Forall_app. split; assumption.
  - exists e1. split; assumption.
  - exists e1. split; assumption.
Qed.

Lemma emits_try {A} (m : Client.Act W A) h k :
  emits m -> (forall e, emits (k e)) -> emits (try_except m h k).
Proof.
  intros Hm Hk st. unfold try_except. destruct (Hm st) as (e1 & H1 & F1).
  destruct (m st) as [[a|e|] s']; cbn [snd] in *.
  - exists e1. split; assumption.
  - destruct (h e).
    + destruct (Hk e s') as (e2 & H2 & F2). exists (e1 ++ e2).
      rewrite H2, H1, app_assoc. split; [reflexivity|].
      apply Forall_app. split; assumption.
    + exists e1. split; assumption.
  - exists e1. split; assumption.
Qed.

Lemma emits_note e : P e -> emits (@Client.note W e).
Proof.
  intros He st. exists [e]. split; [reflexivity|]. constructor; [exact He|constructor].
Qed.

Lemma emits_log m : P (Client.Log m) -> emits (@Client.log_message W m).
Proof. intros He. apply (emits_note He). Qed.

Lemma emits_modify (f : Client.client W -> Client.client W) :
  (forall st, Client.trace (f st) = Client.trace st) -> emits (modify f).
Proof.
  intros Hf st. exists []. rewrite app_nil_r. split; [apply Hf|constructor].
Qed.

Lemma emits_if {A} (b : bool) (x y : Client.Act W A) :
  emits x -> emits y -> emits (if b then x else y).
Proof. destruct b; auto. Qed.

Variable sys_exec : Client.exec_call -> W -> W * option exn.

Lemma emits_exec c :
  (forall r, P (Client.Exec c r)) -> emits (Client.exec sys_exec c).
Proof.
  intros Hc st. unfold Client.exec.
  destruct (sys_exec c (Client.world st)) as [w' r].
  exists [Client.Exec c r]. split.
  - destruct r; reflexivity.
  - constructor; [apply Hc|constructor].
Qed.

Lemma emits_get_field c k d : emits (@Client.get_field W c k d).
Proof. destruct c; cbn; first [apply emits_raise | apply emits_ret]. Qed.

End Emits.

Lemma emits_mono W A (P Q : Client.event -> Prop) (m : Client.Act W A) :
  (forall e, P e -> Q e) -> Frame.emits P m -> Frame.emits Q m.
Proof.
  intros HPQ Hm st. destruct (Hm st) as (evs & H & F). exists evs.
  split; [exact H|]. eapply Forall_impl; eauto.
Qed.

#[local] Hint Resolve emits_ret emits_raise emits_get emits_out emits_get_field
  : emits.
#[local] Hint Extern 2 (Frame.emits _ (bind _ _)) =>
  apply emits_bind; [|intros] : emits.
#[local] Hint Extern 2 (Frame.emits _ (try_except _ _ _)) =>
  apply emits_try; [|intros] : emits.
#[local] Hint Extern 3 (Frame.emits _ (if _ then _ else _)) =>
  apply emits_if : emits.
#[local] Hint Extern 2 (Frame.emits _ (Client.log_message _)) =>
  apply emits_log; exact I : emits.
#[local] Hint Extern 2 (Frame.emits _ (Client.note _)) =>
  apply emits_note; exact I : emits.
#[local] Hint Extern 2 (Frame.emits _ (Client.exec _ _)) =>
  apply emits_exec; intros; exact I : emits.

Section SessionEvents.
Variable W : Type.
Variable sys_exec : Client.exec_call -> W -> W * option exn.
Variable sys_timestamp : W -> str.

Local Abbreviation quiet := (@Frame.emits W _ Frame.of_session).

Lemma session_lock_loop cmds : quiet (Client.lock_loop sys_exec cmds).
Proof.
  induction cmds as [|c r IH]; cbn [Client.lock_loop]; auto with emits.
Qed.

Lemma session_close_loop apps : quiet (Client.close_loop sys_exec apps).
Proof. induction apps as [|a r IH]; cbn [Client.close_loop]; auto with emits. Qed.

Lemma session_show_message m : quiet (Client.show_message sys_exec m).
Proof. unfold Client.show_message. auto 10 with emits. Qed.

Lemma session_dispatch c a : quiet (Client.dispatch sys_exec sys_timestamp c a).
Proof.
  pose proof session_lock_loop. pose proof session_close_loop.
  pose proof session_show_message.
  unfold Client.dispatch.
  repeat (apply emits_if; [auto 10 with emits|]).
  auto with emits.
Qed.

Lemma session_process_command c :
  quiet (Client.process_command sys_exec sys_timestamp c).
Proof.
  pose proof session_dispatch. unfold Client.process_command. auto 10 with emits.
Qed.

Lemma session_handle_line l : quiet (Client.handle_line sys_exec sys_timestamp l).
Proof.
  pose proof session_process_command.
  unfold Client.handle_line, Client.json_loads.
  destruct (strip l); [auto with emits|].
  apply emits_try; [|intros; auto with emits].
  apply emits_bind; [|intros; auto].
  destruct (loads _); auto with emits.
Qed.

Lemma session_drain fuel : forall b,
  quiet (Client.drain sys_exec sys_timestamp fuel b).
Proof.
  pose proof session_handle_line.
  induction fuel as [|n IH]; intros b; cbn [Client.drain];
    destruct (contains NL b); auto with emits.
  destruct (split_once NL b) as [[line rest]|]; auto with emits.
Qed.

Lemma session_listen_body r b :
  quiet (Client.listen_body sys_exec sys_timestamp r b).
Proof.
  pose proof session_drain.
  unfold Client.listen_body, Client.recv_decode.
  apply emits_try; [|intros e; destruct (is_OSError e); auto with emits].
  apply emits_bind.
  - destruct r as [k|bs]; [auto with emits|]. destruct (decode bs); auto with emits.
  - intros [|c d]; auto with emits.
Qed.

Lemma session_listen_loop recvs : forall b,
  quiet (Client.listen_loop sys_exec sys_timestamp recvs b).
Proof.
  pose proof session_listen_body.
  induction recvs as [|r rs IH]; intros b; cbn [Client.listen_loop].
  - apply emits_bind; [auto with emits|]. intros st.
    destruct (Client.running st); auto with emits.
  - apply emits_bind; [auto with emits|]. intros st.
    destruct (Client.running st); [|auto with emits].
    apply emits_bind; [auto|]. intros [b'|]; auto with emits.
Qed.

End SessionEvents.


(** ** The agent left running *)

Lemma searches_app t1 t2 :
  Frame.searches (t1 ++ t2) = Frame.searches t1 ++ Frame.searches t2.
Proof.
  induction t1 as [|e t IH]; [reflexivity|].
  destruct e; cbn [app Frame.searches]; rewrite ?IH; reflexivity.
Qed.

Lemma searches_session evs :
  Forall Frame.of_session evs -> Frame.searches evs = [].
Proof.
  induction 1 as [|e evs He _ IH]; [reflexivity|].
  destruct e; cbn in He |- *; try contradiction; exact IH.
Qed.

Lemma unclosed_from_app t1 : forall open t2,
  Frame.unclosed_from open (t1 ++ t2)
  = Frame.unclosed_from (Frame.unclosed_from open t1) t2.
Proof.
  induction t1 as [|e t IH]; intros open t2; [reflexivity|].
  destruct e as [| | | | | |[?|?]| | |]; cbn [app Frame.unclosed_from]; apply IH.
Qed.

Lemma unclosed_app t1 t2 :
  Frame.unclosed (t1 ++ t2) = Frame.unclosed_from (Frame.unclosed t1) t2.
Proof. apply unclosed_from_app. Qed.

Lemma unclosed_session evs : forall open,
  Forall Frame.of_session evs -> Frame.unclosed_from open evs = open.
Proof.
  induction evs as [|e evs IH]; intros open H; [reflexivity|].
  inversion H as [|? ? He Hr]; subst.
  destruct e; cbn in He |- *; try contradiction; apply IH; exact Hr.
Qed.

Lemma unclosed_search evs : forall open,
  Forall Frame.of_search evs -> Frame.unclosed_from open evs = open.
Proof.
  induction evs as [|e evs IH]; intros open H; [reflexivity|].
  inversion H as [|? ? He Hr]; subst.
  destruct e; cbn in He |- *; try contradiction; apply IH; exact Hr.
Qed.

Section Resident.
Variable W : Type.
Variable sys_exec : Client.exec_call -> W -> W * option exn.
Variable sys_timestamp : W -> str.
Variable sys_hostname : W -> W * (exn + str).
Variable sys_probe : str -> N -> Q -> W -> W * (exn + Z).
Variable sys_socket : W -> W * (exn + Client.sock).
Variable sys_connect : Client.sock -> str -> N -> W -> W * option exn.

Local Abbreviation discover_server :=
  (Client.discover_server sys_hostname sys_probe).
Local Abbreviation connect_to_server :=
  (Client.connect_to_server sys_hostname sys_probe sys_socket sys_connect).
Local Abbreviation run_step :=
  (Client.run_step sys_exec sys_timestamp sys_hostname sys_probe sys_socket
     sys_connect).
Local Abbreviation move :=
  (Client.move sys_exec sys_timestamp sys_hostname sys_probe sys_socket
     sys_connect).
Local Abbreviation moves :=
  (Client.moves sys_exec sys_timestamp sys_hostname sys_probe sys_socket
     sys_connect).
Local Abbreviation runs :=
  (Frame.runs sys_exec sys_timestamp sys_hostname sys_probe sys_socket
     sys_connect).
Local Abbreviation searching := (@Frame.emits W _ Frame.of_search).

Lemma search_hostname : searching (Client.hostname sys_hostname).
Proof.
  intros st. unfold Client.hostname.
  destruct (sys_hostname (Client.world st)) as [w' r].
  exists [Client.Hostname r]. split.
  - destruct r; reflexivity.
  - repeat constructor.
Qed.

Lemma search_probe ip port : searching (Client.probe sys_probe ip port).
Proof.
  intros st. unfold Client.probe.
  destruct (sys_probe ip port Client.probe_timeout (Client.world st)) as [w' r].
  exists [Client.Probe ip port Client.probe_timeout r]. split.
  - destruct r; reflexivity.
  - repeat constructor.
Qed.

Lemma search_probe_host base port i :
  searching (Client.probe_host sys_probe base port i).
Proof.
  pose proof search_probe. unfold Client.probe_host. auto 10 with emits.
Qed.

Lemma search_scan base port hosts :
  searching (Client.scan sys_probe base port hosts).
Proof.
  pose proof search_probe_host.
  induction hosts as [|i r IH]; cbn [Client.scan]; auto with emits.
  apply emits_bind; [auto|]. intros [ip|]; auto with emits.
Qed.

Lemma search_discover_server : searching discover_server.
Proof.
  pose proof search_hostname. pose proof search_scan.
  unfold Client.discover_server.
  apply emits_bind; [auto with emits|]. intros _.
  apply emits_try; [|intros; auto with emits].
  apply emits_bind; [auto|]. intros out.
  destruct (split_ws (strip out)); auto 10 with emits.
Qed.

(** The search always comes back with an answer. *)
Lemma discover_server_returns (st : Client.client W) :
  exists r st',
    discover_server st = (Ret r, st') /\ Client.same_fields st st' /\
    exists evs,
      Client.trace st' = Client.trace st ++ evs /\ Forall Frame.of_search evs.
Proof.
  pose proof (@tame_discover_server W sys_hostname sys_probe st) as [Hf Hs].
  pose proof (search_discover_server st) as He.
  assert (Hnr : forall e, fst (discover_server st) <> Raise e).
  { intros e. unfold Client.discover_server, bind at 1.
    cbn [Client.log_message modify].
    unfold try_except.
    match goal with |- context [match ?b with (_, _) => _ end] => destruct b as [[a|e'|] s'] end;
      cbn; try discriminate. }
  destruct (discover_server st) as [[r|e|] st'] eqn:E; cbn [fst snd] in *.
  - exists r, st'. repeat split; try apply Hs. exact He.
  - exfalso. apply (Hnr e). reflexivity.
  - exfalso. apply Hf. reflexivity.
Qed.

(** What [connect_to_server] does when the address of the controller is
    known. *)
Lemma connect_known (st : Client.client W) c ip' :
  Client.server_ip st = Some (c :: ip') ->
  let ip := c :: ip' in
  let port := Client.server_port st in
  connect_to_server st =
    match sys_socket (Client.world st) with
    | (w1, inl e) =>
        (Ret false,
         Client.advance w1
           [Client.Socket (inl e); Client.Log (Client.MsgConnectError e)] st)
    | (w1, inr s) =>
        match sys_connect s ip port w1 with
        | (w2, None) =>
            (Ret true,
             Client.set_client_socket (Some s)
               (Client.advance w2
                  [Client.Socket (inr s); Client.Connect s ip port None;
                   Client.Log (Client.MsgConnected ip port)] st))
        | (w2, Some e) =>
            (Ret false,
             Client.set_client_socket (Some s)
               (Client.advance w2
                  [Client.Socket (inr s); Client.Connect s ip port (Some e);
                   Client.Log (Client.MsgConnectError e)] st))
        end
    end.
Proof.
  intros Hip. cbv zeta. destruct st as [sip port sock run delay w tr].
  cbn [Client.server_ip] in Hip. subst sip.
  unfold Client.connect_to_server, bind, get. cbn.
  unfold try_except, bind, Client.new_socket. cbn.
  destruct (sys_socket w) as [w1 [e|s]]; cbn.
  - unfold Client.advance, Client.emit. cbn. rewrite <- app_assoc. reflexivity.
  - unfold Client.connect. cbn.
    destruct (sys_connect s (c :: ip') port w1) as [w2 [e|]]; cbn;
      unfold Client.advance, Client.emit, Client.set_client_socket; cbn;
      rewrite <- !app_assoc; reflexivity.
Qed.

(** And when it is not: the search first, and then as above with what the
    search found. *)
Lemma connect_unknown (st : Client.client W) :
  Client.no_server_ip (Client.server_ip st) = true ->
  exists r st1,
    discover_server st = (Ret r, st1) /\
    connect_to_server st =
      match r with
      | Some (_ :: _) => connect_to_server (Client.set_server_ip r st1)
      | _ =>
          (Ret false,
           Client.emit (Client.Log Client.MsgNoServer)
                       (Client.set_server_ip r st1))
      end.
Proof.
  intros Hno. destruct (discover_server_returns st) as (r & st1 & Hd & _).
  exists r, st1. split; [exact Hd|].
  unfold Client.connect_to_server at 1. unfold bind at 1, get at 1. cbn [fst snd].
  rewrite Hno. unfold bind at 1. unfold bind at 1. rewrite Hd.
  cbn [modify]. unfold bind at 1, get at 1.
  destruct r as [[|c ip']|].
  - destruct st1; reflexivity.
  - unfold Client.connect_to_server. unfold bind at 3, get at 2. cbn [fst snd].
    destruct st1; reflexivity.
  - destruct st1; reflexivity.
Qed.

Lemma connect_returns (st : Client.client W) :
  exists ok st', connect_to_server st = (Ret ok, st').
Proof.
  assert (Hk : forall s c ip', Client.server_ip s = Some (c :: ip') ->
                exists ok st', connect_to_server s = (Ret ok, st')).
  { intros s c ip' Hs. rewrite (connect_known s Hs).
    destruct (sys_socket _) as [w1 [e|k]]; [eauto|].
    destruct (sys_connect _ _ _ _) as [w2 [e|]]; eauto. }
  destruct (Client.no_server_ip (Client.server_ip st)) eqn:Hno.
  - destruct (connect_unknown st Hno) as (r & st1 & _ & ->).
    destruct r as [[|c ip']|]; eauto.
    apply (Hk _ c ip'). destruct st1; reflexivity.
  - destruct (Client.server_ip st) as [[|c ip']|] eqn:Hs; try discriminate.
    eapply Hk; eauto.
Qed.

Lemma after_self {A} (r : outcome A * Client.client W) (next : A -> Client.pc) :
  Client.self (Client.after r next) = snd r.
Proof. destruct r as [[a|e|] st]; reflexivity. Qed.

Lemma connect_running (st : Client.client W) :
  Client.running (snd (connect_to_server st)) = Client.running st.
Proof.
  assert (Hk : forall s c ip', Client.server_ip s = Some (c :: ip') ->
                Client.running (snd (connect_to_server s)) = Client.running s).
  { intros s c ip' Hs. rewrite (connect_known s Hs).
    destruct (sys_socket _) as [w1 [e|k]]; [reflexivity|].
    destruct (sys_connect _ _ _ _) as [w2 [e|]]; reflexivity. }
  destruct (Client.no_server_ip (Client.server_ip st)) eqn:Hno.
  - destruct (connect_unknown st Hno) as (r & st1 & Hd & ->).
    destruct (discover_server_returns st) as (r' & st1' & Hd' & Hsame & _).
    rewrite Hd in Hd'. inversion Hd'; subst r' st1'.
    destruct Hsame as (_ & _ & _ & Hrun & _).
    destruct r as [[|c ip']|]; cbn [snd]; try exact Hrun.
    rewrite (Hk _ c ip') by (destruct st1; reflexivity).
    destruct st1; exact Hrun.
  - destruct (Client.server_ip st) as [[|c ip']|] eqn:Hs; try discriminate.
    eapply Hk; eauto.
Qed.

(** The session as [run] calls it: it returns, leaves the fields alone and
    adds only events of a session. *)
Lemma listener_returns recvs (st : Client.client W) :
  exists st' evs,
    (Client.log_message Client.MsgStartingListener ;;
     Client.listen_for_commands sys_exec sys_timestamp recvs) st = (Ret tt, st') /\
    Client.same_fields st st' /\
    Client.trace st' = Client.trace st ++ evs /\
    Forall Frame.of_session evs.
Proof.
  unfold bind at 1. cbn [Client.log_message modify].
  unfold Client.listen_for_commands.
  destruct (@listen_loop_returns W sys_exec sys_timestamp recvs []
              (Client.emit (Client.Log Client.MsgStartingListener) st))
    as (st' & Hl & Hsame).
  destruct (@session_listen_loop W sys_exec sys_timestamp recvs []
              (Client.emit (Client.Log Client.MsgStartingListener) st))
    as (evs & Ht & Hf).
  rewrite Hl in Ht |- *. cbn [snd] in Ht.
  exists st', (Client.Log Client.MsgStartingListener :: evs).
  split; [reflexivity|]. split; [|split].
  - destruct st; exact Hsame.
  - rewrite Ht. destruct st; cbn. rewrite <- app_assoc. reflexivity.
  - constructor; [exact I|exact Hf].
Qed.

End Resident.


Section ResidentClaims.
Variable W : Type.
Variable sys_exec : Client.exec_call -> W -> W * option exn.
Variable sys_timestamp : W -> str.
Variable sys_hostname : W -> W * (exn + str).
Variable sys_probe : str -> N -> Q -> W -> W * (exn + Z).
Variable sys_socket : W -> W * (exn + Client.sock).
Variable sys_connect : Client.sock -> str -> N -> W -> W * option exn.

Local Abbreviation connect_to_server :=
  (Client.connect_to_server sys_hostname sys_probe sys_socket sys_connect).
Local Abbreviation run_step :=
  (Client.run_step sys_exec sys_timestamp sys_hostname sys_probe sys_socket
     sys_connect).
Local Abbreviation move :=
  (Client.move sys_exec sys_timestamp sys_hostname sys_probe sys_socket
     sys_connect).
Local Abbreviation moves :=
  (Client.moves sys_exec sys_timestamp sys_hostname sys_probe sys_socket
     sys_connect).
Local Abbreviation runs :=
  (Frame.runs sys_exec sys_timestamp sys_hostname sys_probe sys_socket
     sys_connect).

Lemma run_step_going recvs a a' :
  run_step recvs a = Some a' -> Frame.going (Client.at_pc a').
Proof.
  unfold Client.run_step. destruct a as [st pc]. cbn [Client.self Client.at_pc].
  destruct pc; intros H; inversion H; subst; clear H.
  - exact I.
  - cbn. destruct (Client.running st); exact I.
  - destruct (@connect_returns W sys_hostname sys_probe sys_socket sys_connect st)
      as (ok & st' & ->).
    cbn. destruct ok; exact I.
  - destruct (@listener_returns W sys_exec sys_timestamp recvs st)
      as (st' & evs & -> & _).
    exact I.
  - exact I.
  - destruct (Client.running st); exact I.
Qed.

(** X3.  [run] is never left by an exception of the class [Exception],
    whatever the network, the executor and the controller do and whenever
    [stop] is called: every failure of a connection attempt or of a session
    is caught inside the loop.  Closing a socket and sleeping are calls that
    return, here as everywhere in the model of [run]. *)
Theorem run_never_fails (ip : option str) (w : W) (a : Client.agent W) :
  moves (Client.mkAgent (Client.init ip w) Client.AtStart) a ->
  Frame.going (Client.at_pc a).
Proof.
  assert (H : forall x y, moves x y -> Frame.going (Client.at_pc x) ->
                          Frame.going (Client.at_pc y)).
  { induction 1 as [x|x y z Hm _ IH]; [auto|]. intros Hx. apply IH.
    destruct Hm as [recvs x y Hs|x]; [eapply run_step_going; eauto|exact Hx]. }
  intros Hm. apply (H _ _ Hm). exact I.
Qed.

Lemma run_step_running recvs a a' :
  run_step recvs a = Some a' ->
  Client.at_pc a = Client.AtStart \/ Client.running (Client.self a) = true ->
  Client.running (Client.self a') = true /\
  Client.at_pc a' <> Client.Returned /\ Client.at_pc a' <> Client.AtStart.
Proof.
  unfold Client.run_step. destruct a as [st pc]. cbn [Client.self Client.at_pc].
  destruct pc; intros H Hr; inversion H; subst; clear H;
    try (destruct Hr as [Hr|Hr]; [discriminate|]).
  - cbn. repeat split; discriminate.
  - cbn. rewrite Hr. repeat split; discriminate.
  - rewrite after_self.
    rewrite (@connect_running W sys_hostname sys_probe sys_socket sys_connect st).
    destruct (@connect_returns W sys_hostname sys_probe sys_socket sys_connect st)
      as (ok & st' & ->).
    cbn. destruct ok; repeat split; try discriminate; exact Hr.
  - destruct (@listener_returns W sys_exec sys_timestamp recvs st)
      as (st' & evs & -> & Hsame & _).
    destruct Hsame as (_ & _ & _ & Hrun & _).
    cbn. rewrite Hrun. repeat split; try discriminate; exact Hr.
  - cbn. destruct (Client.client_socket st); cbn; repeat split;
      try discriminate; exact Hr.
  - rewrite Hr. cbn. repeat split; try discriminate; exact Hr.
Qed.

(** X4.  Left alone, [run] never returns: as long as no other thread calls
    [stop], the loop goes from attempt to attempt for ever. *)
Theorem run_goes_on (ip : option str) (w : W) (a : Client.agent W) :
  runs (Client.mkAgent (Client.init ip w) Client.AtStart) a ->
  Client.at_pc a <> Client.Returned /\
  (Client.at_pc a = Client.AtStart \/ Client.running (Client.self a) = true).
Proof.
  assert (H : forall x y, runs x y ->
            Client.at_pc x <> Client.Returned /\
            (Client.at_pc x = Client.AtStart \/ Client.running (Client.self x) = true) ->
            Client.at_pc y <> Client.Returned /\
            (Client.at_pc y = Client.AtStart \/ Client.running (Client.self y) = true)).
  { induction 1 as [x|recvs x y z Hs _ IH]; [auto|]. intros [_ Hx]. apply IH.
    destruct (run_step_running recvs x Hs Hx) as (Hr & Hn & _).
    split; [exact Hn|right; exact Hr]. }
  intros Hr. apply (H _ _ Hr). split; [discriminate|left; reflexivity].
Qed.

Lemma move_keeps_address a b c ip' :
  move a b ->
  Client.server_ip (Client.self a) = Some (c :: ip') ->
  Client.server_ip (Client.self b) = Some (c :: ip') /\
  Frame.searches (Client.trace (Client.self b))
  = Frame.searches (Client.trace (Client.self a)).
Proof.
  intros Hm Hip. destruct Hm as [recvs a b Hs|a].
  - unfold Client.run_step in Hs. destruct a as [st pc].
    cbn [Client.self Client.at_pc] in *.
    destruct pc; inversion Hs; subst; clear Hs.
    + split; [exact Hip|reflexivity].
    + split; [exact Hip|reflexivity].
    + rewrite after_self.
      rewrite (@connect_known W sys_hostname sys_probe sys_socket sys_connect
                 st c ip' Hip).
      destruct (sys_socket _) as [w1 [e|k]]; cbn [snd].
      * split; [exact Hip|]. cbn. rewrite searches_app, app_nil_r. reflexivity.
      * destruct (sys_connect _ _ _ _) as [w2 [e|]]; cbn [snd];
          (split; [exact Hip|]); cbn; rewrite searches_app, app_nil_r; reflexivity.
    + rewrite after_self.
      destruct (@listener_returns W sys_exec sys_timestamp recvs st)
        as (st' & evs & -> & Hsame & Ht & Hf).
      cbn [snd]. destruct Hsame as (Hsip & _). split; [congruence|].
      rewrite Ht, searches_app, (searches_session Hf), app_nil_r. reflexivity.
    + cbn. destruct (Client.client_socket st); cbn; (split; [exact Hip|]);
        [rewrite searches_app, app_nil_r|]; reflexivity.
    + destruct (Client.running st); cbn; (split; [exact Hip|]);
        [rewrite !searches_app, !app_nil_r|]; reflexivity.
  - cbn. unfold Client.stop. cbn.
    destruct (Client.client_socket (Client.self a)); cbn; (split; [exact Hip|]);
      [rewrite searches_app, app_nil_r|]; reflexivity.
Qed.

(** X5.  An agent that has the address of its controller, given on the
    command line or found by an earlier search, keeps it for good: whatever
    happens to its connections, it never looks up its own address or probes
    the network again. *)
Theorem controller_address_kept (a b : Client.agent W) (c : char) (ip' : str) :
  Client.server_ip (Client.self a) = Some (c :: ip') ->
  moves a b ->
  Client.server_ip (Client.self b) = Some (c :: ip') /\
  Frame.searches (Client.trace (Client.self b))
  = Frame.searches (Client.trace (Client.self a)).
Proof.
  intros Hip Hm. induction Hm as [x|x y z Hxy _ IH].
  - split; [exact Hip|reflexivity].
  - destruct (move_keeps_address Hxy Hip) as [Hy Hs].
    destruct (IH Hy) as [Hz Hs']. split; [exact Hz|congruence].
Qed.

Lemma none_in {A} (l : list A) : (forall x, ~ In x l) -> l = [].
Proof. destruct l as [|x l]; [reflexivity|]. intros H. destruct (H x). left. reflexivity. Qed.

Lemma filter_all_out s (l : list nat) :
  (forall x, In x l -> x = s) -> filter (fun x => negb (Nat.eqb x s)) l = [].
Proof.
  induction l as [|x l IH]; intros H; [reflexivity|].
  cbn. rewrite (H x) by (left; reflexivity). rewrite Nat.eqb_refl. cbn.
  apply IH. intros y Hy. apply H. right. exact Hy.
Qed.

Lemma connect_tidy (st : Client.client W) :
  Client.client_socket st = None ->
  Frame.unclosed (Client.trace st) = [] ->
  forall s,
    In s (Frame.unclosed (Client.trace (snd (connect_to_server st)))) ->
    Client.client_socket (snd (connect_to_server st)) = Some s.
Proof.
  assert (Hk : forall st c ip', Client.server_ip st = Some (c :: ip') ->
    Client.client_socket st = None ->
    Frame.unclosed (Client.trace st) = [] ->
    forall s,
      In s (Frame.unclosed (Client.trace (snd (connect_to_server st)))) ->
      Client.client_socket (snd (connect_to_server st)) = Some s).
  { intros s0 c ip' Hip Hnone Hun s.
    rewrite (@connect_known W sys_hostname sys_probe sys_socket sys_connect
               s0 c ip' Hip).
    destruct (sys_socket _) as [w1 [e|k]]; cbn [snd].
    - cbn. rewrite unclosed_app, Hun. cbn. contradiction.
    - destruct (sys_connect _ _ _ _) as [w2 [e|]]; cbn [snd]; cbn;
        rewrite unclosed_app, Hun; cbn; intros [<-|[]]; reflexivity. }
  intros Hnone Hun s.
  destruct (Client.no_server_ip (Client.server_ip st)) eqn:Hno.
  - destruct (@connect_unknown W sys_hostname sys_probe sys_socket sys_connect
                st Hno) as (r & st1 & Hd & ->).
    destruct (@discover_server_returns W sys_hostname sys_probe st)
      as (r' & st1' & Hd' & Hsame & evs & Ht & Hf).
    rewrite Hd in Hd'. inversion Hd'; subst r' st1'.
    destruct Hsame as (_ & _ & Hsock & _).
    assert (Hun1 : Frame.unclosed (Client.trace st1) = []).
    { rewrite Ht, unclosed_app, Hun. apply unclosed_search. exact Hf. }
    destruct r as [[|c ip']|]; cbn [snd].
    + cbn. rewrite unclosed_app, Hun1. cbn. contradiction.
    + apply (Hk _ c ip').
      * destruct st1; reflexivity.
      * destruct st1; cbn in Hsock |- *. congruence.
      * destruct st1; exact Hun1.
    + cbn. rewrite unclosed_app, Hun1. cbn. contradiction.
  - destruct (Client.server_ip st) as [[|c ip']|] eqn:Hs; try discriminate.
    eapply Hk; eauto.
Qed.

Lemma move_tidy a b : move a b -> Frame.tidy a -> Frame.tidy b.
Proof.
  intros Hm [Hin Hidle]. destruct Hm as [recvs a b Hs|a].
  - unfold Client.run_step in Hs. destruct a as [st pc].
    cbn [Client.self Client.at_pc] in *.
    destruct pc; inversion Hs; subst; clear Hs.
    + split; cbn; [exact Hin|intros _; apply Hidle; exact I].
    + split; cbn; [exact Hin|intros _; apply Hidle; exact I].
    + specialize (Hidle I).
      assert (Hun : Frame.unclosed (Client.trace st) = []).
      { apply none_in. intros x Hx. apply Hin in Hx. congruence. }
      split.
      * rewrite after_self. apply connect_tidy; assumption.
      * destruct (@connect_returns W sys_hostname sys_probe sys_socket sys_connect st)
          as (ok & st' & ->).
        cbn. destruct ok; contradiction.
    + destruct (@listener_returns W sys_exec sys_timestamp recvs st)
        as (st' & evs & -> & Hsame & Ht & Hf).
      destruct Hsame as (_ & _ & Hsock & _).
      split; cbn; [|contradiction].
      intros s. rewrite Ht, unclosed_app, (unclosed_session _ Hf), Hsock. apply Hin.
    + destruct (Client.client_socket st) as [s|] eqn:Hsock; cbn.
      * assert (Hnow : Frame.unclosed (Client.trace st ++ [Client.Close s]) = []).
        { rewrite unclosed_app. cbn. apply filter_all_out.
          intros x Hx. apply Hin in Hx. congruence. }
        split; [|reflexivity].
        cbn [Client.self Client.set_client_socket Client.emit Client.trace
             Client.client_socket].
        rewrite Hnow. contradiction.
      * split; cbn; [|intros _; exact Hsock]. rewrite Hsock. exact Hin.
    + specialize (Hidle I). destruct (Client.running st); cbn.
      * split; cbn; [|intros _; exact Hidle].
        intros s. rewrite <- app_assoc, unclosed_app. cbn. apply Hin.
      * split; cbn; [exact Hin|intros _; exact Hidle].
  - unfold Frame.tidy, Client.stop. cbn.
    destruct (Client.client_socket (Client.self a)) as [s|] eqn:Hsock; cbn.
    + split.
      * intros x. rewrite unclosed_app. cbn. rewrite filter_In.
        intros [Hx _]. apply Hin in Hx. first [exact Hx|congruence].
      * intros Hi. apply Hidle in Hi. first [exact Hi|congruence].
    + split; [|intros Hi; first [exact Hsock|reflexivity]].
      intros x Hx. apply Hin in Hx. first [exact Hx|congruence].
Qed.

(** X6.  The agent never holds more than one open socket of its own: at
    every point of [run], with [stop] called at any time, a socket that
    [connect_to_server] made and nothing has closed is the one in
    [self.client_socket], and between the close at the end of a round and the
    next attempt there is none. *)
Theorem one_socket_at_a_time (ip : option str) (w : W) (a : Client.agent W) :
  moves (Client.mkAgent (Client.init ip w) Client.AtStart) a ->
  Frame.tidy a /\
  (Frame.idle (Client.at_pc a) ->
   Frame.unclosed (Client.trace (Client.self a)) = []).
Proof.
  assert (H : forall x y, moves x y -> Frame.tidy x -> Frame.tidy y).
  { induction 1 as [x|x y z Hxy _ IH]; [auto|]. intros Hx.
    apply IH. eapply move_tidy; eauto. }
  intros Hm.
  assert (Ht : Frame.tidy a).
  { apply (H _ _ Hm). split; cbn; [contradiction|reflexivity]. }
  split; [exact Ht|]. intros Hi. destruct Ht as [Hin Hidle].
  apply none_in. intros x Hx. apply Hin in Hx. rewrite (Hidle Hi) in Hx. discriminate.
Qed.

End ResidentClaims.


(** The agent of the scenario: through a first session, and then told to
    stop. *)
Lemma demo_session_moves :
  Client.moves Demo.exec_ok Demo.timestamp Demo.hostname_out Demo.probe_net
    Demo.new_sock Demo.connect_ok Demo.agent_start Demo.agent_after_session.
Proof. unfold Demo.agent_after_session. do 4 demo_run. apply Client.moves_refl. Qed.

Lemma demo_stop_moves :
  Client.moves Demo.exec_ok Demo.timestamp Demo.hostname_out Demo.probe_net
    Demo.new_sock Demo.connect_ok Demo.agent_start Demo.agent_after_stop.
Proof.
  eapply moves_trans; [exact demo_session_moves|].
  eapply Client.moves_step; [apply Client.move_stop|apply Client.moves_refl].
Qed.

Lemma demo_session_runs :
  Frame.runs Demo.exec_ok Demo.timestamp Demo.hostname_out Demo.probe_net
    Demo.new_sock Demo.connect_ok Demo.agent_start Demo.agent_after_session.
Proof.
  unfold Demo.agent_after_session.
  do 4 (match goal with
        | |- Frame.runs _ _ _ _ _ _ ?a _ =>
            apply Frame.runs_step with (recvs := []) (b := Demo.step a);
            [vm_compute; reflexivity|]
        end).
  apply Frame.runs_refl.
Qed.

Lemma run_never_fails_witness :
  Frame.going (Client.at_pc Demo.agent_after_stop).
Proof.
  apply (@run_never_fails _ Demo.exec_ok Demo.timestamp Demo.hostname_out
           Demo.probe_net Demo.new_sock Demo.connect_ok
           (Some (lit "10.0.0.3")) O Demo.agent_after_stop).
  exact demo_stop_moves.
Defined.

Lemma run_goes_on_witness :
  Client.at_pc Demo.agent_after_session <> Client.Returned /\
  (Client.at_pc Demo.agent_after_session = Client.AtStart \/
   Client.running (Client.self Demo.agent_after_session) = true).
Proof.
  apply (@run_goes_on _ Demo.exec_ok Demo.timestamp Demo.hostname_out
           Demo.probe_net Demo.new_sock Demo.connect_ok
           (Some (lit "10.0.0.3")) O Demo.agent_after_session).
  exact demo_session_runs.
Defined.

Lemma controller_address_kept_witness :
  Client.server_ip (Client.self Demo.agent_after_stop) = Some (lit "10.0.0.3") /\
  Frame.searches (Client.trace (Client.self Demo.agent_after_stop))
  = Frame.searches (Client.trace (Client.self Demo.agent_start)).
Proof.
  apply (@controller_address_kept _ Demo.exec_ok Demo.timestamp Demo.hostname_out
           Demo.probe_net Demo.new_sock Demo.connect_ok
           Demo.agent_start Demo.agent_after_stop 49%N (lit "0.0.0.3")).
  - reflexivity.
  - exact demo_stop_moves.
Defined.

Lemma one_socket_at_a_time_witness :
  Frame.tidy Demo.agent_after_stop /\
  (Frame.idle (Client.at_pc Demo.agent_after_stop) ->
   Frame.unclosed (Client.trace (Client.self Demo.agent_after_stop)) = []).
Proof.
  apply (@one_socket_at_a_time _ Demo.exec_ok Demo.timestamp Demo.hostname_out
           Demo.probe_net Demo.new_sock Demo.connect_ok
           (Some (lit "10.0.0.3")) O Demo.agent_after_stop).
  exact demo_stop_moves.
Defined.


(** ** The interpreter's executor calls *)

Lemma advance_nil W (st : Client.client W) :
  Client.advance (Client.world st) [] st = st.
Proof. destruct st. unfold Client.advance. cbn. rewrite app_nil_r. reflexivity. Qed.

Lemma advance_emit W w e evs (st : Client.client W) :
  Client.advance w evs (Client.emit e st) = Client.advance w (e :: evs) st.
Proof.
  destruct st. unfold Client.advance, Client.emit. cbn.
  rewrite <- app_assoc. reflexivity.
Qed.

Lemma emit_advance W w e evs (st : Client.client W) :
  Client.emit e (Client.advance w evs st) = Client.advance w (evs ++ [e]) st.
Proof.
  destruct st. unfold Client.advance, Client.emit. cbn.
  rewrite <- app_assoc. reflexivity.
Qed.

Lemma advance_set_world W w w' e evs (st : Client.client W) :
  Client.advance w evs (Client.emit e (Client.set_world w' st))
  = Client.advance w (e :: evs) st.
Proof.
  destruct st. unfold Client.advance, Client.emit, Client.set_world. cbn.
  rewrite <- app_assoc. reflexivity.
Qed.

Section LockLoop.
Variable W : Type.
Variable sys_exec : Client.exec_call -> W -> W * option exn.
Variable sys_timestamp : W -> str.

Lemma lock_loop_spec cmds : forall (st : Client.client W),
  exists (results : list (option exn)) (w' : W),
    (List.length results <= List.length cmds)%nat /\
    Forall (fun r => Frame.passed_over r = true) (removelast results) /\
    (Forall (fun r => Frame.passed_over r = true) results ->
     List.length results = List.length cmds) /\
    Client.lock_loop sys_exec cmds st
    = (match last results None with
       | Some e => if Client.lock_failure e then Ret tt else Raise e
       | None => Ret tt
       end,
       Client.advance w' (Frame.attempt_events cmds results) st).
Proof.
  induction cmds as [|cmd rest IH]; intros st.
  - exists [], (Client.world st). cbn. rewrite advance_nil.
    repeat split; auto.
  - cbn [Client.lock_loop]. unfold bind at 1, try_except, bind at 1.
    unfold Client.exec.
    destruct (sys_exec (Client.Run cmd true (Some 5%N)) (Client.world st))
      as [w1 [e|]].
    + cbv zeta iota beta. destruct (Client.lock_failure e) eqn:Hp.
      * cbn [ret].
        destruct (IH (Client.emit (Client.Exec (Client.Run cmd true (Some 5%N)) (Some e))
                        (Client.set_world w1 st)))
          as (results & w' & Hlen & Hpre & Hall & Hrun).
        exists (Some e :: results), w'. split; [cbn; lia|]. split; [|split].
        -- destruct results as [|r rs]; [constructor|].
           change (removelast (Some e :: r :: rs)) with (Some e :: removelast (r :: rs)).
           constructor; [exact Hp|exact Hpre].
        -- intros Hf. inversion Hf; subst. cbn. f_equal. apply Hall. assumption.
        -- rewrite Hrun. unfold Frame.attempt_events. cbn [combine map fst snd].
           rewrite advance_set_world. f_equal.
           destruct results as [|r rs]; [cbn; rewrite Hp; reflexivity|reflexivity].
      * exists [Some e], w1. split; [cbn; lia|]. split; [constructor|]. split.
        -- intros Hf. inversion Hf as [|? ? Hx _]; subst. cbn in Hx. congruence.
        -- cbn [last]. rewrite Hp. unfold Frame.attempt_events.
           cbn [combine]. rewrite combine_nil. destruct st; reflexivity.
    + cbv zeta iota beta. cbn [ret].
      exists [None], w1. split; [cbn; lia|]. split; [constructor|]. split.
      * intros Hf. inversion Hf as [|? ? Hx _]; subst. discriminate.
      * cbn [last]. unfold Frame.attempt_events.
        cbn [combine]. rewrite combine_nil. destruct st; reflexivity.
Qed.

(** X7.  [lock] tries the four screen lockers in the order of the list and
    stops at the first attempt that does not end in [CalledProcessError],
    [TimeoutExpired] or [FileNotFoundError]: the later lockers are not run.
    When all four end that way nothing is reported; any other exception ends
    the loop and is logged as the error of the command. *)
Theorem lock_first_that_works (d : dict) (st : Client.client W) :
  Client.action_of d = JStr (lit "lock") ->
  exists (results : list (option exn)) (w' : W),
    (List.length results <= 4)%nat /\
    Forall (fun r => Frame.passed_over r = true) (removelast results) /\
    (Forall (fun r => Frame.passed_over r = true) results ->
     List.length results = 4%nat) /\
    Printing.process_command sys_exec sys_timestamp (JDict d) st
    = (Ret tt,
       Client.advance w'
         ([Client.Deliver (JDict d);
           Client.Log (Client.MsgReceived (JStr (lit "lock")));
           Client.Log Client.MsgLocking]
          ++ Frame.attempt_events Client.lock_commands results
          ++ match last results None with
             | Some e =>
                 if Client.lock_failure e then []
                 else [Client.Log (Client.MsgExecError (JStr (lit "lock")) e)]
             | None => []
             end) st).
Proof.
  intros Ha.
  destruct (lock_loop_spec Client.lock_commands
              (Client.emit (Client.Log Client.MsgLocking)
                 (Client.emit (Client.Log (Client.MsgReceived (JStr (lit "lock"))))
                    (Client.emit (Client.Deliver (JDict d)) st))))
    as (results & w' & Hlen & Hpre & Hall & Hrun).
  exists results, w'. split; [exact Hlen|]. split; [exact Hpre|]. split; [exact Hall|].
  unfold Printing.process_command, bind at 1. cbn [Client.note modify].
  unfold bind at 1. unfold Client.get_field at 1. cbn [ret].
  fold (Client.action_of d). rewrite Ha.
  change (Printing.log_message (W := W) (Client.MsgReceived (JStr (lit "lock")))
            (JStr (lit "lock")))
    with (Client.log_message (W := W) (Client.MsgReceived (JStr (lit "lock")))).
  unfold bind at 1. cbn [Client.log_message modify].
  unfold try_except.
  change (Printing.dispatch sys_exec sys_timestamp (JDict d) (JStr (lit "lock")))
    with (Client.log_message (W := W) Client.MsgLocking ;;
          Client.lock_loop sys_exec Client.lock_commands).
  unfold bind at 1. cbn [Client.log_message modify].
  rewrite Hrun. rewrite !advance_emit.
  destruct (last results None) as [e|]; [|rewrite app_nil_r; reflexivity].
  destruct (Client.lock_failure e); [rewrite app_nil_r; reflexivity|].
  change (Printing.log_message (W := W)
            (Client.MsgExecError (JStr (lit "lock")) e) (JStr (lit "lock")))
    with (Client.log_message (W := W) (Client.MsgExecError (JStr (lit "lock")) e)).
  unfold any_exception, Client.log_message, modify. cbv beta iota.
  rewrite emit_advance. reflexivity.
Qed.

End LockLoop.

Lemma lock_first_that_works_witness :
  exists (results : list (option exn)) (w' : Demo.world),
    (List.length results <= 4)%nat /\
    Forall (fun r => Frame.passed_over r = true) (removelast results) /\
    (Forall (fun r => Frame.passed_over r = true) results ->
     List.length results = 4%nat) /\
    Printing.process_command Demo.exec_missing Demo.timestamp
      (JDict [(lit "action", JStr (lit "lock"))]) Demo.listening
    = (Ret tt,
       Client.advance w'
         ([Client.Deliver (JDict [(lit "action", JStr (lit "lock"))]);
           Client.Log (Client.MsgReceived (JStr (lit "lock")));
           Client.Log Client.MsgLocking]
          ++ Frame.attempt_events Client.lock_commands results
          ++ match last results None with
             | Some e =>
                 if Client.lock_failure e then []
                 else [Client.Log (Client.MsgExecError (JStr (lit "lock")) e)]
             | None => []
             end) Demo.listening).
Proof.
  apply (@lock_first_that_works _ Demo.exec_missing Demo.timestamp
           [(lit "action", JStr (lit "lock"))] Demo.listening).
  reflexivity.
Defined.


Lemma shells_app t1 t2 :
  Frame.shells (t1 ++ t2) = Frame.shells t1 ++ Frame.shells t2.
Proof.
  induction t1 as [|e t IH]; [reflexivity|].
  destruct e as [| |[]| | | | | | |]; cbn [app Frame.shells]; rewrite ?IH; reflexivity.
Qed.

Lemma shells_none evs : Forall Frame.not_shell evs -> Frame.shells evs = [].
Proof.
  induction 1 as [|e evs He _ IH]; [reflexivity|].
  destruct e as [| |[]| | | | | | |]; cbn in He |- *; try contradiction; exact IH.
Qed.

Lemma is_action_unique action n m :
  Client.is_action action n = true -> lit m <> lit n ->
  Client.is_action action m = false.
Proof.
  destruct action; cbn; try discriminate.
  intros H Hne. apply str_eqb_eq in H. subst. apply str_eqb_neq. congruence.
Qed.

Section Shell.
Variable W : Type.
Variable sys_exec : Client.exec_call -> W -> W * option exn.
Variable sys_timestamp : W -> str.

Local Abbreviation calm := (@Frame.emits W _ Frame.not_shell).

Lemma calm_lock_loop cmds : calm (Client.lock_loop sys_exec cmds).
Proof. induction cmds as [|c r IH]; cbn [Client.lock_loop]; auto with emits. Qed.

Lemma calm_close_loop apps : calm (Client.close_loop sys_exec apps).
Proof. induction apps as [|a r IH]; cbn [Client.close_loop]; auto with emits. Qed.

Lemma calm_printing_log m v : calm (Printing.log_message (W := W) m v).
Proof. unfold Printing.log_message. destruct (Printing.shows v); auto with emits. Qed.

Lemma calm_show_message m : calm (Printing.show_message sys_exec m).
Proof.
  pose proof calm_printing_log. unfold Printing.show_message. auto 10 with emits.
Qed.

Lemma calm_shells {A} (m : Client.Act W A) st :
  calm m -> Frame.shells (Client.trace (snd (m st))) = Frame.shells (Client.trace st).
Proof.
  intros Hm. destruct (Hm st) as (evs & -> & Hf).
  rewrite shells_app, (shells_none Hf), app_nil_r. reflexivity.
Qed.

Lemma dispatch_shells (d : dict) action (st : Client.client W) :
  let cmd := match dict_get (lit "command") d with
             | Some v => v
             | None => JStr []
             end in
  Frame.shells (Client.trace
                  (snd (Printing.dispatch sys_exec sys_timestamp (JDict d) action st)))
  = Frame.shells (Client.trace st)
    ++ (if Client.is_action action "execute_command" && Client.truthy cmd
           && Printing.shows cmd
        then [cmd] else []).
Proof.
  pose proof calm_lock_loop. pose proof calm_close_loop.
  pose proof calm_show_message. pose proof calm_printing_log.
  cbv zeta. destruct (Client.is_action action "execute_command") eqn:Hx.
  - unfold Printing.dispatch.
    assert (Hu : forall m, lit m <> lit "execute_command" ->
                           Client.is_action action m = false)
      by (intros m; apply is_action_unique; exact Hx).
    rewrite !Hu by (intro E; vm_compute in E; discriminate).
    rewrite Hx. unfold bind at 1. cbn [Client.get_field ret].
    cbn [andb].
    destruct (Client.truthy _); cbn [andb].
    + unfold bind at 1, Printing.log_message.
      destruct (Printing.shows _).
      * unfold Client.log_message, modify, Client.exec. cbn [fst snd].
        destruct (sys_exec _ _) as [w' r].
        destruct r; cbn; rewrite <- app_assoc, shells_app; reflexivity.
      * cbn. rewrite app_nil_r. reflexivity.
    + cbn. rewrite app_nil_r. reflexivity.
  - cbn [andb]. rewrite app_nil_r. apply calm_shells.
    unfold Printing.dispatch. rewrite Hx.
    repeat (apply emits_if; [auto 10 with emits|]).
    auto with emits.
Qed.

Lemma unprintable_is_no_action v name :
  Printing.shows v = false -> Client.is_action v name = false.
Proof.
  destruct v; cbn; try discriminate. intros H.
  destruct (str_eqb s (lit name)) eqn:E; [|reflexivity].
  apply str_eqb_eq in E. subst s.
  assert (Ha : forall t, encode (lit t) <> None).
  { intros t. unfold lit. induction (list_ascii_of_string t) as [|c l IH];
      cbn [map encode]; [discriminate|].
    assert (Hu : exists x, utf8_char (N_of_ascii c) = Some x).
    { pose proof (N_ascii_bounded c) as Hc. unfold utf8_char.
      destruct (N_of_ascii c <? 128)%N; [eauto|].
      destruct (N_of_ascii c <? 2048)%N eqn:E2; [eauto|].
      apply N.ltb_ge in E2. lia. }
    destruct Hu as [x ->]. revert IH. destruct (encode (map N_of_ascii l)); intros IH; [discriminate|exact IH]. }
  destruct (encode (lit name)) eqn:E; [discriminate|]. destruct (Ha name E).
Qed.


End Shell.


(** ** The network that is searched *)

Lemma split_on_aux_last c d : forall cur,
  contains c d = false -> split_on_aux c cur d = [rev cur ++ d].
Proof.
  induction d as [|x d IH]; intros cur H; cbn [split_on_aux].
  - rewrite app_nil_r. reflexivity.
  - cbn [contains] in H. destruct (N.eqb x c); [discriminate|].
    rewrite IH by exact H. cbn [rev]. rewrite <- app_assoc. reflexivity.
Qed.

Lemma split_on_aux_two c a d : forall cur,
  contains c d = false ->
  exists p ps,
    drop_last (split_on_aux c cur (a ++ c :: d)) = p :: ps /\
    join [c] (p :: ps) = rev cur ++ a.
Proof.
  unfold drop_last.
  induction a as [|x a IH]; intros cur H; cbn [app split_on_aux].
  - rewrite N.eqb_refl. rewrite (@split_on_aux_last c d [] H). cbn.
    exists (rev cur), []. split; [reflexivity|]. cbn. rewrite app_nil_r. reflexivity.
  - destruct (N.eqb x c) eqn:E.
    + apply N.eqb_eq in E. subst x.
      destruct (IH [] H) as (p & ps & Hd & Hj).
      exists (rev cur), (p :: ps). split.
      * destruct (split_on_aux c [] (a ++ c :: d)) as [|y ys] eqn:Es;
          [discriminate|].
        change (removelast (rev cur :: y :: ys))
          with (rev cur :: removelast (y :: ys)).
        rewrite Hd. reflexivity.
      * change (join [c] (rev cur :: p :: ps))
          with (rev cur ++ [c] ++ join [c] (p :: ps)).
        rewrite Hj. reflexivity.
    + destruct (IH (x :: cur) H) as (p & ps & Hd & Hj).
      exists p, ps. split; [exact Hd|]. rewrite Hj. cbn [rev].
      rewrite <- app_assoc. reflexivity.
Qed.

(** X9.  The network that is searched is the first address that [hostname
    -I] printed with its last dot-separated component cut off, whatever the
    netmask of the interface; for an address without a dot, such as an IPv6
    address, what is left is a single dot, so that the hosts probed are
    [.1] to [.254]. *)
Theorem network_base_last_dot (a d : str) :
  contains 46%N d = false ->
  Client.network_base_of (a ++ 46%N :: d) = a ++ [46%N] /\
  Client.network_base_of d = [46%N].
Proof.
  intros H. unfold Client.network_base_of, split_on. split.
  - destruct (@split_on_aux_two 46%N a d [] H) as (p & ps & Hd & Hj).
    exact (f_equal2 (@app char) (eq_trans (f_equal (join [46%N]) Hd) Hj) eq_refl).
  - exact (f_equal (fun l => join [46%N] (drop_last l) ++ [46%N])
             (@split_on_aux_last 46%N d [] H)).
Qed.

Lemma network_base_last_dot_witness :
  Client.network_base_of (lit "192.168.1" ++ 46%N :: lit "57")
  = lit "192.168.1" ++ [46%N] /\
  Client.network_base_of (lit "57") = [46%N].
Proof.
  apply network_base_last_dot. reflexivity.
Defined.

(** ** A search without an address *)

Lemma split_ws_aux_blank out : Text.blank out -> split_ws_aux [] out = [].
Proof.
  induction 1 as [|c out Hc _ IH]; [reflexivity|].
  cbn [split_ws_aux]. rewrite Hc. exact IH.
Qed.

Section NoAddress.
Variable W : Type.
Variable sys_hostname : W -> W * (exn + str).
Variable sys_probe : str -> N -> Q -> W -> W * (exn + Z).

(** X10.  When the own address cannot be had, because [hostname] cannot be
    run or prints nothing but white space, the search is over at once: no
    host is probed, the failure is logged as an error of the discovery
    ([IndexError] when nothing was printed), and the result is that no
    controller was found. *)
Theorem discovery_without_address (st : Client.client W) (w0 : W)
    (r : exn + str) :
  sys_hostname (Client.world st) = (w0, r) ->
  (forall out, r = inr out -> Text.blank out) ->
  Client.discover_server sys_hostname sys_probe st
  = (Ret None,
     Client.advance w0
       [Client.Log Client.MsgDiscovering; Client.Hostname r;
        Client.Log (Client.MsgDiscoveryError
                      (match r with inl e => e | inr _ => IndexError end))]
       st).
Proof.
  intros Hh Hb. unfold Client.discover_server, bind at 1.
  cbn [Client.log_message modify]. unfold try_except, bind at 1.
  unfold Client.hostname. cbn [Client.emit Client.world]. rewrite Hh.
  destruct r as [e|out].
  - cbn. destruct st; unfold Client.advance, Client.emit; cbn.
    rewrite <- !app_assoc. reflexivity.
  - cbv zeta iota beta.
    rewrite (@strip_blank out (Hb out eq_refl)). cbn.
    destruct st; unfold Client.advance, Client.emit; cbn.
    rewrite <- !app_assoc. reflexivity.
Qed.

End NoAddress.

Lemma discovery_without_address_witness :
  Client.discover_server (fun w : Demo.world => (S w, inr (lit "  ")))
    Demo.probe_net Demo.listening
  = (Ret None,
     Client.advance 1%nat
       [Client.Log Client.MsgDiscovering; Client.Hostname (inr (lit "  "));
        Client.Log (Client.MsgDiscoveryError IndexError)]
       Demo.listening).
Proof.
  apply (@discovery_without_address _ (fun w : Demo.world => (S w, inr (lit "  ")))
           Demo.probe_net Demo.listening 1%nat (inr (lit "  "))).
  - reflexivity.
  - intros out E. inversion E; subst. repeat constructor.
Defined.


(** ** The dictionary of the controller *)

Lemma reg_set_keys a s r :
  map fst (Server.reg_set a s r)
  = if Server.reg_mem a r then map fst r else map fst r ++ [a].
Proof.
  induction r as [|[a' s'] r IH]; [reflexivity|].
  cbn [Server.reg_set Server.reg_mem].
  destruct (Server.address_eqb a' a); [reflexivity|].
  cbn [map fst]. rewrite IH. destruct (Server.reg_mem a r); reflexivity.
Qed.

Lemma reg_set_distinct a s r :
  NoDup (map fst r) -> NoDup (map fst (Server.reg_set a s r)).
Proof.
  intros H. rewrite reg_set_keys. destruct (Server.reg_mem a r) eqn:E; [exact H|].
  apply NoDup_app; [exact H|repeat constructor; intros []|].
  intros x Hx [<-|[]]. apply reg_mem_in in Hx. congruence.
Qed.

Lemma reg_del_in a b r :
  In b (map fst (Server.reg_del a r)) -> In b (map fst r).
Proof.
  induction r as [|[a' s'] r IH]; [auto|].
  cbn [Server.reg_del]. destruct (Server.address_eqb a' a).
  - intros H. right. exact H.
  - cbn [map fst]. intros [H|H]; [left; exact H|right; apply IH; exact H].
Qed.

Lemma reg_del_distinct a r :
  NoDup (map fst r) -> NoDup (map fst (Server.reg_del a r)).
Proof.
  induction r as [|[a' s'] r IH]; [auto|].
  cbn [Server.reg_del map fst]. intros H. inversion H as [|? ? Hn Hr]; subst.
  destruct (Server.address_eqb a' a); [exact Hr|].
  cbn [map fst]. constructor; [|apply IH; exact Hr].
  intros Hin. apply Hn. eapply reg_del_in; eauto.
Qed.

Create HintDb distinct.

Section Distinct.
Variable W : Type.
Variable sys_send : Server.sock -> bytes -> W -> W * option os_error.

Local Abbreviation keeps := (@Acceptor.keeps_distinct W _).

Lemma distinct_ret {A} (a : A) : keeps (ret a).
Proof. intros sv H. exact H. Qed.

Lemma distinct_raise {A} e : keeps (@raise _ A e).
Proof. intros sv H. exact H. Qed.

Lemma distinct_get : keeps (@get (Server.server W)).
Proof. intros sv H. exact H. Qed.

Lemma distinct_bind {A B} (m : Server.Act W A) (k : A -> Server.Act W B) :
  keeps m -> (forall a, keeps (k a)) -> keeps (bind m k).
Proof.
  intros Hm Hk sv H. unfold bind. specialize (Hm sv H).
  destruct (m sv) as [[a|e|] sv']; cbn [snd] in *; auto. apply Hk. exact Hm.
Qed.

Lemma distinct_try {A} (m : Server.Act W A) h k :
  keeps m -> (forall e, keeps (k e)) -> keeps (try_except m h k).
Proof.
  intros Hm Hk sv H. unfold try_except. specialize (Hm sv H).
  destruct (m sv) as [[a|e|] sv']; cbn [snd] in *; auto.
  destruct (h e); [apply Hk|]; exact Hm.
Qed.

Lemma distinct_note e : keeps (@Server.note W e).
Proof. intros sv H. exact H. Qed.

Lemma distinct_log m : keeps (@Server.log_message W m).
Proof. intros sv H. exact H. Qed.

Lemma distinct_send s data : keeps (Server.send sys_send s data).
Proof.
  intros sv H. unfold Server.send.
  destruct (sys_send s data (Server.world sv)) as [w' [k|]]; exact H.
Qed.

Lemma distinct_encode_line text : keeps (@Server.encode_line W text).
Proof.
  unfold Server.encode_line. destruct (Server.line_bytes text);
    [apply distinct_ret|apply distinct_raise].
Qed.

Lemma distinct_forget a : keeps (@Server.forget W a).
Proof.
  intros sv H. unfold Server.forget, bind, get. cbn.
  destruct (Server.reg_mem a (Server.clients sv)); cbn; [|exact H].
  apply reg_del_distinct. exact H.
Qed.

#[local] Hint Resolve distinct_ret distinct_raise distinct_get distinct_note
  distinct_log distinct_send distinct_encode_line distinct_forget : distinct.
#[local] Hint Extern 2 (Acceptor.keeps_distinct (bind _ _)) =>
  apply distinct_bind; [|intros] : distinct.
#[local] Hint Extern 2 (Acceptor.keeps_distinct (try_except _ _ _)) =>
  apply distinct_try; [|intros] : distinct.

Lemma distinct_json_dumps c : keeps (@Server.json_dumps W c).
Proof. unfold Server.json_dumps. auto with distinct. Qed.

Lemma distinct_fan_body c text a s dis :
  keeps (Server.fan_body sys_send c text a s dis).
Proof. unfold Server.fan_body. auto 10 with distinct. Qed.

Lemma distinct_remove_all dis : keeps (@Server.remove_all W dis).
Proof.
  induction dis as [|a r IH]; cbn [Server.remove_all]; auto with distinct.
  apply distinct_bind; [auto with distinct|]. intros [|]; auto with distinct.
Qed.

Lemma distinct_prune dis : keeps (@Server.prune W dis).
Proof.
  pose proof distinct_remove_all. unfold Server.prune.
  apply distinct_bind; [auto|]. intros _. destruct dis; auto with distinct.
Qed.

Lemma distinct_heartbeat s a : keeps (Server.heartbeat sys_send s a).
Proof.
  pose proof distinct_json_dumps. unfold Server.heartbeat. auto 10 with distinct.
Qed.

Lemma distinct_accept s a : keeps (@Server.accept_connection W s a).
Proof.
  intros sv H. unfold Server.accept_connection, Acceptor.distinct. cbn.
  apply reg_set_distinct. exact H.
Qed.

Lemma step_distinct l (sys sys' : Threads.system W) :
  Acceptor.distinct (Threads.shared sys) ->
  Threads.step sys_send l sys = Some sys' ->
  Acceptor.distinct (Threads.shared sys').
Proof.
  intros H Hs. destruct l; cbn [Threads.step] in Hs.
  - destruct (Threads.broadcast sys) as [pc|]; [|discriminate].
    destruct (Threads.broadcast_step sys_send pc (Threads.shared sys))
      as [pc' sv'] eqn:E.
    inversion Hs; subst; clear Hs. cbn [Threads.shared].
    destruct pc; cbn [Threads.broadcast_step] in E.
    + destruct (Server.clients (Threads.shared sys)) eqn:Ec;
        inversion E; subst; unfold Acceptor.distinct in *; cbn; rewrite Ec in *; exact H.
    + destruct (Threads.iter_next _ _) as [[a s] it'| |]; inversion E; subst; exact H.
    + pose proof (@distinct_fan_body c command_str a s disconnected _ H) as Hf.
      destruct (Server.fan_body _ _ _ _ _ _ _) as [[d|e|] sv'']; inversion E; subst;
        exact Hf.
    + pose proof (@distinct_prune disconnected _ H) as Hf.
      destruct (Server.prune _ _) as [[d|e|] sv'']; inversion E; subst; exact Hf.
    + inversion E; subst; exact H.
    + inversion E; subst; exact H.
  - destruct (nth_error (Threads.handlers sys) i) as [h|]; [|discriminate].
    destruct (Threads.handler_step sys_send h (Threads.shared sys))
      as [h' sv'] eqn:E.
    inversion Hs; subst; clear Hs. cbn [Threads.shared].
    unfold Threads.handler_step in E. destruct (Threads.h_pc h).
    + inversion E; subst; exact H.
    + pose proof (@distinct_heartbeat (Threads.h_sock h) (Threads.h_addr h) _ H) as Hf.
      destruct (Server.heartbeat _ _ _ _) as [[d|e|] sv'']; inversion E; subst;
        exact Hf.
    + inversion E; subst; exact H.
    + inversion E; subst; exact H.
  - destruct (Threads.stopper sys) as [pc|]; [|discriminate].
    destruct (Threads.stopper_step pc (Threads.shared sys)) as [pc' sv'] eqn:E.
    inversion Hs; subst; clear Hs. cbn [Threads.shared].
    destruct pc as [|[|[a s] rest]| |]; cbn in E; inversion E; subst;
      first [exact H | constructor].
  - destruct (Server.running (Threads.shared sys)); [|discriminate].
    inversion Hs; subst; clear Hs. cbn [Threads.shared].
    apply distinct_accept. exact H.
  - destruct (Threads.broadcast sys) as [[]|]; inversion Hs; subst; exact H.
  - destruct (Threads.stopper sys); inversion Hs; subst; exact H.
Qed.

(** The keys of [self.clients] stay distinct whatever the threads of
    the controller do and however they are interleaved: a connection from an
    address that is registered takes the place of the old entry, and every
    removal takes away at most one entry. *)
Lemma registry_keys_stay_distinct (schedule : list Threads.label)
    (sys sys' : Threads.system W) :
  NoDup (map fst (Server.clients (Threads.shared sys))) ->
  Threads.run sys_send schedule sys = Some sys' ->
  NoDup (map fst (Server.clients (Threads.shared sys'))).
Proof.
  revert sys. induction schedule as [|l rest IH]; intros sys H Hr; cbn in Hr.
  - inversion Hr; subst. exact H.
  - destruct (Threads.step sys_send l sys) as [sys1|] eqn:E; [|discriminate].
    apply (IH sys1); [|exact Hr]. eapply step_distinct; eauto.
Qed.

Lemma step_without_stop l (sys sys' : Threads.system W) :
  Threads.stopper sys = None -> l <> Threads.PressStop ->
  Threads.step sys_send l sys = Some sys' ->
  Threads.stopper sys' = None /\
  Threads.closed (Server.trace (Threads.shared sys'))
  = Threads.closed (Server.trace (Threads.shared sys)).
Proof.
  intros Hst Hl Hs. destruct l; cbn [Threads.step] in Hs.
  - destruct (Threads.broadcast sys) as [pc|]; [|discriminate].
    pose proof (@broadcast_step_closed W sys_send pc (Threads.shared sys)) as Hc.
    destruct (Threads.broadcast_step sys_send pc (Threads.shared sys)) as [pc' sv'].
    inversion Hs; subst. split; [exact Hst|exact Hc].
  - destruct (nth_error (Threads.handlers sys) i) as [h|]; [|discriminate].
    pose proof (@handler_step_closed W sys_send h (Threads.shared sys)) as Hc.
    destruct (Threads.handler_step sys_send h (Threads.shared sys)) as [h' sv'].
    inversion Hs; subst. split; [exact Hst|exact Hc].
  - rewrite Hst in Hs. discriminate.
  - destruct (Server.running (Threads.shared sys)); [|discriminate].
    inversion Hs; subst. split; [exact Hst|]. cbn [Threads.shared].
    apply (@quiet_accept W s a).
  - destruct (Threads.broadcast sys) as [[]|]; inversion Hs; subst;
      (split; [exact Hst|reflexivity]).
  - congruence.
Qed.


End Distinct.


(** ** The accept loop *)

Lemma reg_get_set a b s r :
  Acceptor.reg_get b (Server.reg_set a s r)
  = if Server.address_eqb a b then Some s else Acceptor.reg_get b r.
Proof.
  induction r as [|[a1 s1] r IH]; [reflexivity|].
  cbn [Server.reg_set Acceptor.reg_get].
  destruct (Server.address_eqb a1 a) eqn:E1.
  - apply address_eqb_eq in E1. subst a1. cbn [Acceptor.reg_get].
    destruct (Server.address_eqb a b); reflexivity.
  - cbn [Acceptor.reg_get]. rewrite IH.
    destruct (Server.address_eqb a1 b) eqn:E2; [|reflexivity].
    apply address_eqb_eq in E2. subst a1.
    destruct (Server.address_eqb a b) eqn:E3; [|reflexivity].
    apply address_eqb_eq in E3. subst a. rewrite address_eqb_refl in E1. discriminate.
Qed.

Lemma spawned_app t1 t2 :
  Acceptor.spawned (t1 ++ t2) = Acceptor.spawned t1 ++ Acceptor.spawned t2.
Proof.
  induction t1 as [|e t IH]; [reflexivity|].
  destruct e; cbn [app Acceptor.spawned]; rewrite ?IH; reflexivity.
Qed.




(** ** Prefixes and occurrences *)

Lemma strip_prefix_app p r : strip_prefix p (p ++ r) = Some r.
Proof.
  induction p as [|c p IH]; [reflexivity|].
  cbn [app strip_prefix]. rewrite N.eqb_refl. exact IH.
Qed.

Lemma find_prefix p r : Text.find p (p ++ r) = Some ([], r).
Proof.
  destruct (p ++ r) as [|c s] eqn:E; cbn [Text.find]; rewrite <- E;
    rewrite strip_prefix_app; reflexivity.
Qed.

Lemma startswith_app p r : Text.startswith p (p ++ r) = true.
Proof. unfold Text.startswith. rewrite strip_prefix_app. reflexivity. Qed.

Lemma occurs_inside p x y : Text.occurs p (x ++ p ++ y) = true.
Proof.
  unfold Text.occurs. induction x as [|c x IH].
  - cbn [app]. rewrite find_prefix. reflexivity.
  - cbn [app Text.find].
    destruct (strip_prefix p (c :: x ++ p ++ y)); [reflexivity|].
    destruct (Text.find p (x ++ p ++ y)) as [[a b]|]; [reflexivity|discriminate].
Qed.

Lemma startswith_find p t :
  Text.startswith p t = true -> exists r, Text.find p t = Some ([], r).
Proof.
  unfold Text.startswith. destruct (strip_prefix p t) as [r|] eqn:E; [|discriminate].
  intros _. exists r. destruct t; cbn [Text.find]; rewrite E; reflexivity.
Qed.

Lemma strip_prefix_suffix p : forall s r,
  strip_prefix p s = Some r -> exists a, s = a ++ r.
Proof.
  induction p as [|c p IH]; intros s r H; cbn [strip_prefix] in H.
  - inversion H; subst. exists []. reflexivity.
  - destruct s as [|b s]; [discriminate|].
    destruct (c =? b)%N; [|discriminate].
    destruct (IH s r H) as (a & ->). exists (b :: a). reflexivity.
Qed.

Lemma find_suffix p : forall s a b,
  Text.find p s = Some (a, b) -> exists a', s = a' ++ b.
Proof.
  induction s as [|c s IH]; intros a b H; cbn [Text.find] in H.
  - destruct (strip_prefix p []) as [r|] eqn:E; [|discriminate].
    inversion H; subst. eapply strip_prefix_suffix; eauto.
  - destruct (strip_prefix p (c :: s)) as [r|] eqn:E.
    + inversion H; subst. eapply strip_prefix_suffix; eauto.
    + destruct (Text.find p s) as [[a1 b1]|] eqn:Ef; [|discriminate].
      inversion H; subst. destruct (IH a1 b eq_refl) as (a' & ->).
      exists (c :: a'). reflexivity.
Qed.

(** ** Text stays text *)

Lemma is_text_app_r a b : is_text (a ++ b) -> is_text b.
Proof. unfold is_text. intros H. apply Forall_app in H. apply H. Qed.

Lemma lstrip_suffix s : exists a, s = a ++ lstrip s.
Proof.
  induction s as [|c s (a & IH)]; [exists []; reflexivity|].
  cbn [lstrip]. destruct (isspace c).
  - exists (c :: a). cbn [app]. f_equal. exact IH.
  - exists []. reflexivity.
Qed.

Lemma is_text_lstrip s : is_text s -> is_text (lstrip s).
Proof.
  intros H. destruct (lstrip_suffix s) as (a & E). rewrite E in H.
  eapply is_text_app_r; eauto.
Qed.

Lemma is_text_strip s : is_text s -> is_text (strip s).
Proof.
  intros H. unfold strip, rstrip, is_text. apply Forall_rev.
  apply is_text_lstrip. apply Forall_rev. apply is_text_lstrip. exact H.
Qed.

Lemma is_text_skipn n s : is_text s -> is_text (skipn n s).
Proof.
  intros H. rewrite <- (firstn_skipn n s) in H. eapply is_text_app_r; eauto.
Qed.

Lemma is_text_find p s a b :
  Text.find p s = Some (a, b) -> is_text s -> is_text b.
Proof.
  intros Hf H. destruct (find_suffix _ _ Hf) as (a' & ->).
  eapply is_text_app_r; eauto.
Qed.

Lemma is_text_lit_ascii s :
  forallb (fun c => (c <? 55296)%N) (lit s) = true -> is_text (lit s).
Proof.
  intros H. unfold is_text. apply Forall_forall. intros c Hc.
  rewrite forallb_forall in H. specialize (H c Hc). apply N.ltb_lt in H.
  left. exact H.
Qed.

(** ** What the front ends hand to [send_command] *)

Ltac keys_differ :=
  let H := fresh in
  cbn [In]; intros H;
  repeat (destruct H as [H|H]; [vm_compute in H; discriminate H|]);
  exact H.

Ltac literal_text := apply is_text_lit_ascii; vm_compute; reflexivity.

Lemma message_command_sound content :
  is_text content -> Console.sound (Console.Called (Console.message_command content)).
Proof.
  intros H. split; [split|].
  - unfold Console.message_command. cbn [map fst].
    apply NoDup_cons; [keys_differ|]. apply NoDup_cons; [keys_differ|]. apply NoDup_nil.
  - unfold Console.message_command.
    apply Forall_cons; [split; cbn [fst snd]; literal_text|].
    apply Forall_cons; [split; cbn [fst snd]; [literal_text|exact H]|].
    apply Forall_nil.
  - vm_compute. reflexivity.
Qed.

Lemma action_sound name :
  forallb (fun c => (c <? 55296)%N) (lit name) = true ->
  Console.known (Console.action name) ->
  Console.sound (Console.Called (Console.action name)).
Proof.
  intros Ht Hk. split; [split|exact Hk].
  - unfold Console.action. cbn [map fst].
    apply NoDup_cons; [keys_differ|]. apply NoDup_nil.
  - unfold Console.action.
    apply Forall_cons;
      [split; cbn [fst snd]; [literal_text|apply is_text_lit_ascii; exact Ht]|].
    apply Forall_nil.
Qed.

Lemma open_app_sound app :
  forallb (fun c => (c <? 55296)%N) (lit app) = true ->
  Console.sound (Console.Called (Console.open_app app)).
Proof.
  intros Ht. split; [split|].
  - unfold Console.open_app. cbn [map fst].
    apply NoDup_cons; [keys_differ|]. apply NoDup_cons; [keys_differ|]. apply NoDup_nil.
  - unfold Console.open_app.
    apply Forall_cons; [split; cbn [fst snd]; literal_text|].
    apply Forall_cons;
      [split; cbn [fst snd]; [literal_text|apply is_text_lit_ascii; exact Ht]|].
    apply Forall_nil.
  - vm_compute. reflexivity.
Qed.

Ltac fixed_command_sound :=
  cbn [snd];
  first [ apply action_sound; vm_compute; reflexivity
        | apply open_app_sound; vm_compute; reflexivity ].

Lemma command_mappings_sound :
  Forall (fun m => Console.sound (Console.Called (snd m))) Console.command_mappings.
Proof.
  unfold Console.command_mappings.
  repeat (apply Forall_cons; [fixed_command_sound|]). apply Forall_nil.
Qed.

Lemma quick_commands_sound :
  Forall (fun c => Console.sound (Console.Called c)) Console.quick_commands.
Proof.
  unfold Console.quick_commands.
  repeat (apply Forall_cons; [fixed_command_sound|]). apply Forall_nil.
Qed.

Create HintDb adds.

Section Adds.
Variable W : Type.
Variable send_command_impl : Server.command -> Server.Act W unit.
Variable py_lower : str -> str.
Variable P : Console.entry -> Prop.

Local Abbreviation adds := (@Console.adds W _ P).

Lemma adds_ret {A} (a : A) : adds (ret a).
Proof. intros st. exists []. rewrite app_nil_r. split; [reflexivity|constructor]. Qed.

Lemma adds_raise {A} e : adds (@raise _ A e).
Proof. intros st. exists []. rewrite app_nil_r. split; [reflexivity|constructor]. Qed.

Lemma adds_get : adds (@get (Console.console W)).
Proof. intros st. exists []. rewrite app_nil_r. split; [reflexivity|constructor]. Qed.

Lemma adds_bind {A B} (m : Console.Act W A) (k : A -> Console.Act W B) :
  adds m -> (forall a, adds (k a)) -> adds (bind m k).
Proof.
  intros Hm Hk st. unfold bind. destruct (Hm st) as (e1 & H1 & F1).
  destruct (m st) as [[a|e|] s']; cbn [snd] in *.
  - destruct (Hk a s') as (e2 & H2 & F2). exists (e1 ++ e2).
    rewrite H2, H1, app_assoc. split; [reflexivity|].
    apply Forall_app. split; assumption.
  - exists e1. split; assumption.
  - exists e1. split; assumption.
Qed.

Lemma adds_try {A} (m : Console.Act W A) h k :
  adds m -> (forall e, adds (k e)) -> adds (try_except m h k).
Proof.
  intros Hm Hk st. unfold try_except. destruct (Hm st) as (e1 & H1 & F1).
  destruct (m st) as [[a|e|] s']; cbn [snd] in *.
  - exists e1. split; assumption.
  - destruct (h e).
    + destruct (Hk e s') as (e2 & H2 & F2). exists (e1 ++ e2).
      rewrite H2, H1, app_assoc. split; [reflexivity|].
      apply Forall_app. split; assumption.
    + exists e1. split; assumption.
  - exists e1. split; assumption.
Qed.

Lemma adds_note e : P e -> adds (@Console.note W e).
Proof.
  intros He st. exists [e]. split; [reflexivity|]. constructor; [exact He|constructor].
Qed.

Lemma adds_log m shown : P (Console.Said m) -> adds (@Console.log_message W m shown).
Proof.
  intros He st. unfold Console.log_message. destruct (Console.sayable shown).
  - apply adds_note. exact He.
  - apply adds_raise.
Qed.

Lemma adds_modify (f : Console.console W -> Console.console W) :
  (forall st, Console.journal (f st) = Console.journal st) -> adds (modify f).
Proof.
  intros Hf st. exists []. rewrite app_nil_r. split; [apply Hf|constructor].
Qed.

Lemma adds_in_core {A} (m : Server.Act W A) : adds (Console.in_core m).
Proof.
  intros st. exists []. rewrite app_nil_r. split; [|constructor].
  unfold Console.in_core. destruct (m (Console.core st)). reflexivity.
Qed.

Lemma adds_send_command c :
  P (Console.Called c) -> adds (Console.send_command send_command_impl c).
Proof.
  intros Hc. unfold Console.send_command.
  apply adds_bind; [apply adds_note; exact Hc|]. intros _. apply adds_in_core.
Qed.

End Adds.

#[local] Hint Resolve adds_ret adds_raise adds_get adds_in_core : adds.
#[local] Hint Extern 2 (Console.adds _ (bind _ _)) =>
  apply adds_bind; [|intros] : adds.
#[local] Hint Extern 2 (Console.adds _ (try_except _ _ _)) =>
  apply adds_try; [|intros] : adds.
#[local] Hint Extern 2 (Console.adds _ (Console.log_message _ _)) =>
  apply adds_log; exact I : adds.
#[local] Hint Extern 2 (Console.adds _ (Console.note _)) =>
  apply adds_note; exact I : adds.
#[local] Hint Extern 2 (Console.adds _ (modify _)) =>
  apply adds_modify; intros; reflexivity : adds.

(** ** Text and the standard output *)

Lemma utf8_char_scalar c : utf8_char c <> None -> scalar c.
Proof.
  unfold utf8_char, scalar. intros H.
  destruct (c <? 128)%N eqn:E1; [apply N.ltb_lt in E1; lia|].
  destruct (c <? 2048)%N eqn:E2; [apply N.ltb_lt in E2; lia|].
  destruct ((55296 <=? c)%N && (c <=? 57343)%N) eqn:E3; [congruence|].
  destruct (c <? 65536)%N eqn:E4.
  - apply N.ltb_lt in E4. apply andb_false_iff in E3.
    destruct E3 as [E3|E3]; [apply N.leb_gt in E3|apply N.leb_gt in E3]; lia.
  - destruct (c <? 1114112)%N eqn:E5; [|congruence].
    apply N.ltb_lt in E5. apply N.ltb_ge in E4. lia.
Qed.

Lemma scalar_utf8_char c : scalar c -> utf8_char c <> None.
Proof.
  unfold utf8_char, scalar. intros H.
  destruct (c <? 128)%N eqn:E1; [discriminate|].
  destruct (c <? 2048)%N eqn:E2; [discriminate|].
  destruct ((55296 <=? c)%N && (c <=? 57343)%N) eqn:E3.
  - apply andb_true_iff in E3. destruct E3 as [E3 E3'].
    apply N.leb_le in E3, E3'. lia.
  - destruct (c <? 65536)%N eqn:E4; [discriminate|].
    destruct (c <? 1114112)%N eqn:E5; [discriminate|].
    apply N.ltb_ge in E5. lia.
Qed.

Lemma sayable_text t : Console.sayable t = true <-> is_text t.
Proof.
  unfold Console.sayable, is_text. induction t as [|c t IH]; cbn [encode].
  - split; [constructor|reflexivity].
  - split.
    + intros H. destruct (utf8_char c) as [a|] eqn:Ec; [|discriminate].
      destruct (encode t) as [b|]; [|discriminate].
      constructor; [apply utf8_char_scalar; congruence|apply IH; reflexivity].
    + intros H. inversion H as [|? ? Hc Ht]; subst.
      apply scalar_utf8_char in Hc. apply IH in Ht.
      destruct (utf8_char c); [|congruence].
      destruct (encode t); [reflexivity|discriminate].
Qed.

(** ** The commands of the front ends *)

Section FrontEnds.
Variable W : Type.
Variable send_command_impl : Server.command -> Server.Act W unit.
Variable py_lower : str -> str.

Local Abbreviation careful := (@Console.adds W _ Console.sound).

Lemma careful_message_branch t :
  is_text t -> careful (Console.message_branch send_command_impl t).
Proof.
  intros Ht. unfold Console.message_branch.
  destruct (Console.message_prefixed t); [|auto with adds].
  assert (Hc : forall sep st, exists new,
            Console.journal (snd (Console.after_first sep t st))
            = Console.journal st ++ new /\ Forall Console.sound new /\
            forall content, fst (Console.after_first (W:=W) sep t st) = Ret content ->
                            is_text content).
  { intros sep st. exists []. rewrite app_nil_r. unfold Console.after_first.
    destruct (Text.find sep t) as [[a b]|] eqn:E; cbn [fst snd raise ret].
    - split; [reflexivity|]. split; [constructor|]. intros content H.
      inversion H; subst. eapply is_text_find; eauto.
    - split; [reflexivity|]. split; [constructor|]. discriminate. }
  intros st.
  match goal with |- context [bind ?m0 _] => set (m := m0) end.
  unfold bind.
  assert (Hm : exists new,
            Console.journal (snd (m st)) = Console.journal st ++ new /\
            Forall Console.sound new /\
            forall content, fst (m st) = Ret content -> is_text content).
  { unfold m. destruct (Text.occurs _ t); apply Hc. }
  destruct Hm as (n1 & H1 & F1 & T1).
  destruct (m st) as [[content|e|] s1]; cbn [fst snd] in *;
    [|exists n1; split; assumption|exists n1; split; assumption].
  specialize (T1 content eq_refl).
  destruct (strip content) as [|c0 r0] eqn:Es.
  - exists n1. split; assumption.
  - assert (Hs : careful (bind (Console.send_command send_command_impl
                                  (Console.message_command (c0 :: r0)))
                               (fun _ => ret true))).
    { apply adds_bind; [|auto with adds]. apply adds_send_command.
      apply message_command_sound. rewrite <- Es. apply is_text_strip. exact T1. }
    destruct (Hs s1) as (n2 & H2 & F2). exists (n1 ++ n2).
    unfold bind in H2. rewrite H2, H1, app_assoc. split; [reflexivity|].
    apply Forall_app. split; assumption.
Qed.

Lemma careful_mapping_loop t : forall mappings,
  Forall (fun m => Console.sound (Console.Called (snd m))) mappings ->
  careful (Console.mapping_loop send_command_impl mappings t).
Proof.
  induction 1 as [|[p c] rest Hc _ IH]; cbn [Console.mapping_loop].
  - auto with adds.
  - destruct (Text.occurs p t); [|exact IH].
    apply adds_bind; [|auto with adds]. apply adds_send_command. exact Hc.
Qed.

Lemma careful_process_voice_command t :
  careful (Console.process_voice_command send_command_impl t).
Proof.
  unfold Console.process_voice_command. intros st.
  destruct (Console.sayable t) eqn:E.
  - revert st. apply sayable_text in E.
    apply adds_bind; [auto with adds|]. intros _.
    apply adds_bind; [apply careful_message_branch; exact E|]. intros [|].
    + auto with adds.
    + apply adds_bind; [apply careful_mapping_loop, command_mappings_sound|].
      intros [|]; auto with adds.
  - exists []. rewrite app_nil_r. split; [|constructor].
    unfold bind, Console.log_message. rewrite E. reflexivity.
Qed.

Lemma careful_heard text : careful (Console.heard send_command_impl text).
Proof.
  unfold Console.heard. destruct text as [|c r]; [auto with adds|].
  apply adds_bind; [auto with adds|]. intros _.
  destruct (Text.startswith _ _); [apply careful_process_voice_command|auto with adds].
Qed.

Lemma careful_voice_round r :
  careful (Console.voice_round send_command_impl py_lower r).
Proof.
  unfold Console.voice_round. destruct r as [e|[raw|]]; auto with adds.
  apply adds_bind.
  { unfold Console.json_loads. destruct (loads raw); auto with adds. }
  intros result. apply adds_bind.
  { unfold Console.get_text. destruct result; auto with adds. }
  intros v. apply adds_bind.
  { unfold Console.lower_strip. destruct v; auto with adds. }
  intros text. apply careful_heard.
Qed.

Lemma careful_voice_loop : forall rounds,
  careful (Console.voice_loop send_command_impl py_lower rounds).
Proof.
  induction rounds as [|r rest IH]; cbn [Console.voice_loop].
  - apply adds_bind; [auto with adds|]. intros c. destruct (Console.listening c).
    + intros st. exists []. rewrite app_nil_r. split; [reflexivity|constructor].
    + auto with adds.
  - apply adds_bind; [auto with adds|]. intros c. destruct (Console.listening c).
    + apply adds_bind; [apply careful_voice_round|]. intros _. exact IH.
    + auto with adds.
Qed.

End FrontEnds.


(** ** One command, one answer *)

Lemma occurs_after_message rest :
  Text.occurs (lit "send message") (lit "message" ++ rest)
  = Text.occurs (lit "send message") rest.
Proof.
  unfold Text.occurs.
  let v := eval vm_compute in (lit "message") in change (lit "message") with v.
  let v := eval vm_compute in (lit "send message") in
    change (lit "send message") with v.
  cbn [app Text.find strip_prefix N.eqb Pos.eqb].
  destruct (Text.find _ rest) as [[a b]|]; reflexivity.
Qed.

Section OneAnswer.
Variable W : Type.
Variable send_command_impl : Server.command -> Server.Act W unit.

Local Abbreviation send_command := (Console.send_command send_command_impl).
Local Abbreviation process_voice_command :=
  (Console.process_voice_command send_command_impl).

Lemma log_sayable m t (st : Console.console W) :
  is_text t ->
  Console.log_message m t st = (Ret tt, Console.emit (Console.Said m) st).
Proof.
  intros Ht. unfold Console.log_message.
  rewrite (proj2 (sayable_text t) Ht). reflexivity.
Qed.

(** The first [if] either hands one message to [send_command] and ends
    the function, or does nothing; [split(...)[1]] is never out of range. *)
Lemma message_branch_cases t (st : Console.console W) :
  (exists content,
     strip content <> [] /\
     Console.message_branch send_command_impl t st
     = bind (send_command (Console.message_command (strip content)))
            (fun _ => ret true) st)
  \/ Console.message_branch send_command_impl t st = (Ret false, st).
Proof.
  assert (Hcut : forall r,
    (if Text.occurs (lit "send message") t
     then Console.after_first (lit "send message") t
     else Console.after_first (lit "message") t) st = (Ret r, st) ->
    Console.message_prefixed t = true ->
    (exists content,
       strip content <> [] /\
       Console.message_branch send_command_impl t st
       = bind (send_command (Console.message_command (strip content)))
              (fun _ => ret true) st)
    \/ Console.message_branch send_command_impl t st = (Ret false, st)).
  { intros r Hr Hp.
    assert (E : Console.message_branch send_command_impl t st
                = match strip r with
                  | [] => (Ret false, st)
                  | _ :: _ =>
                      bind (send_command (Console.message_command (strip r)))
                           (fun _ => ret true) st
                  end).
    { unfold Console.message_branch. rewrite Hp. unfold bind at 1.
      destruct (Text.occurs (lit "send message") t); rewrite Hr;
        destruct (strip r); reflexivity. }
    rewrite E. destruct (strip r) as [|c0 r0] eqn:Es; [right; reflexivity|].
    left. exists r. rewrite Es. split; [discriminate|reflexivity]. }
  destruct (Console.message_prefixed t) eqn:Hp;
    [|right; unfold Console.message_branch; rewrite Hp; reflexivity].
  unfold Console.message_prefixed in Hp.
  destruct (Text.startswith (lit "send message") t) eqn:E1; cbn [orb] in Hp.
  - destruct (@startswith_find _ _ E1) as (r & Hf).
    apply (Hcut r); [|reflexivity].
    unfold Text.occurs, Console.after_first. rewrite Hf. reflexivity.
  - destruct (@startswith_find _ _ Hp) as (r & Hf).
    destruct (Text.find (lit "send message") t) as [[a b]|] eqn:Es.
    + apply (Hcut b); [|reflexivity].
      unfold Text.occurs, Console.after_first. rewrite Es. reflexivity.
    + apply (Hcut r); [|reflexivity].
      unfold Text.occurs, Console.after_first. rewrite Es, Hf. reflexivity.
Qed.

(** The loop over the table hands at most one command to [send_command]. *)
Lemma mapping_loop_cases t (st : Console.console W) : forall mappings,
  (exists c, In c (map snd mappings) /\
     Console.mapping_loop send_command_impl mappings t st
     = bind (send_command c) (fun _ => ret true) st)
  \/ Console.mapping_loop send_command_impl mappings t st = (Ret false, st).
Proof.
  induction mappings as [|[p c] rest IH]; cbn [Console.mapping_loop].
  - right. reflexivity.
  - destruct (Text.occurs p t).
    + left. exists c. split; [left; reflexivity|reflexivity].
    + destruct IH as [(c' & Hin & E)|E]; [left|right; exact E].
      exists c'. split; [right; exact Hin|exact E].
Qed.

(** The first phrase of the table that occurs in the text decides. *)
Lemma mapping_loop_first t p c after (st : Console.console W) : forall before,
  Forall (fun m => Text.occurs (fst m) t = false) before ->
  Text.occurs p t = true ->
  Console.mapping_loop send_command_impl (before ++ (p, c) :: after) t st
  = bind (send_command c) (fun _ => ret true) st.
Proof.
  induction 1 as [|[q d] rest Hq _ IH]; intros Hp; cbn [app Console.mapping_loop].
  - rewrite Hp. reflexivity.
  - cbn [fst] in Hq. rewrite Hq. apply IH. exact Hp.
Qed.

End OneAnswer.

Section OnItsOwn.
Variable W : Type.
Variable sys_send : Server.sock -> bytes -> W -> W * option os_error.

Local Abbreviation broadcast := (Server.send_command sys_send).

(** Run from its first statement to its last, [send_command] returns. *)
Lemma send_command_returns c (sv : Server.server W) :
  exists sv', broadcast c sv = (Ret tt, sv').
Proof.
  unfold Server.send_command, bind at 1, get.
  destruct (Server.clients sv) as [|e es] eqn:Ec.
  - eexists. reflexivity.
  - rewrite <- Ec.
    unfold bind at 1, Server.json_dumps, bind at 1, Server.note, modify, ret at 1.
    destruct (@fan_out_spec W sys_send c _ _ (Server.clients sv) []
                (Server.emit (Server.Serialize c) sv) (line_bytes_command c))
      as (results & w' & _ & Hfan).
    cbn [Server.clients] in Hfan. unfold bind at 1. rewrite Hfan.
    apply prune_returns.
Qed.

Lemma send_command_sent c (st : Console.console W) :
  Console.send_command broadcast c st = (Ret tt, Console.sent broadcast c st).
Proof.
  unfold Console.send_command, Console.sent, bind, Console.note, modify,
    Console.in_core.
  cbn [Console.core Console.emit].
  destruct (send_command_returns c (Console.core st)) as (sv' & E).
  rewrite E. reflexivity.
Qed.

(** X14.  With the controller's [send_command] run on its own,
    [process_voice_command] on a text that can be printed returns, and it has
    done exactly one of two things: handed one command to [send_command],
    once, or logged that the command is unknown.  It never broadcasts
    twice, however many phrases the text holds, and it never does both. *)
Theorem one_answer_per_command (t : str) (st : Console.console W) :
  is_text t ->
  let st1 := Console.emit (Console.Said (Console.MsgProcessing t)) st in
  exists st',
    Console.process_voice_command broadcast t st = (Ret tt, st') /\
    ((exists c, st' = Console.sent broadcast c st1)
     \/ st' = Console.emit (Console.Said (Console.MsgUnknownCommand t)) st1).
Proof.
  intros Ht st1. unfold Console.process_voice_command, bind at 1.
  rewrite (log_sayable _ st Ht). fold st1. unfold bind at 1.
  destruct (message_branch_cases broadcast t st1) as [(content & _ & E)|E];
    rewrite E.
  - unfold bind at 1. rewrite send_command_sent. cbn [ret].
    eexists. split; [reflexivity|]. left. eexists. reflexivity.
  - unfold bind at 1.
    destruct (mapping_loop_cases broadcast t st1 Console.command_mappings)
      as [(c & _ & E')|E']; rewrite E'.
    + unfold bind at 1. rewrite send_command_sent. cbn [ret].
      eexists. split; [reflexivity|]. left. eexists. reflexivity.
    + rewrite (log_sayable _ st1 Ht).
      eexists. split; [reflexivity|]. right. reflexivity.
Qed.

End OnItsOwn.

Section Spoken.
Variable W : Type.
Variable send_command_impl : Server.command -> Server.Act W unit.

Local Abbreviation send_command := (Console.send_command send_command_impl).
Local Abbreviation process_voice_command :=
  (Console.process_voice_command send_command_impl).

Lemma is_text_app a b : is_text a -> is_text b -> is_text (a ++ b).
Proof. unfold is_text. intros Ha Hb. apply Forall_app. split; assumption. Qed.

(** X15.  A spoken command that begins with [send message], or with
    [message] and has no [send message] further on, is sent as a message
    whose content is the rest of the text without the white space around it.
    Nothing else is done with that text: the table of phrases is not
    consulted, whatever the message says. *)
Theorem spoken_message_content (p rest : str) (st : Console.console W) :
  p = lit "send message"
  \/ (p = lit "message" /\ Text.occurs (lit "send message") rest = false) ->
  is_text rest -> strip rest <> [] ->
  process_voice_command (p ++ rest) st
  = bind (Console.log_message (Console.MsgProcessing (p ++ rest)) (p ++ rest))
         (fun _ => send_command (Console.message_command (strip rest))) st.
Proof.
  intros Hp Ht Hs.
  assert (Hb : forall s,
            Console.message_branch send_command_impl (p ++ rest) s
            = bind (send_command (Console.message_command (strip rest)))
                   (fun _ => ret true) s).
  { intros s.
    assert (Hk : forall sep,
              Text.find sep (p ++ rest) = Some ([], rest) ->
              bind (Console.after_first sep (p ++ rest))
                   (fun content =>
                      match strip content with
                      | [] => ret false
                      | _ :: _ =>
                          bind (send_command
                                  (Console.message_command (strip content)))
                               (fun _ => ret true)
                      end) s
              = bind (send_command (Console.message_command (strip rest)))
                     (fun _ => ret true) s).
    { intros sep Hf. unfold Console.after_first. rewrite Hf.
      unfold bind at 1, ret at 1.
      destruct (strip rest) as [|c0 r0] eqn:E; [congruence|]. reflexivity. }
    unfold Console.message_branch, Console.message_prefixed.
    destruct Hp as [->|[-> Hno]].
    - rewrite startswith_app. cbn [orb].
      pose proof (occurs_inside (lit "send message") [] rest) as Ho.
      change ([] ++ lit "send message" ++ rest)
        with (lit "send message" ++ rest) in Ho.
      rewrite Ho. apply Hk, find_prefix.
    - rewrite (startswith_app (lit "message") rest), orb_true_r.
      rewrite occurs_after_message, Hno. apply Hk, find_prefix. }
  unfold Console.process_voice_command. apply bind_ext. intros _ s0.
  unfold bind at 1. rewrite Hb.
  unfold Console.send_command, bind.
  destruct (Console.note _ s0) as [[u1|e|] s1]; try reflexivity.
  destruct (Console.in_core _ s1) as [[[]|e|] s2]; reflexivity.
Qed.

(** X16.  A spoken command that is no message is matched against the
    table of phrases in the order in which the table is written, and a
    phrase matches wherever it occurs in the text: the command of the first
    phrase of the table that occurs is sent, and only that command. *)
Theorem first_phrase_decides (before after : list (str * Server.command))
    (phrase : str) (c : Server.command) (t : str) (st : Console.console W) :
  Console.command_mappings = before ++ (phrase, c) :: after ->
  Console.message_prefixed t = false ->
  Forall (fun m => Text.occurs (fst m) t = false) before ->
  Text.occurs phrase t = true ->
  process_voice_command t st
  = bind (Console.log_message (Console.MsgProcessing t) t)
         (fun _ => send_command c) st.
Proof.
  intros Ht Hm Hb Hp. unfold Console.process_voice_command.
  apply bind_ext. intros _ s0.
  assert (Hmb : Console.message_branch send_command_impl t s0 = (Ret false, s0))
    by (unfold Console.message_branch; rewrite Hm; reflexivity).
  unfold bind at 1. rewrite Hmb. unfold bind at 1. rewrite Ht.
  rewrite (@mapping_loop_first W send_command_impl t phrase c after s0 before Hb Hp).
  unfold Console.send_command, bind.
  destruct (Console.note _ s0) as [[u1|e|] s1]; try reflexivity.
  destruct (Console.in_core _ s1) as [[[]|e|] s2]; reflexivity.
Qed.

End Spoken.

(** ** From the message field to the screen of an agent *)

Lemma contains_end s : contains NL (s ++ [NL]) = true.
Proof.
  induction s as [|c r IH]; cbn [app contains]; [reflexivity|].
  destruct (c =? NL)%N; [reflexivity|exact IH].
Qed.

Section OneLine.
Variable W : Type.
Variable interpret : value -> Client.Act W unit.

(** A read that brings the one line written for a command hands that
    command to the interpreter, and when the interpreter returns the session
    has done nothing else. *)
Lemma printing_listen_line (c : Server.command) (st st' : Client.client W) :
  Server.well_formed c -> Client.running st = true ->
  interpret (Server.to_value c) st = (Ret tt, st') ->
  Printing.listen_for_commands interpret
    [inr (map byte_of (Server.command_text c ++ [NL]))] st = (Ret tt, st').
Proof.
  intros Hwf Hr Hi.
  assert (Hline : Printing.handle_line interpret (Server.command_text c) st
                  = (Ret tt, st')).
  { unfold Printing.handle_line.
    change (Server.command_text c) with (123%N :: Server.items_text c ++ [125%N]).
    rewrite strip_braces.
    change (123%N :: Server.items_text c ++ [125%N]) with (Server.command_text c).
    unfold try_except, bind, Printing.json_loads.
    rewrite <- dumps_command, (loads_dumps Hwf). unfold ret at 1. rewrite Hi.
    reflexivity. }
  assert (Hdrain : Printing.drain interpret
                     (List.length (Server.command_text c ++ [NL]))
                     (Server.command_text c ++ [NL]) st = (Ret [], st')).
  { rewrite length_app, Nat.add_1_r. cbn [Printing.drain].
    rewrite contains_end.
    rewrite (split_once_line _ (printable_no_newline (command_text_printable c))).
    unfold bind. rewrite Hline.
    destruct (List.length (Server.command_text c)); reflexivity. }
  assert (Hbody : Printing.listen_body interpret
                    (inr (map byte_of (Server.command_text c ++ [NL]))) [] st
                  = (Ret (Client.Continue []), st')).
  { unfold Printing.listen_body, try_except, bind at 1, Printing.recv_decode.
    rewrite decode_line. unfold ret at 1.
    change (Server.command_text c) with (123%N :: Server.items_text c ++ [125%N]) at 1.
    cbn [app].
    change (123%N :: (Server.items_text c ++ [125%N]) ++ [NL])
      with (Server.command_text c ++ [NL]).
    unfold bind. rewrite Hdrain. reflexivity. }
  unfold Printing.listen_for_commands. cbn [Printing.listen_loop].
  unfold bind at 1, get. rewrite Hr. unfold bind at 1. rewrite Hbody.
  unfold bind at 1. destruct (Client.running st'); reflexivity.
Qed.

End OneLine.

Section Screen.
Variable Wc : Type.
Variable sys_exec : Client.exec_call -> Wc -> Wc * option exn.
Variable sys_timestamp : Wc -> str.

(** What the agent's interpreter does with a message command. *)
Lemma printing_message_command content (agent : Client.client Wc) :
  Printing.process_command sys_exec sys_timestamp
    (Server.to_value (Console.message_command content)) agent
  = bind (Client.note (Client.Deliver
                         (Server.to_value (Console.message_command content))))
      (fun _ =>
         bind (Client.log_message (Client.MsgReceived (JStr (lit "message"))))
           (fun _ =>
              try_except (Printing.show_message sys_exec (JStr content))
                any_exception
                (fun e => Client.log_message
                            (Client.MsgExecError (JStr (lit "message")) e))))
      agent.
Proof.
  unfold Printing.process_command. apply bind_ext. intros _ s.
  assert (Ha : dict_get (lit "action")
                 [(lit "action", JStr (lit "message")); (lit "content", JStr content)]
               = Some (JStr (lit "message"))).
  { cbn [dict_get]. rewrite (proj2 (str_eqb_eq _ _) eq_refl). reflexivity. }
  assert (Hc : dict_get (lit "content")
                 [(lit "action", JStr (lit "message")); (lit "content", JStr content)]
               = Some (JStr content)).
  { cbn [dict_get]. rewrite str_eqb_neq by (vm_compute; discriminate).
    rewrite (proj2 (str_eqb_eq _ _) eq_refl). reflexivity. }
  unfold Server.to_value, Console.message_command. cbn [map fst snd].
  unfold bind at 1. cbn [Client.get_field ret]. rewrite Ha.
  assert (Hs : Printing.shows (JStr (lit "message")) = true)
    by (vm_compute; reflexivity).
  unfold bind. rewrite (@printing_log _ _ _ s Hs).
  cbn [Client.log_message modify].
  assert (Hd : forall s0,
            Printing.dispatch sys_exec sys_timestamp
              (JDict [(lit "action", JStr (lit "message"));
                      (lit "content", JStr content)])
              (JStr (lit "message")) s0
            = Printing.show_message sys_exec (JStr content) s0).
  { intros s0. unfold Printing.dispatch.
    assert (Hm : Client.is_action (JStr (lit "message")) "message" = true)
      by (vm_compute; reflexivity).
    assert (Hu : forall m, lit m <> lit "message" ->
                           Client.is_action (JStr (lit "message")) m = false)
      by (intros m; apply is_action_unique; exact Hm).
    rewrite !Hu by (intro E; vm_compute in E; discriminate).
    rewrite Hm. unfold bind at 1. cbn [Client.get_field ret]. rewrite Hc.
    reflexivity. }
  unfold try_except. rewrite Hd.
  destruct (Printing.show_message _ _ _) as [[u|e|] s1]; reflexivity.
Qed.

Lemma message_command_plain content :
  is_text content ->
  Printing.plain [(lit "action", JStr (lit "message")); (lit "content", JStr content)].
Proof.
  intros Ht key v Hk. cbn [dict_get].
  destruct Hk as [<-|[<-|[<-|[<-|[]]]]].
  - rewrite (proj2 (str_eqb_eq _ _) eq_refl). intros E. inversion E; subst.
    vm_compute. reflexivity.
  - rewrite !str_eqb_neq by (vm_compute; discriminate). discriminate.
  - rewrite str_eqb_neq by (vm_compute; discriminate).
    rewrite (proj2 (str_eqb_eq _ _) eq_refl). intros E. inversion E; subst.
    exact (proj2 (sayable_text content) Ht).
  - rewrite !str_eqb_neq by (vm_compute; discriminate). discriminate.
Qed.

(** X17.  A message typed into the message field reaches the screen of an
    agent as it was typed, without the white space around it.
    [send_message] hands [send_command] the command with that text as its
    [content], and does nothing else before it clears the field; and an
    agent that reads the line written for this command logs the action
    [message] and shows exactly that text, under the key under which the
    controller has put it. *)
Theorem typed_message_reaches_screen (Ws : Type)
    (send_command_impl : Server.command -> Server.Act Ws unit)
    (st : Console.console Ws) (agent : Client.client Wc) :
  is_text (Console.message_entry st) ->
  strip (Console.message_entry st) <> [] ->
  Client.running agent = true ->
  let message := strip (Console.message_entry st) in
  let c := Console.message_command message in
  Console.send_message send_command_impl st
  = bind (Console.send_command send_command_impl c)
         (fun _ => modify (Console.set_message_entry [])) st
  /\ exists data,
       Server.line_bytes (dumps (Server.to_value c)) = Some data /\
       Printing.listen_for_commands
         (Printing.process_command sys_exec sys_timestamp) [inr data] agent
       = bind (Client.note (Client.Deliver (Server.to_value c)))
           (fun _ =>
              bind (Client.log_message
                      (Client.MsgReceived (JStr (lit "message"))))
                (fun _ =>
                   try_except (Printing.show_message sys_exec (JStr message))
                     any_exception
                     (fun e => Client.log_message
                                 (Client.MsgExecError (JStr (lit "message")) e))))
           agent.
Proof.
  intros Ht Hs Hr message c. subst c. split.
  - subst message. unfold Console.send_message, bind at 1, get.
    destruct (strip (Console.message_entry st)) as [|c0 r0];
      [congruence|reflexivity].
  - exists (map byte_of
              (Server.command_text (Console.message_command message) ++ [NL])).
    split; [apply line_bytes_command|].
    assert (Htext : is_text message) by (apply is_text_strip; exact Ht).
    rewrite <- (printing_message_command message agent).
    pose proof (@printing_agrees Wc sys_exec sys_timestamp _ agent
                  (message_command_plain Htext)) as Hagree.
    destruct (@process_command_returns Wc sys_exec sys_timestamp
                [(lit "action", JStr (lit "message")); (lit "content", JStr message)]
                agent) as (agent' & Hret).
    rewrite Hret in Hagree.
    change (JDict [(lit "action", JStr (lit "message"));
                   (lit "content", JStr message)])
      with (Server.to_value (Console.message_command message)) in Hagree.
    rewrite Hagree. apply printing_listen_line; [|exact Hr|exact Hagree].
    apply message_command_sound. exact Htext.
Qed.

End Screen.

(** ** The voice loop *)

Section VoiceLoop.
Variable W : Type.
Variable send_command_impl : Server.command -> Server.Act W unit.
Variable py_lower : str -> str.

Local Abbreviation voice_round := (Console.voice_round send_command_impl py_lower).
Local Abbreviation voice_loop := (Console.voice_loop send_command_impl py_lower).

Lemma voice_round_fails r e (st : Console.console W) :
  r = inl e \/ (exists raw, r = inr (Some raw) /\ Console.rejects raw = Some e) ->
  voice_round r st = (Raise e, st).
Proof.
  intros [->|(raw & -> & Hrej)]; [reflexivity|].
  unfold Console.voice_round, Console.rejects, Console.json_loads in *.
  destruct (loads raw) as [v|].
  - unfold bind at 1, ret at 1. destruct v; try (inversion Hrej; reflexivity).
    unfold bind at 1. cbn [Console.get_text ret].
    destruct (dict_get (lit "text") d) as [[]|]; try discriminate;
      inversion Hrej; reflexivity.
  - inversion Hrej. reflexivity.
Qed.

Lemma voice_loop_quiet rounds (st : Console.console W) : forall n,
  Console.listening st = true ->
  voice_loop (repeat (inr None) n ++ rounds) st = voice_loop rounds st.
Proof.
  induction n as [|n IH]; intros Hl; [reflexivity|].
  cbn [repeat app Console.voice_loop]. unfold bind at 1, get. rewrite Hl.
  unfold bind at 1. cbn [Console.voice_round ret]. apply IH. exact Hl.
Qed.

(** X18.  The voice loop has no way back from a failure.  When a read of
    the microphone raises, or the recognizer hands back something that is not
    an object with a text in it, the exception is caught and logged,
    [listening] is cleared so that no further round is made, and the button
    is reset; the microphone stream is left open, and the controller proper
    is untouched. *)
Theorem voice_failure_switches_off (quiet : nat) (r : Console.round) (e : exn)
    (later : list Console.round) (st : Console.console W) :
  Console.listening st = true ->
  r = inl e \/ (exists raw, r = inr (Some raw) /\ Console.rejects raw = Some e) ->
  Console.listen_for_voice_commands send_command_impl py_lower None
    (repeat (inr None) quiet ++ r :: later) st
  = (Ret tt,
     Console.emit Console.ButtonReset
       (Console.set_listening false
          (Console.emit (Console.Said (Console.MsgVoiceError e))
             (Console.emit (Console.Said Console.MsgListening)
                (Console.emit Console.StreamOpened st))))).
Proof.
  intros Hl Hr.
  unfold Console.listen_for_voice_commands, try_except.
  unfold bind at 1. cbn [Console.note modify]. unfold bind at 1.
  cbn [Console.log_message Console.sayable encode modify].
  unfold bind at 1. rewrite voice_loop_quiet by exact Hl.
  cbn [Console.voice_loop]. unfold bind at 1, get. cbn [Console.listening Console.emit].
  rewrite Hl. unfold bind at 1. rewrite (voice_round_fails _ Hr).
  reflexivity.
Qed.

End VoiceLoop.

(** ** The theorems on the controller of the scenario *)


Lemma one_answer_per_command_witness :
  let t := lit "lock all screens and open firefox" in
  let st1 := Console.emit (Console.Said (Console.MsgProcessing t)) Scenario.window in
  exists st',
    Console.process_voice_command Scenario.broadcast t Scenario.window
    = (Ret tt, st') /\
    ((exists c, st' = Console.sent Scenario.broadcast c st1)
     \/ st' = Console.emit (Console.Said (Console.MsgUnknownCommand t)) st1).
Proof.
  apply (@one_answer_per_command _ Demo.send_even
           (lit "lock all screens and open firefox") Scenario.window).
  literal_text.
Defined.

Lemma spoken_message_content_witness :
  Console.process_voice_command Scenario.broadcast
    (lit "message" ++ lit " lock all screens") Scenario.window
  = bind (Console.log_message
            (Console.MsgProcessing (lit "message" ++ lit " lock all screens"))
            (lit "message" ++ lit " lock all screens"))
         (fun _ => Console.send_command Scenario.broadcast
                     (Console.message_command (strip (lit " lock all screens"))))
         Scenario.window.
Proof.
  apply (@spoken_message_content _ Scenario.broadcast (lit "message")
           (lit " lock all screens") Scenario.window).
  - right. split; [reflexivity|vm_compute; reflexivity].
  - literal_text.
  - vm_compute. discriminate.
Defined.

Lemma first_phrase_decides_witness :
  let t := lit "open calculator then lock all screens" in
  Console.process_voice_command Scenario.broadcast t Scenario.window
  = bind (Console.log_message (Console.MsgProcessing t) t)
         (fun _ => Console.send_command Scenario.broadcast (Console.action "lock"))
         Scenario.window.
Proof.
  apply (@first_phrase_decides _ Scenario.broadcast
           (firstn 3 Console.command_mappings) (skipn 4 Console.command_mappings)
           (lit "lock all screens") (Console.action "lock")
           (lit "open calculator then lock all screens") Scenario.window).
  - reflexivity.
  - vm_compute. reflexivity.
  - unfold Console.command_mappings. cbn [firstn].
    repeat (apply Forall_cons; [vm_compute; reflexivity|]). apply Forall_nil.
  - vm_compute. reflexivity.
Defined.

Lemma typed_message_reaches_screen_witness :
  let message := strip (Console.message_entry Scenario.window) in
  let c := Console.message_command message in
  Console.send_message Scenario.broadcast Scenario.window
  = bind (Console.send_command Scenario.broadcast c)
         (fun _ => modify (Console.set_message_entry [])) Scenario.window
  /\ exists data,
       Server.line_bytes (dumps (Server.to_value c)) = Some data /\
       Printing.listen_for_commands
         (Printing.process_command Demo.exec_ok Demo.timestamp) [inr data]
         Demo.listening
       = bind (Client.note (Client.Deliver (Server.to_value c)))
           (fun _ =>
              bind (Client.log_message
                      (Client.MsgReceived (JStr (lit "message"))))
                (fun _ =>
                   try_except
                     (Printing.show_message Demo.exec_ok (JStr message))
                     any_exception
                     (fun e => Client.log_message
                                 (Client.MsgExecError (JStr (lit "message")) e))))
           Demo.listening.
Proof.
  apply (@typed_message_reaches_screen _ Demo.exec_ok Demo.timestamp _
           Scenario.broadcast Scenario.window Demo.listening).
  - literal_text.
  - vm_compute. discriminate.
  - reflexivity.
Defined.

Lemma voice_failure_switches_off_witness :
  Console.listen_for_voice_commands Scenario.broadcast Scenario.lower None
    (repeat (inr None) 2 ++ [inr (Some (lit "[]"))]) Scenario.window
  = (Ret tt,
     Console.emit Console.ButtonReset
       (Console.set_listening false
          (Console.emit (Console.Said (Console.MsgVoiceError AttributeError))
             (Console.emit (Console.Said Console.MsgListening)
                (Console.emit Console.StreamOpened Scenario.window))))).
Proof.
  apply (@voice_failure_switches_off _ Scenario.broadcast Scenario.lower 2
           (inr (Some (lit "[]"))) AttributeError [] Scenario.window).
  - reflexivity.
  - right. exists (lit "[]"). split; [reflexivity|vm_compute; reflexivity].
Defined.

(** ** The launcher *)

Section LauncherFacts.
Variable py_lower : str -> str.
Variable path_exists : string -> bool.

Lemma client_args_app a b :
  Launcher.client_args (a ++ b) = Launcher.client_args a ++ Launcher.client_args b.
Proof.
  induction a as [|e r IH]; [reflexivity|].
  destruct e; cbn [app Launcher.client_args]; rewrite ?IH; try reflexivity.
  destruct (String.eqb script "buddy_client.py"); [rewrite <- app_comm_cons|];
    rewrite ?IH; reflexivity.
Qed.

(** X19.  The address of the controller that is asked for in the
    interactive mode never reaches the agent.  [interactive_mode] appends it
    to [sys.argv], where it becomes the second entry, and [start_client]
    looks for a third: whatever is typed, the agent is started without an
    argument and searches for its controller.  Given on the command line
    after the word [client] the address is passed on. *)
Theorem interactive_address_is_dropped (argv : list str)
    (first second : Launcher.answer) (w : Launcher.waited)
    (prog word ip : str) (rest : list str) :
  (List.length argv < 2)%nat ->
  py_lower word = lit "client" ->
  path_exists "buddy_client.py" = true ->
  Forall (fun args => args = [])
    (Launcher.client_args
       (fst (Launcher.main py_lower path_exists argv first second w)))
  /\ Launcher.client_args
       (fst (Launcher.main py_lower path_exists
               (prog :: word :: ip :: rest) first second w))
     = [[ip]].
Proof.
  intros Hlen Hword Hp. split.
  - unfold Launcher.main. apply Nat.ltb_lt in Hlen. rewrite Hlen.
    unfold Launcher.interactive_mode.
    assert (Hc : forall argv', (List.length argv' <= 2)%nat ->
              Forall (fun args => args = [])
                (Launcher.client_args
                   (fst (Launcher.start_client path_exists argv' w)))).
    { intros argv' Hl. unfold Launcher.start_client.
      destruct (path_exists "buddy_client.py"); [|constructor].
      assert (E : (2 <? List.length argv')%nat = false)
        by (apply Nat.ltb_ge; exact Hl).
      rewrite E. destruct w; cbn; repeat constructor. }
    assert (Hs : Forall (fun args => args = [])
                   (Launcher.client_args
                      (fst (Launcher.start_server path_exists w)))).
    { unfold Launcher.start_server.
      destruct (path_exists "buddy_server.py"); [|constructor].
      destruct w; cbn; constructor. }
    assert (Hg : forall r,
              Forall (fun args => args = []) (Launcher.client_args (fst r)) ->
              Forall (fun args => args = [])
                (Launcher.client_args (fst (Launcher.goodbye_on_interrupt r)))).
    { intros [evs [|[]]] H; cbn [Launcher.goodbye_on_interrupt fst] in *;
        try exact H.
      rewrite client_args_app, app_nil_r. exact H. }
    match goal with
    | |- context [Launcher.goodbye_on_interrupt ?r] =>
        assert (Hr : Forall (fun args => args = [])
                       (Launcher.client_args (fst r)))
    end.
    { destruct first as [line| |]; try (cbn; constructor).
      destruct (str_eqb (strip line) (lit "1")).
      { destruct (Launcher.start_server path_exists w) as [evs e]. exact Hs. }
      destruct (str_eqb (strip line) (lit "2")).
      { destruct second as [line2| |]; try (cbn; constructor).
        match goal with
        | |- context [Launcher.start_client path_exists ?a w] =>
            pose proof (Hc a) as Ha;
            destruct (Launcher.start_client path_exists a w) as [evs e]
        end.
        apply Ha. apply Nat.ltb_lt in Hlen.
        destruct (strip line2); [lia|]. rewrite length_app. cbn [List.length]. lia. }
      destruct (str_eqb (strip line) (lit "3")); [cbn; constructor|].
      destruct (str_eqb (strip line) (lit "4")); cbn; constructor. }
    apply Hg in Hr.
    destruct (Launcher.goodbye_on_interrupt _) as [evs e]. exact Hr.
  - unfold Launcher.main.
    cbn [List.length Nat.ltb Nat.leb nth]. rewrite Hword.
    rewrite (str_eqb_neq (a := lit "client") (b := lit "server"))
      by (vm_compute; discriminate).
    rewrite (proj2 (str_eqb_eq _ _) eq_refl).
    unfold Launcher.start_client. rewrite Hp.
    cbn [List.length Nat.ltb Nat.leb nth].
    destruct w; reflexivity.
Qed.

End LauncherFacts.

Lemma interactive_address_is_dropped_witness :
  Forall (fun args => args = [])
    (Launcher.client_args
       (fst (Launcher.main Scenario.lower (fun _ => true) [lit "Buddy.py"]
               (Launcher.Typed (lit "2")) (Launcher.Typed (lit "10.0.0.3"))
               Launcher.Exited)))
  /\ Launcher.client_args
       (fst (Launcher.main Scenario.lower (fun _ => true)
               [lit "Buddy.py"; lit "client"; lit "10.0.0.3"]
               (Launcher.Typed (lit "2")) (Launcher.Typed (lit "10.0.0.3"))
               Launcher.Exited))
     = [[lit "10.0.0.3"]].
Proof.
  apply (@interactive_address_is_dropped Scenario.lower (fun _ => true)
           [lit "Buddy.py"] (Launcher.Typed (lit "2"))
           (Launcher.Typed (lit "10.0.0.3")) Launcher.Exited
           (lit "Buddy.py") (lit "client") (lit "10.0.0.3") []).
  - cbn [List.length]. lia.
  - reflexivity.
  - reflexivity.
Defined.
